(** * ggMCP4VSCode: file tools and request handler

    A shallow embedding of [src/tools/fileReadWriteTools.ts] and of the
    request handler ([RequestHandler.handleToolExecution],
    [RequestHandler.executeToolDirect]), with the properties of the
    positional edit algorithms, of the deferred cache update and of the
    tool-invocation pipeline.

    JavaScript strings are sequences of code units; they are modelled as
    [list ascii].  JavaScript numbers that count lines and characters are
    modelled as [Z]; a number that can have a fractional part (the
    [maxCharacters] argument, a measured duration) is modelled as [Q]. *)

From Stdlib Require Import ZArith QArith Qround Ascii String.
From stdpp Require Import gmap strings list sorting.

Local Open Scope Z_scope.

(** ** JavaScript string primitives *)

Module Js.

Abbreviation str := (list ascii).

Definition CR : ascii := "013"%char.
Definition LF : ascii := "010"%char.
Definition CRLF : str := [CR; LF].

(** The literal of a string constant of the source. *)
Definition lit (s : string) : str := list_ascii_of_string s.

(** [s.startsWith(p)], used to define the searches below. *)
Fixpoint startsWith (p s : str) : bool :=
  match p, s with
  | [], _ => true
  | _ :: _, [] => false
  | a :: p', b :: s' => if decide (a = b) then startsWith p' s' else false
  end.

(** [s.includes(p)] *)
Fixpoint includes (p s : str) : bool :=
  startsWith p s ||
  match s with
  | [] => false
  | _ :: s' => includes p s'
  end.

(** [s.replace(/\r\n/g, '\n')] *)
Fixpoint replaceCRLF (s : str) : str :=
  match s with
  | [] => []
  | c :: r =>
      match r with
      | d :: r' =>
          if decide (c = CR) then
            if decide (d = LF) then LF :: replaceCRLF r' else c :: replaceCRLF r
          else c :: replaceCRLF r
      | [] => [c]
      end
  end.

(** [s.replace(/\r\n|\r/g, '\n')] *)
Fixpoint replaceCRLForCR (s : str) : str :=
  match s with
  | [] => []
  | c :: r =>
      if decide (c = CR) then
        match r with
        | d :: r' => if decide (d = LF) then LF :: replaceCRLForCR r'
                     else LF :: replaceCRLForCR r
        | [] => [LF]
        end
      else c :: replaceCRLForCR r
  end.

(** [s.replace(/\n/g, le)] *)
Fixpoint replaceLF (le : str) (s : str) : str :=
  match s with
  | [] => []
  | c :: r => if decide (c = LF) then le ++ replaceLF le r else c :: replaceLF le r
  end.

(** [s.split('\n')]: the empty string splits into one empty line. *)
Fixpoint splitLF (s : str) : list str :=
  match s with
  | [] => [[]]
  | c :: r =>
      if decide (c = LF) then [] :: splitLF r
      else match splitLF r with
           | h :: t => (c :: h) :: t
           | [] => [[c]]
           end
  end.

(** [lines.join(sep)] *)
Fixpoint join (sep : str) (lines : list str) : str :=
  match lines with
  | [] => []
  | [l] => l
  | l :: rest => l ++ sep ++ join sep rest
  end.

(** An index argument of [substring]: clamped to [0, s.length]. *)
Definition clampIndex (i : Z) (s : str) : nat :=
  Nat.min (Z.to_nat i) (length s).

(** [s.substring(a, b)]: both ends clamped, swapped when [a > b]. *)
Definition substring (s : str) (a b : Z) : str :=
  let ia := clampIndex a s in
  let ib := clampIndex b s in
  let from := Nat.min ia ib in
  let to := Nat.max ia ib in
  take (to - from)%nat (drop from s).

(** [s.substring(a)]: the end defaults to [s.length]. *)
Definition substringFrom (s : str) (a : Z) : str :=
  substring s a (Z.of_nat (length s)).

(** [s.slice(0, n)] for an integer [n] that is not negative. *)
Definition slice0 (s : str) (n : Z) : str :=
  take (Nat.min (Z.to_nat n) (length s)) s.

(** [ToIntegerOrInfinity] on a finite number: the fractional part is
    dropped.  [slice] applies it to its arguments. *)
Definition toIntegerOrInfinity (q : Q) : Z :=
  Z.quot (Qnum q) (Z.pos (Qden q)).

(** [x > y] on finite numbers. *)
Definition greater (x y : Q) : bool :=
  if Qlt_le_dec y x then true else false.

(** [lines.splice(start, deleteCount, ...items)], the array afterwards. *)
Definition splice (lines : list str) (start deleteCount : Z) (items : list str)
  : list str :=
  let len := Z.of_nat (length lines) in
  let actualStart := if decide (start < 0) then Z.max (len + start) 0 else Z.min start len in
  let actualDelete := Z.min (Z.max deleteCount 0) (len - actualStart) in
  take (Z.to_nat actualStart) lines ++ items
    ++ drop (Z.to_nat (actualStart + actualDelete)) lines.

(** *** Auxiliary notions used to state the properties *)

(** [l.endsWith('\r')] *)
Definition endsWithCR (l : str) : bool := bool_decide (last l = Some CR).

(** No CRLF inside a line, and no line but the last ends with CR: the
    LF-joined lines contain no CRLF. *)
Fixpoint joinNoCRLF (ls : list str) : bool :=
  match ls with
  | [] => true
  | [l] => negb (includes CRLF l)
  | l :: rest => negb (includes CRLF l) && negb (endsWithCR l) && joinNoCRLF rest
  end.

(** An LF that does not follow a CR; [afterCR] tells whether the
    character before the head of [s] is a CR. *)
Fixpoint bareLF (afterCR : bool) (s : str) : bool :=
  match s with
  | [] => false
  | c :: r => bool_decide (c = LF) && negb afterCR || bareLF (bool_decide (c = CR)) r
  end.

(** The number of LF characters of a text. *)
Definition lineFeeds (s : str) : nat := length (filter (λ c, c = LF) s).

(** A CR that no LF follows. *)
Fixpoint bareCR (s : str) : bool :=
  match s with
  | [] => false
  | c :: r => bool_decide (c = CR) && negb (startsWith [LF] r) || bareCR r
  end.

(** Overwriting the characters of [line] from index [o] by [r]. *)
Definition overwrite (line r : str) (o : nat) : str :=
  take o line ++ r ++ drop (o + length r) line.

End Js.

Import Js.

(** ** Range replace: the text transformation of
    [ReplaceFileContentAtPositionTool.execute] *)

Module RangeReplace.

(** [currentContent.includes('\r\n') ? '\r\n' : '\n'] *)
Definition originalLineEnding (currentContent : str) : str :=
  if includes CRLF currentContent then CRLF else [LF].

Inductive outcome :=
| InvalidLineNumbers
| TypeError
| NewContent (newContent : str).

(** The body of [execute] between reading the file and writing it, for
    line numbers and an offset that are integers.  Reading
    [lines[startIndex]] where the array has no element gives [undefined],
    whose [substring] raises a TypeError. *)
Definition transform (currentContent : str) (startLine endLine : Z)
    (content : str) (offset : Z) : outcome :=
  let le := originalLineEnding currentContent in
  let normalizedContent := replaceCRLF currentContent in
  let lines := splitLF normalizedContent in
  if decide (startLine < 1 ∨ endLine > Z.of_nat (length lines) ∨ startLine > endLine)
  then InvalidLineNumbers
  else
    let startIndex := startLine - 1 in
    let endIndex := endLine - 1 in
    let adaptedContent := replaceCRLF content in
    if decide (startLine = endLine) then
      match lines !! Z.to_nat startIndex with
      | Some lineToModify =>
          let newLine :=
            substring lineToModify 0 offset ++ adaptedContent
              ++ substringFrom lineToModify (offset + Z.of_nat (length adaptedContent)) in
          NewContent (join le (<[Z.to_nat startIndex := newLine]> lines))
      | None => TypeError
      end
    else
      let newLines := splitLF adaptedContent in
      NewContent (join le (splice lines startIndex (endIndex - startIndex + 1) newLines)).

End RangeReplace.


(** ** Literal replace-all: the text transformation of
    [ReplaceSpecificTextTool.execute] *)

Module ReplaceText.

(** The characters of the class [[.*+?^${}()|[\]\\]] of [escapeRegExp];
    they are the syntax characters of a regular expression. *)
Definition isSyntaxChar (c : ascii) : bool :=
  bool_decide (c ∈ lit ".*+?^${}()|[]\").

(** [string.replace(/[.*+?^${}()|[\]\\]/g, '\\$&')]: a backslash before
    every syntax character. *)
Fixpoint escapeRegExp (string : str) : str :=
  match string with
  | [] => []
  | c :: r =>
      if isSyntaxChar c then "\"%char :: c :: escapeRegExp r
      else c :: escapeRegExp r
  end.

(** [new RegExp(source, 'gs')], on the fragment of patterns that are a
    sequence of literal characters: a character that is no syntax
    character stands for itself, a backslash followed by a syntax
    character stands for that character.  Every other pattern (operators,
    classes, other escapes) is outside the fragment: [None]. *)
Fixpoint compileLiteral (source : str) : option str :=
  match source with
  | [] => Some []
  | c :: r =>
      if decide (c = "\"%char) then
        match r with
        | d :: r' => if isSyntaxChar d then (d ::.) <$> compileLiteral r' else None
        | [] => None
        end
      else if isSyntaxChar c then None
      else (c ::.) <$> compileLiteral r
  end.

(** The matches of a global literal pattern [p] in [s], as the loop of the
    built-in [replace] and [match] finds them: from left to right, each
    search starting where the previous match ended, and one character
    further after an empty match.  [skip] counts the characters of the
    last match that are still to be passed, [pos] is the index of the
    head of [s] in the whole string. *)
Fixpoint scan (p : str) (skip pos : nat) (s : str) : list nat :=
  match s with
  | [] =>
      match skip with
      | O => if startsWith p s then [pos] else []
      | S _ => []
      end
  | _ :: s' =>
      match skip with
      | S k => scan p k (S pos) s'
      | O =>
          if startsWith p s then pos :: scan p (length p - 1) (S pos) s'
          else scan p 0 (S pos) s'
      end
  end.

Definition matchIndices (p s : str) : list nat := scan p 0 0 s.

(** [regex.test(s)] on a fresh regular expression ([lastIndex] 0).  The
    calls of [replace] and [match] that follow reset [lastIndex] to 0
    themselves, so the index that [test] leaves behind is not seen. *)
Definition test (p s : str) : bool := includes p s.

(** [GetSubstitution] for a pattern without capture groups: in the
    replacement text [$$] stands for a dollar sign, [$&] for the matched
    text, [$`] for the text before the match and [$'] for the text after
    it; every other dollar sign stands for itself. *)
Fixpoint getSubstitution (matched before after replacement : str) : str :=
  match replacement with
  | [] => []
  | c :: r =>
      if decide (c = "$"%char) then
        match r with
        | d :: r' =>
            if decide (d = "$"%char) then
              "$"%char :: getSubstitution matched before after r'
            else if decide (d = "&"%char) then
              matched ++ getSubstitution matched before after r'
            else if decide (d = "`"%char) then
              before ++ getSubstitution matched before after r'
            else if decide (d = "'"%char) then
              after ++ getSubstitution matched before after r'
            else c :: getSubstitution matched before after r
        | [] => [c]
        end
      else c :: getSubstitution matched before after r
  end.

(** [whole.replace(regex, replacement)] for the global literal pattern
    [p]: the same loop as [scan], copying the text between the matches and
    putting the substitution in the place of each match.  [s] is the part
    of [whole] from index [pos] on. *)
Fixpoint replaceFrom (p replacement whole : str) (skip pos : nat) (s : str) : str :=
  let substitution :=
    getSubstitution (take (length p) s) (take pos whole)
      (drop (pos + length p) whole) replacement in
  match s with
  | [] =>
      match skip with
      | O => if startsWith p s then substitution else []
      | S _ => []
      end
  | c :: s' =>
      match skip with
      | S k => replaceFrom p replacement whole k (S pos) s'
      | O =>
          if startsWith p s then
            substitution ++ (if decide (p = []) then [c] else [])
              ++ replaceFrom p replacement whole (length p - 1) (S pos) s'
          else c :: replaceFrom p replacement whole 0 (S pos) s'
      end
  end.

Definition replaceAll (p replacement s : str) : str :=
  replaceFrom p replacement s 0 0 s.

(** [(s.match(regex) || []).length] *)
Definition matchCount (p s : str) : nat := length (matchIndices p s).

(** The literal replace-all the specification describes: every
    occurrence found from left to right is replaced by the new text
    itself.  It is the reference the code is compared with. *)
Fixpoint literalReplaceAll (p new : str) (skip : nat) (s : str) : str :=
  match s with
  | [] =>
      match skip with
      | O => if startsWith p s then new else []
      | S _ => []
      end
  | c :: s' =>
      match skip with
      | S k => literalReplaceAll p new k s'
      | O =>
          if startsWith p s then
            new ++ (if decide (p = []) then [c] else [])
                ++ literalReplaceAll p new (length p - 1) s'
          else c :: literalReplaceAll p new 0 s'
      end
  end.

Inductive outcome :=
| NoOccurrences
| SyntaxError
| Replaced (finalContent : str) (replacementCount : nat).

(** The body of [execute] between decoding the file and writing it. *)
Definition transform (decoded oldText newText : str) : outcome :=
  let originalLineEnding := if includes CRLF decoded then CRLF else [LF] in
  let currentContent := replaceCRLForCR decoded in
  let normalizedOldText := replaceCRLForCR oldText in
  let normalizedNewText := replaceCRLForCR newText in
  let escapedOldText := escapeRegExp normalizedOldText in
  match compileLiteral escapedOldText with
  | None => SyntaxError
  | Some regex =>
      if negb (test regex currentContent) then NoOccurrences
      else
        let newContent := replaceAll regex normalizedNewText currentContent in
        let replacementCount := matchCount regex currentContent in
        let finalContent := replaceLF originalLineEnding newContent in
        Replaced finalContent replacementCount
  end.

End ReplaceText.

(** ** The runtime: responses, the store, the cache and the waiting tasks *)

Module Runtime.

(** A thrown value: an [Error] object with its message, or anything else. *)
Inductive JsError :=
| ErrorObject (message : str)
| ThrownValue (value : str).

Inductive Result (A : Type) :=
| Ok (a : A)
| Throw (e : JsError).
Arguments Ok {A} a.
Arguments Throw {A} e.

(** A number argument as [typeof], [Number.isFinite] and [>] see it; a
    finite number can have a fractional part. *)
Inductive JsNumber :=
| Finite (q : Q)
| NaN
| Infinity (negative : bool).

(** Data handed to the response builder and kept in [structuredContent]. *)
Inductive JsScalar :=
| VString (s : str)
| VNumber (q : Q)
| VBoolean (b : bool).

Inductive JsValue :=
| VScalar (v : JsScalar)
| VObject (fields : list (str * JsScalar)).

(** [McpContent] and [Response] of the MCP types; the tools modelled here
    build text items only, the other optional fields stay unset. *)
Inductive ContentType := text_t | image_t | audio_t | resource_link_t | resource_t.

Record McpContent := { type : ContentType; text : option str }.

Record Response := {
  content : list McpContent;
  isError : option bool;
  structuredContent : option (list (str * JsScalar));
}.

Fixpoint field (name : str) (fields : list (str * JsScalar)) : option JsScalar :=
  match fields with
  | [] => None
  | (k, v) :: rest => if decide (k = name) then Some v else field name rest
  end.

(** A template literal of a log call: text pieces, numbers, and numbers
    written with [toFixed(2)]. *)
Inductive LogPart := LText (s : str) | LNumber (z : Z) | LFixed2 (q : Q).
Inductive LogLevel := info | warn | error.
Record LogEntry := { level : LogLevel; message : list LogPart; detail : option JsError }.

(** A task waiting for a turn of the event loop.  The callback of the
    outer [setTimeout(..., 0)] of a file tool starts the cache update and
    schedules the opening of the file in an editor tab; the callback of
    the inner [setTimeout(..., 0)] opens the file; the promise of a cache
    update that was started and is not awaited settles in a turn of its
    own, where its [catch] handler runs if it rejects. *)
Inductive Timer :=
| DeferredCacheUpdate (tool absolutePath : str) (newContent : str)
| DeferredOpenInEditor (tool absolutePath : str)
| PendingCacheUpdate (absolutePath : str) (newContent : str).

Record World := {
  files : gmap str str;
  cache : gmap str str;
  timers : list Timer;
  logs : list LogEntry;
  editorTabs : list (str * str);
}.

(** Computations that read and change a state and may throw. *)
Definition ST (S A : Type) : Type := S → Result A * S.

Definition ret {S A} (a : A) : ST S A := λ s, (Ok a, s).
Definition throw {S A} (e : JsError) : ST S A := λ s, (Throw e, s).
Definition bind {S A B} (m : ST S A) (k : A → ST S B) : ST S B :=
  λ s, match m s with
       | (Ok a, s') => k a s'
       | (Throw e, s') => (Throw e, s')
       end.
(** [try { m } catch (err) { handler(err) }] *)
Definition tryCatch {S A} (m : ST S A) (handler : JsError → ST S A) : ST S A :=
  λ s, match m s with
       | (Ok a, s') => (Ok a, s')
       | (Throw e, s') => handler e s'
       end.

(** The computations of the tools run on the world. *)
Abbreviation M := (ST World).

Definition getFiles : M (gmap str str) := λ w, (Ok (files w), w).
Definition getCache : M (gmap str str) := λ w, (Ok (cache w), w).
Definition setFiles (f : gmap str str) : M unit :=
  λ w, (Ok tt, {| files := f; cache := cache w; timers := timers w;
                  logs := logs w; editorTabs := editorTabs w |}).
Definition setCache (c : gmap str str) : M unit :=
  λ w, (Ok tt, {| files := files w; cache := c; timers := timers w;
                  logs := logs w; editorTabs := editorTabs w |}).
(** [setTimeout(callback, 0)]: the callback joins the waiting tasks. *)
Definition setTimeout (t : Timer) : M unit :=
  λ w, (Ok tt, {| files := files w; cache := cache w; timers := timers w ++ [t];
                  logs := logs w; editorTabs := editorTabs w |}).
Definition log (l : LogLevel) (msg : list LogPart) (d : option JsError) : M unit :=
  λ w, (Ok tt, {| files := files w; cache := cache w; timers := timers w;
                  logs := logs w ++ [{| level := l; message := msg; detail := d |}];
                  editorTabs := editorTabs w |}).
Definition openTab (tool absolutePath : str) : M unit :=
  λ w, (Ok tt, {| files := files w; cache := cache w; timers := timers w;
                  logs := logs w;
                  editorTabs := editorTabs w ++ [(absolutePath, tool)] |}).

End Runtime.

Import Runtime.

Notation "'let!' x ':=' m 'in' k" := (bind m (λ x, k))
  (at level 10, x name, m at level 100, k at level 200, only parsing).

(** ** Collaborators that are outside the modelled files *)

Module Collaborators.

(** What the environment decides: how the response builder serialises
    data, how paths are shown, which operations of the store and of the
    cache fail, the wording of file-system error messages, and the
    durations the request handler measures with [performance.now()]
    while it serves a request. *)
Record Env := {
  serialize : JsValue → str;
  getRelativePath : str → str;
  getDirName : str → str;
  writeError : str → str → option JsError;
  createDirectoryError : str → option JsError;
  updateCacheError : str → str → option JsError;
  fileSystemErrorMessage : JsError → str → str → str;
  serverErrorStatus : Z;
  serverErrorMessage : JsError → str → str;
  beforeTime : Q;
  afterTime : Q;
  totalTime : Q;
}.

(** Modelled from the spec: [adaptLineEndings] is a helper of the base
    class [AbsFileTools] in absFileTools.ts, which is not among the
    sources.  Section 4.4 (3): the line endings of the content to append
    are rewritten to the dominant style of the existing text, which by
    section 4.4 (1) is CRLF when the text has a CRLF and LF otherwise.
    A line ending of the content is a CRLF, a CR or an LF, as for
    replace_specific_text. *)
Definition adaptLineEndings (existingContent newContent : str) : str :=
  replaceLF (if includes CRLF existingContent then CRLF else [LF])
    (replaceCRLForCR newContent).

Section WithEnv.
Variable env : Env.

(** *** responseHandler *)

(** Modelled from the spec: [responseHandler.success] and
    [responseHandler.failure] are in responseHandler.ts, which is not
    among the sources.  Section 4.2: success gives one text item that
    carries a serialised form of the data and [isError = false];
    failure gives one text item with the message and [isError = true]. *)
Definition success (data : JsValue) : Response :=
  {| content := [{| type := text_t; text := Some (serialize env data) |}];
     isError := Some false;
     structuredContent := None |}.

Definition failure (message : str) : Response :=
  {| content := [{| type := text_t; text := Some message |}];
     isError := Some true;
     structuredContent := None |}.

(** *** FileCache *)

(** Modelled from the spec: [FileCache] is in cache.ts, which is not
    among the sources.  Section 4.3: [updateCache] is asynchronous; when
    it settles it has overwritten or inserted the entry of the path, or
    it has failed and left the cache as it was.  [invalidate] removes
    the entry unconditionally. *)
Definition updateCache (absolutePath : str) (newText : str) : M unit :=
  match updateCacheError env absolutePath newText with
  | Some e => throw e
  | None => let! c := getCache in setCache (<[absolutePath := newText]> c)
  end.

Definition invalidate (absolutePath : str) : M unit :=
  let! c := getCache in setCache (delete absolutePath c).

(** *** AbsFileTools *)

Record WriteOptions := { checkExists : bool; mustExist : bool; skipCacheUpdate : bool }.

(** Modelled from the spec: the helpers of the base class [AbsFileTools]
    are in absFileTools.ts, which is not among the sources.  Section 6:
    reading gives the text of the path or fails; writing stores the
    text, fails with a not-found error when the file must exist and
    does not, and may fail with an I/O error.  Unless the caller skips
    it, a write also updates the cache. *)
Definition readFile (absolutePath : str) : M str :=
  let! f := getFiles in
  match f !! absolutePath with
  | Some t => ret t
  | None => throw (ErrorObject (lit "FileNotFound"))
  end.

Definition fileExists (absolutePath : str) : M bool :=
  let! f := getFiles in ret (bool_decide (is_Some (f !! absolutePath))).

Definition writeFileSimple (absolutePath : str) (newText : str) (o : WriteOptions)
  : M unit :=
  let! f := getFiles in
  if checkExists o && mustExist o && negb (bool_decide (is_Some (f !! absolutePath)))
  then throw (ErrorObject (lit "FileNotFound"))
  else
    match writeError env absolutePath newText with
    | Some e => throw e
    | None =>
        let! _ := setFiles (<[absolutePath := newText]> f) in
        if skipCacheUpdate o then ret tt else updateCache absolutePath newText
    end.

(** Modelled from the spec (section 4.3, [read]): the cached text when
    the path has an entry, otherwise the text of the store, which is
    then kept in the cache. *)
Definition getFileContent (absolutePath : str) (forceUtf8 : bool) : M str :=
  let! c := getCache in
  match c !! absolutePath with
  | Some t => ret t
  | None =>
      let! t := readFile absolutePath in
      let! _ := setCache (<[absolutePath := t]> c) in
      ret t
  end.

(** Modelled from the spec (section 7): an error of the store is logged
    and turned into a failure envelope with a readable message. *)
Definition handleFileSystemError (err : JsError) (absolutePath operation : str)
  : M Response :=
  let! _ := log error [LText (lit "Error "); LText operation; LText (lit " file: ");
                       LText absolutePath] (Some err) in
  ret (failure (fileSystemErrorMessage env err absolutePath operation)).

(** [createDirectory] of the workspace file system. *)
Definition createDirectory (dir : str) : M unit :=
  match createDirectoryError env dir with
  | Some e => throw e
  | None => ret tt
  end.

(** *** The waiting tasks *)

(** What a task does in its turn.  The callback of the outer timer
    calls [FileCache.updateCache] without awaiting it and schedules the
    inner timer: both wait for a later turn.  The started update
    settles in its own turn; its rejection is handled by the [catch]
    handler, which logs the error and invalidates the entry. *)
Definition runTimer (t : Timer) : M unit :=
  match t with
  | DeferredCacheUpdate tool absolutePath newContent =>
      let! _ := setTimeout (PendingCacheUpdate absolutePath newContent) in
      setTimeout (DeferredOpenInEditor tool absolutePath)
  | DeferredOpenInEditor tool absolutePath => openTab tool absolutePath
  | PendingCacheUpdate absolutePath newContent =>
      tryCatch (updateCache absolutePath newContent)
        (λ err,
           let! _ := log error [LText (lit "Error updating cache for file: ");
                                LText absolutePath] (Some err) in
           invalidate absolutePath)
  end.

(** One turn of the event loop: the waiting task number [i] runs. *)
Definition runTask (i : nat) (w : World) : option (Result unit * World) :=
  match timers w !! i with
  | None => None
  | Some t =>
      Some (runTimer t {| files := files w; cache := cache w;
                          timers := delete i (timers w);
                          logs := logs w; editorTabs := editorTabs w |})
  end.

(** Turns of the event loop, one for each index of [order]; [None] when
    an index names no waiting task or a task throws. *)
Fixpoint runTasks (order : list nat) (w : World) : option World :=
  match order with
  | [] => Some w
  | i :: rest =>
      match runTask i w with
      | Some (Ok _, w') => runTasks rest w'
      | _ => None
      end
  end.

End WithEnv.

End Collaborators.

(** ** The file tools of fileReadWriteTools.ts

    Each tool is a module with the record of its arguments and its
    [execute]; the base class resolves [pathInProject] to the absolute path
    that [execute] receives. *)

(** [Defaults.Limits.maxFileReadCharacters] *)
Definition maxFileReadCharacters : Z := 100000.

(** The options every writing tool passes to [writeFileSimple]. *)
Definition writeOptions (must : bool) : Collaborators.WriteOptions :=
  {| Collaborators.checkExists := true;
     Collaborators.mustExist := must;
     Collaborators.skipCacheUpdate := true |}.

(** Step 3 of every writing tool: [setTimeout] with the callback that
    starts the cache update and schedules the opening of the file. *)
Definition deferCacheUpdate (tool absolutePath newContent : str) : M unit :=
  setTimeout (DeferredCacheUpdate tool absolutePath newContent).

Module GetFileTextByPathTool.
Import Collaborators.

Record Args := { encoding : option str; maxCharacters : option JsNumber }.

(** [s.toLowerCase()] on the letters A to Z. *)
Definition toLowerCase (s : str) : str :=
  map (λ c, let n := nat_of_ascii c in
            if (65 <=? n)%nat && (n <=? 90)%nat then ascii_of_nat (n + 32) else c) s.

(** [encoding && encoding.toLowerCase() !== 'utf-8' &&
     encoding.toLowerCase() !== 'utf8'] *)
Definition unsupportedEncoding (encoding : option str) : bool :=
  match encoding with
  | Some ((_ :: _) as e) =>
      negb (bool_decide (toLowerCase e = lit "utf-8"))
      && negb (bool_decide (toLowerCase e = lit "utf8"))
  | _ => false
  end.

(** [typeof maxCharacters === 'number' && Number.isFinite(maxCharacters)
     && maxCharacters > 0 ? maxCharacters : Defaults...] *)
Definition effectiveMaxCharacters (maxCharacters : option JsNumber) : Q :=
  match maxCharacters with
  | Some (Finite q) => if greater q 0 then q else inject_Z maxFileReadCharacters
  | _ => inject_Z maxFileReadCharacters
  end.

Section WithEnv.
Variable env : Env.

Definition execute (absolutePath : str) (args : Args) : M Response :=
  tryCatch
    (if unsupportedEncoding (encoding args) then
       ret (failure
              (lit "Only 'utf-8' encoding is currently supported for get_file_text_by_path"))
     else
       let! fullText := getFileContent absolutePath true in
       let originalLength := Z.of_nat (length fullText) in
       let effective := effectiveMaxCharacters (maxCharacters args) in
       let truncated :=
         negb (Qeq_bool effective 0)
         && greater (inject_Z (Z.of_nat (length fullText))) effective in
       let newText :=
         if truncated then slice0 fullText (toIntegerOrInfinity effective)
         else fullText in
       let pathInProject := getRelativePath env absolutePath in
       let! _ :=
         log info
           ([LText (lit "Successfully read file content: "); LText absolutePath;
             LText (lit ", size: "); LNumber (Z.of_nat (length newText));
             LText (lit " characters")]
            ++ (if truncated then
                  [LText (lit " (truncated from "); LNumber originalLength;
                   LText (lit " characters)")]
                else [])) None in
       ret {| content := [{| type := text_t; text := Some newText |}];
              isError := Some false;
              structuredContent :=
                Some [(lit "pathInProject", VString pathInProject);
                      (lit "encoding", VString (lit "utf-8"));
                      (lit "content", VString newText);
                      (lit "truncated", VBoolean truncated);
                      (lit "length", VNumber (inject_Z (Z.of_nat (length newText))));
                      (lit "totalLength", VNumber (inject_Z originalLength));
                      (lit "maxCharacters", VNumber effective)] |})
    (λ err, handleFileSystemError env err absolutePath (lit "reading")).

End WithEnv.
End GetFileTextByPathTool.

Module RewriteFileContentTool.
Import Collaborators.

Record Args := { text : str }.

Section WithEnv.
Variable env : Env.

Definition execute (absolutePath : str) (args : Args) : M Response :=
  tryCatch
    (let! _ := writeFileSimple env absolutePath (text args) (writeOptions true) in
     let response :=
       success env
         (VObject [(lit "pathInProject", VString (getRelativePath env absolutePath));
                   (lit "size", VNumber (inject_Z (Z.of_nat (length (text args)))))]) in
     let! _ := deferCacheUpdate (lit "rewrite_file_content") absolutePath (text args) in
     ret response)
    (λ err, handleFileSystemError env err absolutePath (lit "rewriting")).

End WithEnv.
End RewriteFileContentTool.

Module CreateNewFileWithTextTool.
Import Collaborators.

Record Args := { text : str }.

Section WithEnv.
Variable env : Env.

Definition execute (absolutePath : str) (args : Args) : M Response :=
  tryCatch
    (let! _ := createDirectory env (getDirName env absolutePath) in
     let! _ := writeFileSimple env absolutePath (text args) (writeOptions false) in
     let response :=
       success env
         (VObject [(lit "pathInProject", VString (getRelativePath env absolutePath))]) in
     let! _ := deferCacheUpdate (lit "create_new_file_with_text") absolutePath (text args) in
     ret response)
    (λ err, handleFileSystemError env err absolutePath (lit "creating")).

End WithEnv.
End CreateNewFileWithTextTool.

Module ReplaceFileContentAtPositionTool.
Import Collaborators.

(** The line numbers and the offset are taken to be integers. *)
Record Args := { startLine : Z; endLine : Z; content : str; offset : option Z }.

Section WithEnv.
Variable env : Env.

Definition execute (absolutePath : str) (args : Args) : M Response :=
  tryCatch
    (let! currentContent := readFile absolutePath in
     match RangeReplace.transform currentContent (startLine args) (endLine args)
             (content args) (default 0 (offset args)) with
     | RangeReplace.InvalidLineNumbers => ret (failure (lit "Invalid line numbers"))
     | RangeReplace.TypeError =>
         throw (ErrorObject (lit "Cannot read properties of undefined"))
     | RangeReplace.NewContent newContent =>
         let! _ := writeFileSimple env absolutePath newContent (writeOptions true) in
         let response := success env (VScalar (VString (lit "ok"))) in
         let! _ :=
           deferCacheUpdate (lit "replace_file_content_at_position")
             absolutePath newContent in
         ret response
     end)
    (λ err, handleFileSystemError env err absolutePath (lit "replacing content in")).

End WithEnv.
End ReplaceFileContentAtPositionTool.

Module AppendFileContentTool.
Import Collaborators.

Record Args := { content : str }.

Section WithEnv.
Variable env : Env.

Definition execute (absolutePath : str) (args : Args) : M Response :=
  tryCatch
    (let! present := fileExists absolutePath in
     if negb present then ret (failure (lit "File does not exist"))
     else
       let! existingContent := readFile absolutePath in
       let adaptedContent := adaptLineEndings existingContent (content args) in
       let newContent := existingContent ++ adaptedContent in
       let! _ := writeFileSimple env absolutePath newContent (writeOptions true) in
       let response :=
         success env
           (VObject [(lit "pathInProject", VString (getRelativePath env absolutePath));
                     (lit "size", VNumber (inject_Z (Z.of_nat (length newContent))))]) in
       let! _ := deferCacheUpdate (lit "append_file_content") absolutePath newContent in
       ret response)
    (λ err, handleFileSystemError env err absolutePath (lit "appending to")).

End WithEnv.
End AppendFileContentTool.

Module ReplaceSpecificTextTool.
Import Collaborators.

Record Args := { oldText : str; newText : str }.

Section WithEnv.
Variable env : Env.

Definition execute (absolutePath : str) (args : Args) : M Response :=
  tryCatch
    (let! decoded := readFile absolutePath in
     match ReplaceText.transform decoded (oldText args) (newText args) with
     | ReplaceText.SyntaxError =>
         throw (ErrorObject (lit "Invalid regular expression"))
     | ReplaceText.NoOccurrences =>
         let! _ :=
           log error
             [LText (lit "No occurrences of the specified text found in file: ");
              LText absolutePath] None in
         ret (failure (lit "no occurrences found"))
     | ReplaceText.Replaced finalContent replacementCount =>
         let! _ := writeFileSimple env absolutePath finalContent (writeOptions true) in
         let response :=
           success env
             (VObject [(lit "pathInProject", VString (getRelativePath env absolutePath));
                       (lit "replacedCount",
                        VNumber (inject_Z (Z.of_nat replacementCount)))]) in
         let! _ := deferCacheUpdate (lit "replace_specific_text") absolutePath finalContent in
         ret response
     end)
    (λ err,
       let! _ := log error [LText (lit "Error replacing text: ")] (Some err) in
       ret (failure (lit "replacement failed"))).

End WithEnv.
End ReplaceSpecificTextTool.

(** ** The request handler *)

Module RequestHandler.
Import Collaborators.

(** [McpTool]: the schemas play no role in the dispatch and are left out;
    the arguments of [handle] are any value. *)
Record McpTool := {
  name : str;
  description : str;
  title : option str;
  handle : JsValue → M Response;
}.

Record RequestContext := {
  toolName : str;
  params : JsValue;
  method : str;
  path : str;
  cachedResponse : option Response;
}.

Record ResponseContext := { response : Response; statusCode : Z }.

(** The interceptor chain is in interceptors.ts, which is not among the
    sources; the handler uses its two phases, which may change the world
    and may throw. *)
Record InterceptorChain := {
  processBeforeRequest : RequestContext → M (option RequestContext);
  processAfterResponse : RequestContext → ResponseContext → M ResponseContext;
}.

(** The state of one request: the world, the replies written to the HTTP
    response object [res], and the record of the calls of [tool.handle],
    which no tool and no interceptor can reach. *)
Record Request := {
  world : World;
  res : list (Z * Response);
  handled : list (str * JsValue);
}.

Abbreviation H := (ST Request).

Definition lift {A} (m : M A) : H A :=
  λ r, let (x, w') := m (world r) in
       (x, {| world := w'; res := res r; handled := handled r |}).

(** [await tool.handle(params)] *)
Definition callHandle (tool : McpTool) (args : JsValue) : H Response :=
  λ r, lift (handle tool args)
         {| world := world r; res := res r;
            handled := handled r ++ [(name tool, args)] |}.

(** Modelled from the spec: [sendJsonResponse], [sendResponse] and
    [handleServerError] are in responseHandler.ts, which is not among the
    sources.  A reply is a status code with an envelope; by section 4.6
    every error caught by the handler is converted into a failure
    envelope, whose status code and wording the environment fixes. *)
Definition sendJsonResponse (status : Z) (data : Response) : H unit :=
  λ r, (Ok tt, {| world := world r; res := res r ++ [(status, data)];
                  handled := handled r |}).

Definition sendResponse (ctx : ResponseContext) : H unit :=
  sendJsonResponse (statusCode ctx) (response ctx).

(** The request context the handler builds for a call. *)
Definition initialContext (toolName : str) (params : JsValue) (method path : str)
  : RequestContext :=
  {| toolName := toolName; params := params; method := method; path := path;
     cachedResponse := None |}.

(** The world in which the handler of a tool starts: the one the
    before-phase left, with the log entry of the execution. *)
Definition worldAtCall (toolName : str) (w : World) : World :=
  snd (log info [LText (lit "Executing tool: "); LText toolName] None w).

(** [Defaults.Thresholds.slowRequestHandlingMs] *)
Definition slowRequestHandlingMs : Q := 50.

Section WithEnv.
Variable env : Env.
(** [ToolManager.getInstance()]: the registry, a map from names to tools. *)
Variable toolManager : gmap str McpTool.
Variable interceptorChain : InterceptorChain.

Definition handleServerError (err : JsError) (message : str) : H unit :=
  let! _ := lift (log error [LText message] (Some err)) in
  sendJsonResponse (serverErrorStatus env) (failure (serverErrorMessage env err message)).

Definition getToolByName (toolName : str) : option McpTool :=
  toolManager !! toolName.

(** [handleToolExecution]; the durations measured with
    [performance.now()] are those of the environment. *)
Definition handleToolExecution (toolName : str) (params : JsValue)
    (method path : str) : H unit :=
  tryCatch
    (match getToolByName toolName with
     | None =>
         let! _ := lift (log warn [LText (lit "Unknown tool requested: ");
                                   LText toolName] None) in
         sendJsonResponse 404 (failure (lit "Unknown tool: " ++ toolName))
     | Some tool =>
         let requestContext := initialContext toolName params method path in
         let! processedContext :=
           lift (processBeforeRequest interceptorChain requestContext) in
         match processedContext with
         | None =>
             let! _ :=
               lift (log info
                       [LText (lit "Request processing terminated by interceptor for tool: ");
                        LText toolName] None) in
             sendJsonResponse 200 (failure (lit "Request cancelled by interceptor"))
         | Some requestContext =>
             match cachedResponse requestContext with
             | Some cached =>
                 let! _ := lift (log info [LText (lit "Using cached response for tool: ");
                                           LText toolName] None) in
                 let! _ := sendJsonResponse 200 cached in
                 lift (log info [LText (lit "Interceptor chain completed in ");
                                 LFixed2 (totalTime env);
                                 LText (lit "ms (cache hit)")] None)
             | None =>
                 let! _ := lift (log info [LText (lit "Executing tool: ");
                                           LText toolName] None) in
                 let! result := callHandle tool params in
                 let responseContext := {| response := result; statusCode := 200 |} in
                 let! responseContext :=
                   lift (processAfterResponse interceptorChain requestContext
                           responseContext) in
                 let! _ :=
                   if greater (totalTime env) slowRequestHandlingMs then
                     lift (log info
                             [LText (lit "Interceptor chain processing: before=");
                              LFixed2 (beforeTime env); LText (lit "ms, after=");
                              LFixed2 (afterTime env); LText (lit "ms, total=");
                              LFixed2 (totalTime env); LText (lit "ms")] None)
                   else ret tt in
                 sendResponse responseContext
             end
         end
     end)
    (λ err, handleServerError err (lit "Error executing tool " ++ toolName)).

(** [executeToolDirect] *)
Definition executeToolDirect (toolName : str) (args : JsValue) : H Response :=
  match getToolByName toolName with
  | None =>
      let! _ := lift (log warn [LText (lit "Unknown tool requested: ");
                                LText toolName] None) in
      ret (failure (lit "Unknown tool: " ++ toolName))
  | Some tool =>
      tryCatch
        (let! _ := lift (log info [LText (lit "Executing tool: "); LText toolName] None) in
         callHandle tool args)
        (λ err,
           let message :=
             match err with
             | ErrorObject m => m
             | ThrownValue _ => lit "Unknown error"
             end in
           let! _ := lift (log error [LText (lit "Tool execution error: ");
                                      LText toolName] (Some err)) in
           ret (failure message))
  end.

End WithEnv.
End RequestHandler.

(** ** The write-then-defer protocol of the writing tools *)

Module Protocol.
Import Collaborators.

(** The world a writing tool leaves behind when it returns its success
    envelope: the store holds the new content of the path, the cache is
    as it was, and the callback of the deferred cache update for that
    path and content has joined the waiting tasks.  Nothing is logged
    and no editor tab is opened. *)
Definition afterWrite (tool absolutePath newContent : str) (w : World) : World :=
  {| files := <[absolutePath := newContent]> (files w);
     cache := cache w;
     timers := timers w ++ [DeferredCacheUpdate tool absolutePath newContent];
     logs := logs w;
     editorTabs := editorTabs w |}.

Section WithEnv.
Variable env : Env.

(** What a run of a writing tool on the path does, given the content the
    tool is to write and the data of its success envelope ([plan], for
    the worlds in which it is to write at all).  When there is a content
    to write, the tool returns the success envelope and the world is the
    one after the write.  When there is none, the tool returns a failure
    envelope, and the store, the cache and the waiting tasks are as they
    were.  The tool never throws. *)
Definition writeThenDefer (tool absolutePath : str)
    (plan : World → option (str * JsValue)) (execute : M Response) : Prop :=
  ∀ w : World,
    match plan w with
    | Some (newContent, data) =>
        execute w = (Ok (success env data), afterWrite tool absolutePath newContent w)
    | None =>
        ∃ (resp : Response) (w' : World),
          execute w = (Ok resp, w')
          ∧ isError resp = Some true
          ∧ files w' = files w ∧ cache w' = cache w ∧ timers w' = timers w
    end.

(** The store accepts the write of the content under the path. *)
Definition accepted (absolutePath newContent : str) : bool :=
  match writeError env absolutePath newContent with
  | None => true
  | Some _ => false
  end.

(** rewrite_file_content writes the given text over a file that
    exists. *)
Definition rewritePlan (absolutePath : str) (args : RewriteFileContentTool.Args)
    (w : World) : option (str * JsValue) :=
  let text := RewriteFileContentTool.text args in
  match files w !! absolutePath with
  | Some _ =>
      if accepted absolutePath text then
        Some (text,
              VObject [(lit "pathInProject", VString (getRelativePath env absolutePath));
                       (lit "size", VNumber (inject_Z (Z.of_nat (length text))))])
      else None
  | None => None
  end.

(** create_new_file_with_text writes the given text, over an existing
    file too, once the directory could be created. *)
Definition createPlan (absolutePath : str) (args : CreateNewFileWithTextTool.Args)
    (w : World) : option (str * JsValue) :=
  let text := CreateNewFileWithTextTool.text args in
  match createDirectoryError env (getDirName env absolutePath) with
  | Some _ => None
  | None =>
      if accepted absolutePath text then
        Some (text,
              VObject [(lit "pathInProject", VString (getRelativePath env absolutePath))])
      else None
  end.

(** replace_file_content_at_position writes what the range replace
    makes of the text of the file. *)
Definition replaceAtPositionPlan (absolutePath : str)
    (args : ReplaceFileContentAtPositionTool.Args) (w : World)
  : option (str * JsValue) :=
  match files w !! absolutePath with
  | Some currentContent =>
      match RangeReplace.transform currentContent
              (ReplaceFileContentAtPositionTool.startLine args)
              (ReplaceFileContentAtPositionTool.endLine args)
              (ReplaceFileContentAtPositionTool.content args)
              (default 0 (ReplaceFileContentAtPositionTool.offset args)) with
      | RangeReplace.NewContent newContent =>
          if accepted absolutePath newContent then
            Some (newContent, VScalar (VString (lit "ok")))
          else None
      | _ => None
      end
  | None => None
  end.

(** append_file_content writes the text of the file followed by the
    adapted content. *)
Definition appendPlan (absolutePath : str) (args : AppendFileContentTool.Args)
    (w : World) : option (str * JsValue) :=
  match files w !! absolutePath with
  | Some existingContent =>
      let newContent :=
        existingContent
          ++ adaptLineEndings existingContent (AppendFileContentTool.content args) in
      if accepted absolutePath newContent then
        Some (newContent,
              VObject [(lit "pathInProject", VString (getRelativePath env absolutePath));
                       (lit "size", VNumber (inject_Z (Z.of_nat (length newContent))))])
      else None
  | None => None
  end.

(** replace_specific_text writes what the replace-all makes of the text
    of the file, when the old text occurs. *)
Definition replaceSpecificTextPlan (absolutePath : str)
    (args : ReplaceSpecificTextTool.Args) (w : World) : option (str * JsValue) :=
  match files w !! absolutePath with
  | Some decoded =>
      match ReplaceText.transform decoded (ReplaceSpecificTextTool.oldText args)
              (ReplaceSpecificTextTool.newText args) with
      | ReplaceText.Replaced finalContent replacementCount =>
          if accepted absolutePath finalContent then
            Some (finalContent,
                  VObject [(lit "pathInProject",
                            VString (getRelativePath env absolutePath));
                           (lit "replacedCount",
                            VNumber (inject_Z (Z.of_nat replacementCount)))])
          else None
      | _ => None
      end
  | None => None
  end.

End WithEnv.

End Protocol.

(** ** A concrete environment and world, used to run the tools *)

Module Samples.
Import Collaborators.

(** An environment in which no operation fails. *)
Definition env : Env :=
  {| serialize := λ _, lit "{}";
     getRelativePath := λ p, p;
     getDirName := λ p, p;
     writeError := λ _ _, None;
     createDirectoryError := λ _, None;
     updateCacheError := λ _ _, None;
     fileSystemErrorMessage := λ _ _ _, lit "file system error";
     serverErrorStatus := 500;
     serverErrorMessage := λ _ message, message;
     beforeTime := 1 # 4;
     afterTime := 1 # 4;
     totalTime := 3 # 2 |}.

(** The same environment with a cache whose updates fail. *)
Definition envBrokenCache : Env :=
  {| serialize := serialize env;
     getRelativePath := getRelativePath env;
     getDirName := getDirName env;
     writeError := writeError env;
     createDirectoryError := createDirectoryError env;
     updateCacheError := λ _ _, Some (ErrorObject (lit "stat failed"));
     fileSystemErrorMessage := fileSystemErrorMessage env;
     serverErrorStatus := serverErrorStatus env;
     serverErrorMessage := serverErrorMessage env;
     beforeTime := beforeTime env;
     afterTime := afterTime env;
     totalTime := totalTime env |}.

Definition path : str := lit "/w/a.txt".

(** A world whose store holds one file. *)
Definition world (fileContent : str) : World :=
  {| files := {[ path := fileContent ]}; cache := ∅; timers := [];
     logs := []; editorTabs := [] |}.

(** A registry with two tools: one answers, one throws. *)
Definition echo : RequestHandler.McpTool :=
  {| RequestHandler.name := lit "echo";
     RequestHandler.description := lit "answers ok";
     RequestHandler.title := None;
     RequestHandler.handle := λ _, ret (success env (VScalar (VString (lit "ok")))) |}.

Definition broken : RequestHandler.McpTool :=
  {| RequestHandler.name := lit "broken";
     RequestHandler.description := lit "always throws";
     RequestHandler.title := None;
     RequestHandler.handle := λ _, throw (ErrorObject (lit "boom")) |}.

Definition toolManager : gmap str RequestHandler.McpTool :=
  {[ lit "echo" := echo; lit "broken" := broken ]}.

(** A chain that lets every request pass, and one that cancels. *)
Definition passChain : RequestHandler.InterceptorChain :=
  {| RequestHandler.processBeforeRequest := λ ctx, ret (Some ctx);
     RequestHandler.processAfterResponse := λ _ rc, ret rc |}.

Definition cancelChain : RequestHandler.InterceptorChain :=
  {| RequestHandler.processBeforeRequest := λ _, ret None;
     RequestHandler.processAfterResponse := λ _ rc, ret rc |}.

Definition request : RequestHandler.Request :=
  {| RequestHandler.world := world (lit "abc");
     RequestHandler.res := [];
     RequestHandler.handled := [] |}.

End Samples.

(** ** The turns of the event loop after a write *)

Module EventLoop.
Import Collaborators.

(** The cache after the update that a writing tool deferred has settled:
    the entry of the path holds the written content, or is removed when
    the update failed. *)
Definition settledCache (env : Env) (absolutePath newContent : str)
    (c : gmap str str) : gmap str str :=
  match updateCacheError env absolutePath newContent with
  | None => <[absolutePath := newContent]> c
  | Some _ => delete absolutePath c
  end.

(** What the tasks of a writing tool do when no other task waits and no
    request comes in between.  After a success the one waiting task is the
    callback of the outer timer.  Its turn changes neither the store nor
    the cache: it leaves two waiting tasks, the update of the cache and
    the opening of the file.  These two run in either order without
    throwing; the opening leaves the cache alone, so the file can be
    opened while the cache still holds what it held before the write.
    When both have run, no task waits, the store is as the tool left it,
    the cache entry of the path is the written content or is removed,
    and the file is open in an editor tab under the name of the tool. *)
Definition settles (env : Env) (tool absolutePath : str) (execute : M Response) : Prop :=
  ∀ (w w1 : World) (resp : Response),
    timers w = [] →
    execute w = (Ok resp, w1) →
    isError resp = Some false →
    ∃ (newContent : str) (w2 w3 : World),
      files w1 !! absolutePath = Some newContent
      ∧ cache w1 = cache w
      ∧ timers w1 = [DeferredCacheUpdate tool absolutePath newContent]
      ∧ runTask env 0 w1 = Some (Ok tt, w2)
      ∧ files w2 = files w1 ∧ cache w2 = cache w ∧ editorTabs w2 = editorTabs w1
      ∧ timers w2 = [PendingCacheUpdate absolutePath newContent;
                     DeferredOpenInEditor tool absolutePath]
      ∧ runTask env 1 w2 = Some (Ok tt, w3)
      ∧ cache w3 = cache w
      ∧ editorTabs w3 = editorTabs w1 ++ [(absolutePath, tool)]
      ∧ ∀ order : list nat,
          order = [0; 0]%nat ∨ order = [1; 0]%nat →
          ∃ w4,
            runTasks env order w2 = Some w4
            ∧ timers w4 = []
            ∧ files w4 = files w1
            ∧ cache w4 = settledCache env absolutePath newContent (cache w)
            ∧ editorTabs w4 = editorTabs w1 ++ [(absolutePath, tool)].

End EventLoop.

(** ** Further sample environments and interceptor chains *)

Module MoreSamples.
Import Collaborators.

(** The sample environment with a request that takes 120 ms. *)
Definition envSlow : Env :=
  {| serialize := serialize Samples.env;
     getRelativePath := getRelativePath Samples.env;
     getDirName := getDirName Samples.env;
     writeError := writeError Samples.env;
     createDirectoryError := createDirectoryError Samples.env;
     updateCacheError := updateCacheError Samples.env;
     fileSystemErrorMessage := fileSystemErrorMessage Samples.env;
     serverErrorStatus := serverErrorStatus Samples.env;
     serverErrorMessage := serverErrorMessage Samples.env;
     beforeTime := 10;
     afterTime := 5;
     totalTime := 120 |}.

Definition cachedAnswer : Response := success Samples.env (VScalar (VString (lit "cached"))).

(** A chain whose before-phase attaches a cached response, and whose
    after-phase would turn every reply into status 418. *)
Definition cacheHitChain : RequestHandler.InterceptorChain :=
  {| RequestHandler.processBeforeRequest :=
       λ ctx, ret (Some {| RequestHandler.toolName := RequestHandler.toolName ctx;
                           RequestHandler.params := RequestHandler.params ctx;
                           RequestHandler.method := RequestHandler.method ctx;
                           RequestHandler.path := RequestHandler.path ctx;
                           RequestHandler.cachedResponse := Some cachedAnswer |});
     RequestHandler.processAfterResponse :=
       λ _ rc, ret {| RequestHandler.response := RequestHandler.response rc;
                      RequestHandler.statusCode := 418 |} |}.

(** A chain whose before-phase replaces the parameters and whose
    after-phase turns the reply into status 418. *)
Definition rewritingChain : RequestHandler.InterceptorChain :=
  {| RequestHandler.processBeforeRequest :=
       λ ctx, ret (Some {| RequestHandler.toolName := RequestHandler.toolName ctx;
                           RequestHandler.params := VScalar (VString (lit "augmented"));
                           RequestHandler.method := RequestHandler.method ctx;
                           RequestHandler.path := RequestHandler.path ctx;
                           RequestHandler.cachedResponse := None |});
     RequestHandler.processAfterResponse :=
       λ _ rc, ret {| RequestHandler.response := RequestHandler.response rc;
                      RequestHandler.statusCode := 418 |} |}.

(** A chain whose before-phase throws. *)
Definition throwingChain : RequestHandler.InterceptorChain :=
  {| RequestHandler.processBeforeRequest := λ _, throw (ErrorObject (lit "interceptor"));
     RequestHandler.processAfterResponse := λ _ rc, ret rc |}.

(** A tool that answers with its arguments. *)
Definition mirror : RequestHandler.McpTool :=
  {| RequestHandler.name := lit "mirror";
     RequestHandler.description := lit "answers with its arguments";
     RequestHandler.title := None;
     RequestHandler.handle := λ args, ret (success Samples.env args) |}.

Definition toolManager : gmap str RequestHandler.McpTool :=
  {[ lit "mirror" := mirror ]}.

End MoreSamples.

(** ** The list of tools: [RequestHandler.getToolsList] *)

Module ToolsList.

(** The letter case of one character, on the letters A to Z and a to z. *)
Definition lowerChar (c : ascii) : ascii :=
  let n := nat_of_ascii c in
  if (65 <=? n)%nat && (n <=? 90)%nat then ascii_of_nat (n + 32) else c.

Definition upperChar (c : ascii) : ascii :=
  let n := nat_of_ascii c in
  if (97 <=? n)%nat && (n <=? 122)%nat then ascii_of_nat (n - 32) else c.

(** [s.toLowerCase()] and [s.toUpperCase()] *)
Definition toLowerCase (s : str) : str := map lowerChar s.
Definition toUpperCase (s : str) : str := map upperChar s.

(** The two functions follow JavaScript on texts of ASCII characters. *)
Definition isAscii (s : str) : Prop := Forall (λ c, (nat_of_ascii c < 128)%nat) s.

(** [s.split(sep)] for a separator of one character. *)
Fixpoint split (sep : ascii) (s : str) : list str :=
  match s with
  | [] => [[]]
  | c :: r =>
      if decide (c = sep) then [] :: split sep r
      else match split sep r with
           | h :: t => (c :: h) :: t
           | [] => [[c]]
           end
  end.

(** [word.charAt(0).toUpperCase() + word.slice(1).toLowerCase()] *)
Definition capitalize (word : str) : str :=
  toUpperCase (take 1 word) ++ toLowerCase (drop 1 word).

(** [name.split('_').map(word => ...).join(' ')] *)
Definition generatedTitle (name : str) : str :=
  join (lit " ") (map capitalize (split "_"%char name)).

(** A character of the name as the title shows it, letter case apart: an
    underscore is a space. *)
Definition spaced (c : ascii) : ascii :=
  if decide (c = "_"%char) then " "%char else lowerChar c.

Section WithSchema.
(** The schemas and annotations are carried as they are. *)
Variable Schema Annotations : Type.

(** [McpTool] without its handler. *)
Record Tool := {
  name : str;
  description : str;
  inputSchema : Schema;
  outputSchema : option Schema;
  title : option str;
  annotations : option Annotations;
}.

(** An element of the list; [outputSchema] and [annotations] are
    present only when the tool has them. *)
Record ListedTool := {
  listedName : str;
  listedTitle : str;
  listedDescription : str;
  listedInputSchema : Schema;
  listedOutputSchema : option Schema;
  listedAnnotations : option Annotations;
}.

(** [tool.title || generated]: an empty title counts as no title. *)
Definition titleOf (tool : Tool) : str :=
  match title tool with
  | Some ((_ :: _) as t) => t
  | _ => generatedTitle (name tool)
  end.

Definition listTool (tool : Tool) : ListedTool :=
  {| listedName := name tool;
     listedTitle := titleOf tool;
     listedDescription := description tool;
     listedInputSchema := inputSchema tool;
     listedOutputSchema := outputSchema tool;
     listedAnnotations := annotations tool |}.

(** [this.toolManager.getAllTools().map(...)] *)
Definition getToolsList (allTools : list Tool) : list ListedTool :=
  map listTool allTools.

End WithSchema.

End ToolsList.

(** ** ListFilesInFolderTool *)

Module ListFilesInFolderTool.
Import Collaborators.

(** [vscode.FileType]: a bit mask; a symbolic link to a directory has the
    value 66. *)
Definition Unknown : Z := 0.
Definition File : Z := 1.
Definition Directory : Z := 2.
Definition SymbolicLink : Z := 64.

(** The [type] of a listed entry: ['directory'] or ['file']. *)
Inductive EntryType := directory | file.

#[global] Instance EntryType_eq_dec : EqDecision EntryType.
Proof. solve_decision. Defined.

Record Entry := { name : str; type : EntryType; pathInProject : str }.

(** What the tool takes from outside the modelled files: the path check
    of the base class, the workspace file system, the path helpers (which
    may throw), the comparison of names of the locale and the
    serialisation of the result by the response builder. *)
Record Folders := {
  isSafe : str → bool;
  statType : str → Result Z;
  readDirectory : str → Result (list (str * Z));
  relativePathOf : str → str → Result str;
  localeCompare : str → str → Z;
  serializeEntries : list Entry → str;
}.

Section WithFolders.
Variable env : Env.
Variable folders : Folders.

(** The comparison function handed to [result.sort]. *)
Definition compareEntries (a b : Entry) : Z :=
  if decide (type a ≠ type b) then
    match type a with directory => -1 | file => 1 end
  else localeCompare folders (name a) (name b).

(** [result.sort(compare)].  The sort of an array is stable, and for a
    consistent comparison function its result is the one sorted
    arrangement that keeps equal elements in their order; it is
    computed here by insertion from the right. *)
Fixpoint insert (x : Entry) (sorted : list Entry) : list Entry :=
  match sorted with
  | [] => [x]
  | y :: rest =>
      if decide (compareEntries x y ≤ 0) then x :: y :: rest
      else y :: insert x rest
  end.

Fixpoint sort (result : list Entry) : list Entry :=
  match result with
  | [] => []
  | x :: rest => insert x (sort rest)
  end.

(** One turn of the loop over the directory entries: the entry is
    pushed, or skipped with a warning when its path cannot be
    computed. *)
Definition formatEntry (absolutePath : str) (entry : str * Z) : option Entry :=
  match relativePathOf folders absolutePath (fst entry) with
  | Ok entryRelPath =>
      Some {| name := fst entry;
              type := if decide (snd entry = Directory) then directory else file;
              pathInProject := entryRelPath |}
  | Throw _ => None
  end.

Fixpoint formatEntries (absolutePath : str) (entries : list (str * Z))
  : M (list Entry) :=
  match entries with
  | [] => ret []
  | entry :: rest =>
      match relativePathOf folders absolutePath (fst entry) with
      | Ok entryRelPath =>
          let! result := formatEntries absolutePath rest in
          ret ({| name := fst entry;
                  type := if decide (snd entry = Directory) then directory else file;
                  pathInProject := entryRelPath |} :: result)
      | Throw entryErr =>
          let! _ := log warn [LText (lit "Error processing entry: ");
                              LText (fst entry)] (Some entryErr) in
          formatEntries absolutePath rest
      end
  end.

(** Modelled from the spec: [responseHandler.success] on the array of
    entries, one text item with the serialised array. *)
Definition listed (result : list Entry) : Response :=
  {| content := [{| Runtime.type := text_t;
                    text := Some (serializeEntries folders result) |}];
     isError := Some false;
     structuredContent := None |}.

Definition liftResult {A} (r : Result A) : M A :=
  match r with
  | Ok a => ret a
  | Throw e => throw e
  end.

Definition execute (absolutePath : str) : M Response :=
  tryCatch
    (if negb (isSafe folders absolutePath) then
       ret (failure (lit "Path is outside project directory"))
     else
       let! statType := liftResult (statType folders absolutePath) in
       if decide (statType ≠ Directory) then
         let! _ := log warn [LText (lit "Path is not a directory: ");
                             LText absolutePath] None in
         ret (failure (lit "Path is not a directory: " ++ absolutePath))
       else
         let! entries := liftResult (readDirectory folders absolutePath) in
         let! result := formatEntries absolutePath entries in
         ret (listed (sort result)))
    (λ err, handleFileSystemError env err absolutePath (lit "listing")).

End WithFolders.

(** A comparison function is consistent when it orders the names: any two
    names are comparable and the order is transitive. *)
Definition consistent (compare : str → str → Z) : Prop :=
  (∀ a b, compare a b ≤ 0 ∨ compare b a ≤ 0)
  ∧ (∀ a b c, compare a b ≤ 0 → compare b c ≤ 0 → compare a c ≤ 0).

(** Sample folders: names are compared by their length. *)
Definition sampleFolders : Folders :=
  {| isSafe := λ _, true;
     statType := λ _, Ok Directory;
     readDirectory :=
       λ _, Ok [(lit "b.txt", File); (lit "src", Directory); (lit "link", 66);
                (lit "a", Directory)];
     relativePathOf := λ dir entryName, Ok (dir ++ lit "/" ++ entryName);
     localeCompare := λ a b, Z.of_nat (length a) - Z.of_nat (length b);
     serializeEntries := λ _, lit "[]" |}.

End ListFilesInFolderTool.
(** ** Facts about the string primitives *)

Module JsFacts.

Lemma take_min_length {A} (n : nat) (s : list A) :
  take (Nat.min n (length s)) s = take n s.
Proof.
  destruct (Nat.le_ge_cases n (length s)) as [H|H].
  - by rewrite Nat.min_l.
  - rewrite Nat.min_r by done. by rewrite !take_ge.
Qed.

Lemma drop_min_length {A} (n : nat) (s : list A) :
  drop (Nat.min n (length s)) s = drop n s.
Proof.
  destruct (Nat.le_ge_cases n (length s)) as [H|H].
  - by rewrite Nat.min_l.
  - rewrite Nat.min_r by done. by rewrite !drop_ge.
Qed.

Lemma substring_0 (s : str) (b : Z) : substring s 0 b = take (Z.to_nat b) s.
Proof.
  unfold substring, clampIndex. simpl Z.to_nat.
  rewrite Nat.min_0_l, Nat.min_0_l, Nat.max_0_l, Nat.sub_0_r. simpl drop.
  apply take_min_length.
Qed.

Lemma substringFrom_drop (s : str) (a : Z) : substringFrom s a = drop (Z.to_nat a) s.
Proof.
  unfold substringFrom, substring, clampIndex.
  rewrite Nat2Z.id, Nat.min_id.
  rewrite (Nat.min_l (Nat.min _ _) (length s)) by lia.
  rewrite (Nat.max_r (Nat.min _ _) (length s)) by lia.
  rewrite take_ge by (rewrite length_drop; lia).
  apply drop_min_length.
Qed.

Lemma slice0_take (s : str) (n : Z) : slice0 s n = take (Z.to_nat n) s.
Proof. apply take_min_length. Qed.

(** *** Searching *)

Lemma startsWith_prefix (p s : str) :
  startsWith p s = true ↔ ∃ rest, s = p ++ rest.
Proof.
  revert s. induction p as [|a p IH]; intros s; simpl.
  - split; [eauto|done].
  - destruct s as [|b s].
    + split; [done|]. by intros [rest Hrest].
    + destruct (decide (a = b)) as [->|Hne].
      * rewrite IH. split; intros [rest Hrest]; exists rest; congruence.
      * split; [done|]. intros [rest Hrest]. congruence.
Qed.

(** [includes] finds exactly the substrings. *)
Lemma includes_substring (p s : str) :
  includes p s = true ↔ ∃ before after, s = before ++ p ++ after.
Proof.
  induction s as [|c s IH].
  - simpl. rewrite orb_false_r, startsWith_prefix. split.
    + intros [rest ->]. by exists [], rest.
    + intros ([|? before] & after & Heq); [eauto|done].
  - change (includes p (c :: s)) with (startsWith p (c :: s) || includes p s).
    rewrite orb_true_iff, IH, startsWith_prefix. split.
    + intros [[rest Hrest]|(before & after & ->)].
      * by exists [], rest.
      * by exists (c :: before), after.
    + intros ([|c' before] & after & Heq).
      * left. by exists after.
      * right. exists before, after. simpl in Heq. congruence.
Qed.

(** *** CRLF detection *)

Lemma includes_CRLF_cons (c : ascii) (s : str) :
  includes CRLF (c :: s) = startsWith CRLF (c :: s) || includes CRLF s.
Proof. reflexivity. Qed.

Lemma includes_CRLF_noLF (s : str) : LF ∉ s → includes CRLF s = false.
Proof.
  induction s as [|c s IH]; [done|]. intros [Hc Hs]%not_elem_of_cons.
  rewrite includes_CRLF_cons, IH by done. rewrite orb_false_r.
  simpl. destruct (decide (CR = c)); [|done]. destruct s as [|d s]; [done|].
  destruct (decide (LF = d)); [|done]. subst.
  by apply not_elem_of_cons in Hs as [? _].
Qed.

Lemma replaceCRLF_unfold (c : ascii) (s : str) :
  replaceCRLF (c :: s) =
    if startsWith CRLF (c :: s) then LF :: replaceCRLF (drop 1 s)
    else c :: replaceCRLF s.
Proof.
  destruct s as [|d s].
  - simpl. by destruct (decide (CR = c)).
  - change (replaceCRLF (c :: d :: s)) with
      (if decide (c = CR) then
         if decide (d = LF) then LF :: replaceCRLF s else c :: replaceCRLF (d :: s)
       else c :: replaceCRLF (d :: s)).
    change (startsWith CRLF (c :: d :: s)) with
      (if decide (CR = c) then if decide (LF = d) then true else false else false).
    cbn [drop].
    destruct (decide (c = CR)), (decide (CR = c)), (decide (d = LF)), (decide (LF = d));
      first [done | congruence].
Qed.

Lemma replaceCRLF_id (s : str) : includes CRLF s = false → replaceCRLF s = s.
Proof.
  induction s as [|c s IH]; [done|].
  rewrite includes_CRLF_cons, replaceCRLF_unfold.
  intros [H1 H2]%orb_false_elim. rewrite H1. by rewrite IH.
Qed.

Lemma replaceCRLF_noLF (s : str) : LF ∉ s → replaceCRLF s = s.
Proof. intros. by apply replaceCRLF_id, includes_CRLF_noLF. Qed.


(** *** Splitting and joining lines *)

Lemma splitLF_length (s : str) : (1 <= length (splitLF s))%nat.
Proof.
  induction s as [|c s IH]; simpl; [lia|].
  case_decide; simpl; [lia|]. destruct (splitLF s); simpl in *; lia.
Qed.

Lemma splitLF_noLF (s : str) : Forall (λ l, LF ∉ l) (splitLF s).
Proof.
  induction s as [|c s IH]; simpl.
  - repeat constructor. apply not_elem_of_nil.
  - case_decide.
    + constructor; [apply not_elem_of_nil|done].
    + destruct (splitLF s) as [|h t].
      * repeat constructor. apply not_elem_of_cons. split; [done|apply not_elem_of_nil].
      * inversion IH; subst. constructor; [|done]. by apply not_elem_of_cons.
Qed.

Lemma splitLF_app_LF (l rest : str) :
  LF ∉ l → splitLF (l ++ LF :: rest) = l :: splitLF rest.
Proof.
  induction l as [|c l IH]; intros Hn; simpl.
  - done.
  - apply not_elem_of_cons in Hn as [Hc Hl].
    rewrite decide_False by done. by rewrite IH.
Qed.

Lemma splitLF_line (l : str) : LF ∉ l → splitLF l = [l].
Proof.
  induction l as [|c l IH]; intros Hn; simpl; [done|].
  apply not_elem_of_cons in Hn as [Hc Hl].
  rewrite decide_False by done. by rewrite IH.
Qed.

Lemma splitLF_join (ls : list str) :
  Forall (λ l, LF ∉ l) ls → ls ≠ [] → splitLF (join [LF] ls) = ls.
Proof.
  induction ls as [|l ls IH]; [done|]. intros Hall _.
  inversion Hall as [|? ? Hl Hls]; subst.
  destruct ls as [|l' ls]; simpl join.
  - by apply splitLF_line.
  - rewrite splitLF_app_LF by done. f_equal. by apply IH.
Qed.

Lemma join_splitLF (s : str) : join [LF] (splitLF s) = s.
Proof.
  induction s as [|c s IH]; [done|]. simpl splitLF.
  case_decide; subst.
  - pose proof (splitLF_length s). destruct (splitLF s) eqn:E; simpl in *; [lia|].
    by rewrite <- IH.
  - pose proof (splitLF_length s). destruct (splitLF s) as [|h t] eqn:E; simpl in *; [lia|].
    rewrite <- IH. by destruct t.
Qed.

Lemma replaceCRLF_app_CRLF (l rest : str) :
  LF ∉ l → replaceCRLF (l ++ CRLF ++ rest) = l ++ LF :: replaceCRLF rest.
Proof.
  induction l as [|c l IH]; intros Hn.
  - done.
  - change ((c :: l) ++ CRLF ++ rest) with (c :: (l ++ CRLF ++ rest)).
    apply not_elem_of_cons in Hn as [Hc Hl].
    rewrite replaceCRLF_unfold.
    assert (startsWith CRLF (c :: l ++ CRLF ++ rest) = false) as ->.
    { simpl. destruct (decide (CR = c)); [|done]. destruct l as [|d l]; simpl.
      - done.
      - apply not_elem_of_cons in Hl as [Hd _]. by rewrite decide_False. }
    by rewrite IH.
Qed.

Lemma replaceCRLF_join_CRLF (ls : list str) :
  Forall (λ l, LF ∉ l) ls → replaceCRLF (join CRLF ls) = join [LF] ls.
Proof.
  induction ls as [|l ls IH]; [done|]. intros Hall.
  inversion Hall as [|? ? Hl Hls]; subst.
  destruct ls as [|l' ls]; simpl join.
  - by apply replaceCRLF_noLF.
  - change (l ++ CR :: LF :: ?x) with (l ++ CRLF ++ x).
    rewrite replaceCRLF_app_CRLF by done. simpl. f_equal. f_equal. by apply IH.
Qed.

Lemma includes_CRLF_app_CRLF (l rest : str) : includes CRLF (l ++ CRLF ++ rest) = true.
Proof.
  induction l as [|c l IH].
  - done.
  - change ((c :: l) ++ CRLF ++ rest) with (c :: (l ++ CRLF ++ rest)).
    rewrite includes_CRLF_cons, IH. apply orb_true_r.
Qed.

Lemma includes_CRLF_join_CRLF (ls : list str) :
  (2 <= length ls)%nat → includes CRLF (join CRLF ls) = true.
Proof.
  destruct ls as [|l [|l' ls]]; simpl length; try lia. intros _.
  simpl join. apply (includes_CRLF_app_CRLF l).
Qed.

Lemma replaceCRLF_has_LF (s : str) : includes CRLF s = true → LF ∈ replaceCRLF s.
Proof.
  induction s as [|c s IH]; [done|].
  rewrite includes_CRLF_cons, replaceCRLF_unfold.
  destruct (startsWith CRLF (c :: s)); [intros _; apply list_elem_of_here|].
  simpl. intros H. apply list_elem_of_further. by apply IH.
Qed.

Lemma splitLF_has_LF (s : str) : LF ∈ s → (2 <= length (splitLF s))%nat.
Proof.
  induction s as [|c s IH]; [by intros ?%elem_of_nil|]. intros Hin. simpl.
  case_decide.
  - pose proof (splitLF_length s). simpl. lia.
  - assert (LF ∈ s) as Hs by (apply elem_of_cons in Hin as [?|?]; congruence).
    specialize (IH Hs).
    destruct (splitLF s); simpl in *; lia.
Qed.


(** *** Where a CRLF can appear in LF-joined lines *)

Lemma includes_CRLF_app_LF (l rest : str) :
  includes CRLF (l ++ LF :: rest) =
    includes CRLF l || endsWithCR l || includes CRLF rest.
Proof.
  induction l as [|c l IH].
  - done.
  - change ((c :: l) ++ LF :: rest) with (c :: (l ++ LF :: rest)).
    rewrite !includes_CRLF_cons, IH.
    destruct l as [|d l].
    + simpl. unfold endsWithCR. simpl.
      destruct (decide (CR = c)) as [<-|Hc].
      * by rewrite bool_decide_eq_true_2.
      * rewrite bool_decide_eq_false_2; [done|congruence].
    + assert (endsWithCR (c :: d :: l) = endsWithCR (d :: l)) as -> by done.
      assert (startsWith CRLF (c :: (d :: l) ++ LF :: rest)
              = startsWith CRLF (c :: d :: l)) as ->.
      { simpl. destruct (decide (CR = c)); [|done]. by destruct (decide (LF = d)). }
      by rewrite !orb_assoc.
Qed.

Lemma includes_CRLF_join_LF (ls : list str) :
  includes CRLF (join [LF] ls) = negb (joinNoCRLF ls).
Proof.
  induction ls as [|l ls IH]; [done|].
  destruct ls as [|l' ls].
  - simpl. by rewrite negb_involutive.
  - change (join [LF] (l :: l' :: ls)) with (l ++ LF :: join [LF] (l' :: ls)).
    rewrite includes_CRLF_app_LF, IH.
    change (joinNoCRLF (l :: l' :: ls)) with
      (negb (includes CRLF l) && negb (endsWithCR l) && joinNoCRLF (l' :: ls)).
    by rewrite !negb_andb, !negb_involutive.
Qed.

Lemma joinNoCRLF_insert (ls : list str) (i : nat) (l l' : str) :
  ls !! i = Some l →
  includes CRLF l' = false →
  (endsWithCR l' = true → endsWithCR l = true) →
  joinNoCRLF ls = true →
  joinNoCRLF (<[i:=l']> ls) = true.
Proof.
  revert i. induction ls as [|a ls IH]; intros i Hi Hin Hend; [done|].
  destruct i as [|i]; simpl in Hi.
  - injection Hi as ->. destruct ls as [|b ls]; simpl.
    + by rewrite Hin.
    + rewrite Hin. simpl. intros [[_ H2]%andb_true_iff H3]%andb_true_iff.
      rewrite H3, andb_true_r. destruct (endsWithCR l') eqn:E; [|done].
      rewrite Hend in H2 by done. done.
  - destruct ls as [|b ls]; [done|].
    change (<[S i:=l']> (a :: b :: ls)) with (a :: <[i:=l']> (b :: ls)).
    pose proof (length_insert (b :: ls) i l') as Hlen.
    destruct (<[i:=l']> (b :: ls)) as [|b' ls'] eqn:E; [done|].
    change (joinNoCRLF (a :: b :: ls)) with
      (negb (includes CRLF a) && negb (endsWithCR a) && joinNoCRLF (b :: ls)).
    change (joinNoCRLF (a :: b' :: ls')) with
      (negb (includes CRLF a) && negb (endsWithCR a) && joinNoCRLF (b' :: ls')).
    intros [H1 H2]%andb_true_iff. rewrite H1, andb_true_l.
    rewrite <- E. by apply IH.
Qed.

(** *** Overwriting inside one line *)

Lemma overwrite_twice (line r : str) (o : nat) :
  (o <= length line)%nat → overwrite (overwrite line r o) r o = overwrite line r o.
Proof.
  intros Ho. unfold overwrite at 1 3.
  assert (length (take o line) = o) as Hlen by (rewrite length_take; lia).
  f_equal; [|f_equal].
  - unfold overwrite. rewrite take_app_le by lia. rewrite take_take. f_equal. lia.
  - unfold overwrite. rewrite app_assoc.
    rewrite drop_app_length'; [done|]. rewrite length_app. lia.
Qed.

Lemma last_drop_lt {A} (l : list A) (k : nat) :
  (k < length l)%nat → last (drop k l) = last l.
Proof.
  intros Hk. rewrite <- (take_drop k l) at 2. rewrite last_app.
  destruct (last (drop k l)) eqn:E; [done|].
  apply last_None in E. apply (f_equal length) in E. rewrite length_drop in E.
  simpl in E. lia.
Qed.

Lemma overwrite_endsWithCR (line r : str) (o : nat) :
  (o <= length line)%nat → CR ∉ r →
  endsWithCR (overwrite line r o) = true → endsWithCR line = true.
Proof.
  intros Ho Hr. unfold endsWithCR, overwrite.
  rewrite !bool_decide_eq_true.
  destruct (decide (o + length r < length line)%nat) as [Hlt|Hge].
  - rewrite app_assoc, last_app, last_drop_lt by done.
    destruct (last line) eqn:E; [done|].
    apply last_None in E. subst. simpl in Hlt. lia.
  - rewrite drop_ge by lia. rewrite app_nil_r.
    destruct r as [|c r].
    + rewrite app_nil_r. rewrite take_ge; [done|]. simpl in Hge. lia.
    + rewrite last_app. destruct (last (c :: r)) as [x|] eqn:E.
      * intros [= ->]. apply last_Some in E as [r' E].
        exfalso. apply Hr. rewrite E. apply elem_of_app. right. apply list_elem_of_here.
      * by apply last_None in E.
Qed.

Lemma overwrite_noLF (line r : str) (o : nat) :
  LF ∉ line → LF ∉ r → LF ∉ overwrite line r o.
Proof.
  intros Hl Hr. unfold overwrite. rewrite !elem_of_app.
  intros [H|[H|H]]; [|done|].
  - apply Hl. by eapply (subseteq_take o line).
  - apply Hl. by eapply (subseteq_drop (o + length r) line).
Qed.

(** *** Bare line feeds *)

Lemma bareLF_noLF (b : bool) (l : str) : LF ∉ l → bareLF b l = false.
Proof.
  revert b. induction l as [|c l IH]; intros b; [done|].
  intros [Hc Hl]%not_elem_of_cons. simpl.
  rewrite bool_decide_eq_false_2 by done. by rewrite IH.
Qed.

Lemma bareLF_app_CRLF (b : bool) (l rest : str) :
  LF ∉ l → bareLF b (l ++ CRLF ++ rest) = bareLF false rest.
Proof.
  revert b. induction l as [|c l IH]; intros b.
  - done.
  - intros [Hc Hl]%not_elem_of_cons.
    change ((c :: l) ++ CRLF ++ rest) with (c :: (l ++ CRLF ++ rest)).
    simpl bareLF. rewrite bool_decide_eq_false_2 by done. by rewrite IH.
Qed.

Lemma bareLF_join_CRLF (ls : list str) :
  Forall (λ l, LF ∉ l) ls → bareLF false (join CRLF ls) = false.
Proof.
  induction ls as [|l ls IH]; [done|]. intros Hall.
  inversion Hall as [|? ? Hl Hls]; subst.
  destruct ls as [|l' ls]; simpl join.
  - by apply bareLF_noLF.
  - change (l ++ CR :: LF :: ?x) with (l ++ CRLF ++ x).
    rewrite bareLF_app_CRLF by done. by apply IH.
Qed.


(** *** Rewriting line endings *)

Lemma replaceCRLForCR_unfold (c : ascii) (s : str) :
  replaceCRLForCR (c :: s) =
    if decide (c = CR) then
      LF :: replaceCRLForCR (if startsWith [LF] s then drop 1 s else s)
    else c :: replaceCRLForCR s.
Proof.
  simpl. destruct (decide (c = CR)); [|done].
  destruct s as [|d s]; [done|]. simpl.
  destruct (decide (d = LF)) as [->|Hd].
  - done.
  - destruct (decide (LF = d)) as [Heq|_]; [by symmetry in Heq|done].
Qed.

Lemma replaceCRLForCR_noCR_aux (n : nat) (s : str) :
  (length s <= n)%nat → CR ∉ replaceCRLForCR s.
Proof.
  revert s. induction n as [|n IH]; intros s Hlen.
  - destruct s; [apply not_elem_of_nil|simpl in Hlen; lia].
  - destruct s as [|c s]; [apply not_elem_of_nil|].
    rewrite replaceCRLForCR_unfold. simpl in Hlen.
    destruct (decide (c = CR)).
    + apply not_elem_of_cons. split; [done|]. apply IH.
      destruct (startsWith [LF] s); [rewrite length_drop|]; lia.
    + apply not_elem_of_cons. split; [done|]. apply IH. lia.
Qed.

Lemma replaceCRLForCR_noCR (s : str) : CR ∉ replaceCRLForCR s.
Proof. by apply (replaceCRLForCR_noCR_aux (length s)). Qed.

Lemma replaceLF_LF (s : str) : replaceLF [LF] s = s.
Proof.
  induction s as [|c s IH]; [done|]. simpl.
  destruct (decide (c = LF)) as [->|]; by rewrite IH.
Qed.

Lemma bareLF_replaceLF_CRLF (b : bool) (s : str) : bareLF b (replaceLF CRLF s) = false.
Proof.
  revert b. induction s as [|c s IH]; intros b; [done|]. simpl.
  destruct (decide (c = LF)) as [->|Hc].
  - simpl. apply IH.
  - simpl. rewrite bool_decide_eq_false_2 by done. apply IH.
Qed.

(** Joining the lines of a text with a line ending is replacing each of
    its LF by that line ending. *)
Lemma join_splitLF_replaceLF (le s : str) : join le (splitLF s) = replaceLF le s.
Proof.
  induction s as [|c s IH]; [done|]. simpl.
  pose proof (splitLF_length s) as Hne.
  destruct (decide (c = LF)) as [->|Hc].
  - destruct (splitLF s) as [|h t] eqn:E; [simpl in Hne; lia|].
    rewrite <- IH. done.
  - destruct (splitLF s) as [|h t] eqn:E; [simpl in Hne; lia|].
    rewrite <- IH. by destruct t.
Qed.

Lemma replaceLF_CRLF_head (t : str) : startsWith [LF] (replaceLF CRLF t) = false.
Proof.
  destruct t as [|c t]; [done|]. simpl.
  destruct (decide (c = LF)) as [->|Hc]; [done|].
  simpl. destruct (decide (LF = c)) as [<-|]; done.
Qed.

(** Normalising undoes the rewriting of every LF to CRLF. *)
Lemma replaceCRLF_replaceLF_CRLF (t : str) : replaceCRLF (replaceLF CRLF t) = t.
Proof.
  induction t as [|c t IH]; [done|].
  cbn [replaceLF]. destruct (decide (c = LF)) as [->|Hc].
  - change (CRLF ++ replaceLF CRLF t) with (CR :: LF :: replaceLF CRLF t).
    rewrite replaceCRLF_unfold. change (startsWith CRLF (CR :: LF :: replaceLF CRLF t))
      with true.
    change (drop 1 (LF :: replaceLF CRLF t)) with (replaceLF CRLF t). by rewrite IH.
  - rewrite replaceCRLF_unfold.
    assert (startsWith CRLF (c :: replaceLF CRLF t) = false) as ->.
    { pose proof (replaceLF_CRLF_head t) as Hh.
      destruct (replaceLF CRLF t) as [|d r]; simpl.
      - by destruct (decide (CR = c)).
      - destruct (decide (CR = c)); [|done]. simpl in Hh.
        destruct (decide (LF = d)); [done|done]. }
    by rewrite IH.
Qed.

Lemma replaceCRLForCR_id (s : str) : CR ∉ s → replaceCRLForCR s = s.
Proof.
  induction s as [|c s IH]; [done|]. intros [Hc Hs]%not_elem_of_cons.
  rewrite replaceCRLForCR_unfold, decide_False by done. by rewrite IH.
Qed.

(** A text without CR is given back by rewriting its LF to CRLF and
    normalising. *)
Lemma replaceCRLForCR_replaceLF_CRLF (s : str) :
  CR ∉ s → replaceCRLForCR (replaceLF CRLF s) = s.
Proof.
  induction s as [|c s IH]; [done|]. intros [Hc Hs]%not_elem_of_cons.
  cbn [replaceLF]. destruct (decide (c = LF)) as [->|HLF].
  - change (CRLF ++ replaceLF CRLF s) with (CR :: LF :: replaceLF CRLF s).
    rewrite replaceCRLForCR_unfold, decide_True by done.
    change (startsWith [LF] (LF :: replaceLF CRLF s)) with true. cbv iota.
    change (drop 1 (LF :: replaceLF CRLF s)) with (replaceLF CRLF s). by rewrite IH.
  - rewrite replaceCRLForCR_unfold, decide_False by done. by rewrite IH.
Qed.

(** In a text whose LF were rewritten to CRLF, and which held no CR
    before, every CR is followed by an LF. *)
Lemma bareCR_replaceLF_CRLF (s : str) : CR ∉ s → bareCR (replaceLF CRLF s) = false.
Proof.
  induction s as [|c s IH]; [done|]. intros [Hc Hs]%not_elem_of_cons.
  cbn [replaceLF]. destruct (decide (c = LF)) as [->|HLF].
  - change (CRLF ++ replaceLF CRLF s) with (CR :: LF :: replaceLF CRLF s).
    cbn [bareCR]. change (startsWith [LF] (LF :: replaceLF CRLF s)) with true.
    rewrite andb_false_r. cbn [orb].
    rewrite (bool_decide_eq_false_2 (LF = CR)) by done. cbn [andb orb]. by apply IH.
  - cbn [bareCR]. rewrite (bool_decide_eq_false_2 (c = CR)) by done.
    cbn [andb orb]. by apply IH.
Qed.

(** *** Numbers with a fractional part *)

Lemma greater_true (x y : Q) : greater x y = true ↔ (y < x)%Q.
Proof.
  unfold greater. destruct (Qlt_le_dec y x) as [Hlt|Hle]; [done|].
  split; [done|]. intros Hlt. exfalso. by apply (Qle_not_lt x y).
Qed.

Lemma greater_false (x y : Q) : greater x y = false ↔ (x <= y)%Q.
Proof.
  unfold greater. destruct (Qlt_le_dec y x) as [Hlt|Hle]; [|done].
  split; [done|]. intros Hle. exfalso. by apply (Qle_not_lt x y).
Qed.

(** Dropping the fractional part of a number that is not negative gives
    the greatest integer below it. *)
Lemma toIntegerOrInfinity_floor (q : Q) : (0 <= q)%Q → toIntegerOrInfinity q = Qfloor q.
Proof.
  destruct q as [n d]. unfold Qle, toIntegerOrInfinity, Qfloor. cbn [Qnum Qden].
  intros Hn. apply Z.quot_div_nonneg; lia.
Qed.

Lemma toIntegerOrInfinity_inject_Z (z : Z) : toIntegerOrInfinity (inject_Z z) = z.
Proof. unfold toIntegerOrInfinity, inject_Z. cbn [Qnum Qden]. apply Z.quot_1_r. Qed.

End JsFacts.


(** ** Properties of range replace *)

Module RangeReplaceFacts.
Import RangeReplace JsFacts.

(** The single-line branch, with [substring] unfolded to [take]/[drop]. *)
Lemma transform_single (currentContent : str) (n : Z) (content : str)
    (offset : Z) (line : str) :
  1 ≤ n →
  splitLF (replaceCRLF currentContent) !! Z.to_nat (n - 1) = Some line →
  transform currentContent n n content offset =
    NewContent
      (join (originalLineEnding currentContent)
         (<[Z.to_nat (n - 1) :=
              take (Z.to_nat offset) line ++ replaceCRLF content
                ++ drop (Z.to_nat (offset + Z.of_nat (length (replaceCRLF content)))) line]>
            (splitLF (replaceCRLF currentContent)))).
Proof.
  intros Hn Hline. unfold transform.
  pose proof (lookup_lt_Some _ _ _ Hline) as Hlt.
  rewrite decide_False by lia. rewrite decide_True by done.
  rewrite Hline. by rewrite substring_0, substringFrom_drop.
Qed.

Lemma transform_invalid (currentContent : str) (startLine endLine : Z)
    (content : str) (offset : Z) :
  startLine < 1 ∨ endLine > Z.of_nat (length (splitLF (replaceCRLF currentContent)))
    ∨ startLine > endLine →
  transform currentContent startLine endLine content offset = InvalidLineNumbers.
Proof. intros H. unfold transform. by rewrite decide_True. Qed.

Lemma transform_valid (currentContent : str) (startLine endLine : Z)
    (content : str) (offset : Z) :
  1 ≤ startLine ≤ endLine →
  endLine ≤ Z.of_nat (length (splitLF (replaceCRLF currentContent))) →
  ∃ newContent,
    transform currentContent startLine endLine content offset = NewContent newContent.
Proof.
  intros H1 H2. unfold transform. rewrite decide_False by lia.
  case_decide; [|eauto].
  destruct (lookup_lt_is_Some_2 (splitLF (replaceCRLF currentContent))
              (Z.to_nat (startLine - 1))) as [l ->]; [lia|eauto].
Qed.

(** Re-reading a file that was joined from LF-free lines gives the lines
    and the line ending back. *)
Lemma reread_lines (currentContent : str) (ls : list str) :
  length ls = length (splitLF (replaceCRLF currentContent)) →
  Forall (λ l, LF ∉ l) ls →
  (includes CRLF currentContent = false → joinNoCRLF ls = true) →
  let newContent := join (originalLineEnding currentContent) ls in
  originalLineEnding newContent = originalLineEnding currentContent
  ∧ splitLF (replaceCRLF newContent) = ls.
Proof.
  intros Hlen Hall Hno. cbv zeta. unfold originalLineEnding at 2 3 4.
  assert (ls ≠ []) as Hne.
  { pose proof (splitLF_length (replaceCRLF currentContent)).
    intros ->. simpl in Hlen. lia. }
  destruct (includes CRLF currentContent) eqn:E.
  - assert (2 <= length ls)%nat as H2.
    { rewrite Hlen. by apply splitLF_has_LF, replaceCRLF_has_LF. }
    unfold originalLineEnding. rewrite includes_CRLF_join_CRLF by done.
    split; [done|]. rewrite replaceCRLF_join_CRLF by done. by apply splitLF_join.
  - assert (includes CRLF (join [LF] ls) = false) as Hj.
    { rewrite includes_CRLF_join_LF, Hno; done. }
    unfold originalLineEnding. rewrite Hj. split; [done|].
    rewrite replaceCRLF_id by done. by apply splitLF_join.
Qed.


(** C2. Single-line range replace is a positional overwrite.  For an
    in-bounds line number [n] (with [startLine = endLine = n]), any offset
    and any replacement, the line is set to its first [offset] characters,
    followed by the replacement [r] (normalised to LF), followed by the
    characters of the original line from index [offset + length r] on, and
    the lines are joined again with the detected line ending.  The
    replacement is the argument itself when it holds no CRLF.  For a
    non-negative offset every character of the result at an index past
    the overwritten window is the character the original line has at that
    same index: a short replacement does not shift the tail to the left. *)
Theorem single_line_overwrite (currentContent : str) (n : Z) (content : str)
    (offset : Z) :
  1 ≤ n ≤ Z.of_nat (length (splitLF (replaceCRLF currentContent))) →
  ∃ line newLine r,
    splitLF (replaceCRLF currentContent) !! Z.to_nat (n - 1) = Some line
    ∧ r = replaceCRLF content
    ∧ (includes CRLF content = false → r = content)
    ∧ newLine = take (Z.to_nat offset) line ++ r
                  ++ drop (Z.to_nat (offset + Z.of_nat (length r))) line
    ∧ transform currentContent n n content offset =
        NewContent (join (originalLineEnding currentContent)
                      (<[Z.to_nat (n - 1) := newLine]>
                         (splitLF (replaceCRLF currentContent))))
    ∧ (0 ≤ offset →
       ∀ j : nat, (Z.to_nat offset + length r <= j)%nat → newLine !! j = line !! j).
Proof.
  intros Hn.
  destruct (lookup_lt_is_Some_2 (splitLF (replaceCRLF currentContent))
              (Z.to_nat (n - 1))) as [line Hline]; [lia|].
  eexists line, _, _. split; [done|]. split; [reflexivity|].
  split; [apply replaceCRLF_id|]. split; [reflexivity|].
  split; [apply transform_single; [lia|done]|].
  intros Hoff j Hj.
  set (r := replaceCRLF content) in *.
  replace (Z.to_nat (offset + Z.of_nat (length r))) with (Z.to_nat offset + length r)%nat
    by lia.
  destruct (decide (Z.to_nat offset <= length line)%nat) as [Hle|Hgt].
  - rewrite app_assoc, lookup_app_r; rewrite length_app, length_take; [|lia].
    rewrite lookup_drop. f_equal. lia.
  - rewrite take_ge, drop_ge, app_nil_r by lia.
    rewrite !lookup_ge_None_2; [done|lia|rewrite length_app; lia].
Qed.

Lemma single_line_overwrite_witness :
  ∃ line newLine r,
    splitLF (replaceCRLF (lit "hello world")) !! Z.to_nat (1 - 1) = Some line
    ∧ r = replaceCRLF (lit "XY")
    ∧ (includes CRLF (lit "XY") = false → r = lit "XY")
    ∧ newLine = take (Z.to_nat 3) line ++ r
                  ++ drop (Z.to_nat (3 + Z.of_nat (length r))) line
    ∧ transform (lit "hello world") 1 1 (lit "XY") 3 =
        NewContent (join (originalLineEnding (lit "hello world"))
                      (<[Z.to_nat (1 - 1) := newLine]>
                         (splitLF (replaceCRLF (lit "hello world")))))
    ∧ (0 ≤ 3 →
       ∀ j : nat, (Z.to_nat 3 + length r <= j)%nat → newLine !! j = line !! j).
Proof.
  apply (single_line_overwrite (lit "hello world") 1 (lit "XY") 3).
  change (1 ≤ 1 ≤ 1). lia.
Defined.

(** The overwrite on a concrete line: two characters of an eleven
    character line are replaced in place. *)
Example single_line_overwrite_example :
  transform (lit "hello world") 1 1 (lit "XY") 3 = NewContent (lit "helXY world").
Proof. reflexivity. Qed.

(** C8 does not hold for every replacement.  On the one-line text "abc",
    replacing line 1 at offset 0 by a replacement that holds a line break
    gives a two-line text; line 1 is still in bounds there, and the second
    application gives a different, three-line text. *)
Lemma single_line_replace_not_idempotent :
  1 ≤ 1 ≤ Z.of_nat (length (splitLF (replaceCRLF (lit "abc"))))
  ∧ transform (lit "abc") 1 1 (lit "x" ++ [LF] ++ lit "y") 0
      = NewContent (lit "x" ++ [LF] ++ lit "y")
  ∧ 1 ≤ 1 ≤ Z.of_nat (length (splitLF (replaceCRLF (lit "x" ++ [LF] ++ lit "y"))))
  ∧ transform (lit "x" ++ [LF] ++ lit "y") 1 1 (lit "x" ++ [LF] ++ lit "y") 0
      = NewContent (lit "x" ++ [LF] ++ lit "y" ++ [LF] ++ lit "y")
  ∧ NewContent (lit "x" ++ [LF] ++ lit "y" ++ [LF] ++ lit "y")
      ≠ NewContent (lit "x" ++ [LF] ++ lit "y").
Proof.
  split; [change (1 ≤ 1 ≤ 1); lia|]. split; [reflexivity|].
  split; [change (1 ≤ 1 ≤ 2); lia|]. split; [reflexivity|]. discriminate.
Qed.

(** Further inputs on which the second application differs: an offset
    past the end of the line, a negative offset, and a replacement ending
    with CR on a line that is followed by another one. *)
Example not_idempotent_offset_past_end :
  transform (lit "ab") 1 1 (lit "xyz") 5 = NewContent (lit "abxyz")
  ∧ transform (lit "abxyz") 1 1 (lit "xyz") 5 = NewContent (lit "abxyzxyz").
Proof. split; reflexivity. Qed.

Example not_idempotent_negative_offset :
  transform (lit "abc") 1 1 (lit "x") (-1) = NewContent (lit "xabc")
  ∧ transform (lit "xabc") 1 1 (lit "x") (-1) = NewContent (lit "xxabc").
Proof. split; reflexivity. Qed.

Example not_idempotent_CR :
  transform (lit "ab" ++ [LF] ++ lit "c") 1 1 [CR] 1
    = NewContent (lit "a" ++ CRLF ++ lit "c")
  ∧ transform (lit "a" ++ CRLF ++ lit "c") 1 1 [CR] 1
    = NewContent (lit "a" ++ [CR] ++ CRLF ++ lit "c").
Proof. split; reflexivity. Qed.

(** C8, amended.  For every text, every in-bounds line [n], every offset
    between 0 and the length of that line, and every replacement that
    holds no CR and no LF character, the single-line replacement succeeds
    and applying it again to its own result gives that result back. *)
Theorem single_line_replace_idempotent (currentContent : str) (n : Z)
    (content : str) (offset : Z) (line : str) :
  1 ≤ n →
  splitLF (replaceCRLF currentContent) !! Z.to_nat (n - 1) = Some line →
  0 ≤ offset ≤ Z.of_nat (length line) →
  CR ∉ content → LF ∉ content →
  ∃ once,
    transform currentContent n n content offset = NewContent once
    ∧ transform once n n content offset = NewContent once.
Proof.
  intros Hn Hline Hoff HCR HLF.
  set (lines := splitLF (replaceCRLF currentContent)) in *.
  set (i := Z.to_nat (n - 1)) in *.
  set (o := Z.to_nat offset).
  pose proof (lookup_lt_Some _ _ _ Hline) as Hi.
  assert (replaceCRLF content = content) as Hr by (by apply replaceCRLF_noLF).
  assert (Z.to_nat (offset + Z.of_nat (length content)) = (o + length content)%nat) as Hk
    by lia.
  assert (Forall (λ l, LF ∉ l) lines) as Hall by apply splitLF_noLF.
  assert (LF ∉ line) as Hl by exact (Forall_lookup_1 _ _ _ _ Hall Hline).
  pose proof (transform_single currentContent n content offset line Hn Hline) as H1.
  rewrite Hr, Hk in H1. fold lines i o in H1. fold (overwrite line content o) in H1.
  set (newLine := overwrite line content o) in *.
  set (lines' := <[i:=newLine]> lines) in *.
  eexists. split; [exact H1|].
  destruct (reread_lines currentContent lines') as [Hle Hre].
  { apply length_insert. }
  { apply Forall_insert; [done|]. by apply overwrite_noLF. }
  { intros Hno. apply (joinNoCRLF_insert lines i line newLine); [done| | |].
    - apply includes_CRLF_noLF. by apply overwrite_noLF.
    - apply overwrite_endsWithCR; [lia|done].
    - fold lines in Hall. unfold lines.
      rewrite replaceCRLF_id by done.
      rewrite <- (join_splitLF currentContent), includes_CRLF_join_LF in Hno.
      by apply negb_false_iff in Hno. }
  assert (splitLF (replaceCRLF (join (originalLineEnding currentContent) lines'))
            !! Z.to_nat (n - 1) = Some newLine) as Hline'.
  { rewrite Hre. by apply list_lookup_insert_eq. }
  rewrite (transform_single _ n content offset newLine Hn Hline').
  rewrite Hr, Hk, Hre, Hle. fold i o. fold (overwrite newLine content o).
  unfold newLine at 1. rewrite overwrite_twice by lia.
  fold newLine. unfold lines'. by rewrite list_insert_insert_eq.
Qed.

Lemma single_line_replace_idempotent_witness :
  ∃ once,
    transform (lit "hello world") 1 1 (lit "XY") 3 = NewContent once
    ∧ transform once 1 1 (lit "XY") 3 = NewContent once.
Proof.
  apply (single_line_replace_idempotent (lit "hello world") 1 (lit "XY") 3
           (lit "hello world")).
  - lia.
  - reflexivity.
  - change (0 ≤ 3 ≤ 11). lia.
  - by vm_compute; intros H; repeat (apply elem_of_cons in H as [H|H]; [discriminate H|]);
      apply elem_of_nil in H.
  - by vm_compute; intros H; repeat (apply elem_of_cons in H as [H|H]; [discriminate H|]);
      apply elem_of_nil in H.
Defined.


(** The line ending is CRLF exactly when the text holds a CRLF, and LF
    otherwise. *)
Lemma originalLineEnding_CRLF (currentContent : str) :
  (originalLineEnding currentContent = CRLF
   ↔ ∃ before after, currentContent = before ++ CRLF ++ after)
  ∧ (originalLineEnding currentContent = CRLF ∨ originalLineEnding currentContent = [LF]).
Proof.
  unfold originalLineEnding. rewrite <- includes_substring.
  destruct (includes CRLF currentContent); split; try done; auto.
Qed.

(** The multi-line branch splits the replacement into lines before it
    joins: the result is joined with the detected line ending only, and
    with CRLF it holds no bare LF. *)
Lemma multi_line_keeps_line_ending (currentContent : str) (startLine endLine : Z)
    (content : str) (offset : Z) :
  1 ≤ startLine → startLine < endLine →
  endLine ≤ Z.of_nat (length (splitLF (replaceCRLF currentContent))) →
  ∃ ls,
    transform currentContent startLine endLine content offset
      = NewContent (join (originalLineEnding currentContent) ls)
    ∧ Forall (λ l, LF ∉ l) ls
    ∧ (originalLineEnding currentContent = CRLF →
       bareLF false (join (originalLineEnding currentContent) ls) = false).
Proof.
  intros H1 H2 H3. unfold transform.
  rewrite decide_False by lia. rewrite decide_False by lia.
  eexists. split; [reflexivity|].
  assert (Forall (λ l, LF ∉ l)
            (splice (splitLF (replaceCRLF currentContent)) (startLine - 1)
               (endLine - 1 - (startLine - 1) + 1) (splitLF (replaceCRLF content)))) as Hall.
  { unfold splice. rewrite !Forall_app. split_and!.
    - apply Forall_take, splitLF_noLF.
    - apply splitLF_noLF.
    - apply Forall_drop, splitLF_noLF. }
  split; [done|]. intros ->. by apply bareLF_join_CRLF.
Qed.

(** C6. The line ending is not preserved by the single-line branch, which
    puts the replacement into the line without splitting it.  The text
    is three lines joined with CRLF and holds no bare LF; replacing line
    2 by a two-line replacement gives a text in which the line break of
    the replacement is a bare LF between CRLF line endings.  The same
    replacement through the multi-line branch (lines 2 to 3) is joined
    with CRLF throughout. *)
Theorem single_line_replace_mixes_line_endings :
  let currentContent := lit "a" ++ CRLF ++ lit "b" ++ CRLF ++ lit "c" in
  let content := lit "x" ++ [LF] ++ lit "y" in
  originalLineEnding currentContent = CRLF
  ∧ bareLF false currentContent = false
  ∧ transform currentContent 2 2 content 0
      = NewContent (lit "a" ++ CRLF ++ lit "x" ++ [LF] ++ lit "y" ++ CRLF ++ lit "c")
  ∧ bareLF false (lit "a" ++ CRLF ++ lit "x" ++ [LF] ++ lit "y" ++ CRLF ++ lit "c") = true
  ∧ transform currentContent 2 3 content 0
      = NewContent (lit "a" ++ CRLF ++ lit "x" ++ CRLF ++ lit "y").
Proof. repeat split; reflexivity. Qed.

(** The LF case of the specification's example, and the CRLF case with a
    replacement of one line. *)
Example replace_line_2_keeps_style :
  transform (lit "a" ++ [LF] ++ lit "b" ++ [LF] ++ lit "c") 2 2 (lit "new") 0
    = NewContent (lit "a" ++ [LF] ++ lit "new" ++ [LF] ++ lit "c")
  ∧ transform (lit "a" ++ CRLF ++ lit "b" ++ CRLF ++ lit "c") 2 2 (lit "new") 0
    = NewContent (lit "a" ++ CRLF ++ lit "new" ++ CRLF ++ lit "c").
Proof. split; reflexivity. Qed.

End RangeReplaceFacts.

(** ** Properties of the literal replace-all *)

Module ReplaceTextFacts.
Import ReplaceText JsFacts.

(** The escaped old text compiles to the old text itself, character by
    character: no character of it keeps a pattern meaning. *)
Lemma compileLiteral_escapeRegExp (s : str) :
  compileLiteral (escapeRegExp s) = Some s.
Proof.
  induction s as [|c s IH]; [done|].
  simpl escapeRegExp. destruct (isSyntaxChar c) eqn:E.
  - simpl. rewrite E, IH. done.
  - simpl. destruct (decide (c = "\"%char)) as [->|Hne]; [done|].
    by rewrite E, IH.
Qed.

(** There is no match exactly when the text does not include the pattern. *)
Lemma scan_nil (p : str) (pos : nat) (s : str) :
  scan p 0 pos s = [] ↔ includes p s = false.
Proof.
  revert pos. induction s as [|c s IH]; intros pos.
  - simpl. destruct (startsWith p []); [|done]. split; done.
  - change (includes p (c :: s)) with (startsWith p (c :: s) || includes p s).
    simpl scan. destruct (startsWith p (c :: s)); [split; done|].
    by rewrite IH.
Qed.

Lemma matchCount_zero (p s : str) : matchCount p s = 0%nat ↔ test p s = false.
Proof.
  unfold matchCount, matchIndices, test. rewrite <- (scan_nil p 0 s).
  by destruct (scan p 0 0 s).
Qed.

(** A replacement text without a dollar sign is put in as it is. *)
Lemma getSubstitution_no_dollar (matched before after replacement : str) :
  "$"%char ∉ replacement →
  getSubstitution matched before after replacement = replacement.
Proof.
  induction replacement as [|c r IH]; [done|].
  intros [Hc Hr]%not_elem_of_cons. simpl.
  rewrite decide_False by done. by rewrite IH.
Qed.

Lemma replaceFrom_literal (p new whole : str) (skip pos : nat) (s : str) :
  "$"%char ∉ new →
  replaceFrom p new whole skip pos s = literalReplaceAll p new skip s.
Proof.
  intros Hnew. revert skip pos. induction s as [|c s IH]; intros skip pos.
  - simpl. destruct skip; [|done].
    by rewrite getSubstitution_no_dollar.
  - simpl. destruct skip as [|k]; [|apply IH].
    rewrite getSubstitution_no_dollar by done. by rewrite !IH.
Qed.

Lemma replaceCRLForCR_elem (n : nat) (x : ascii) (s : str) :
  (length s <= n)%nat → x ∈ replaceCRLForCR s → x = LF ∨ x ∈ s.
Proof.
  revert s. induction n as [|n IH]; intros s Hlen.
  - destruct s; [|simpl in Hlen; lia]. by intros ?%elem_of_nil.
  - destruct s as [|c s]; [by intros ?%elem_of_nil|].
    rewrite replaceCRLForCR_unfold. simpl in Hlen.
    destruct (decide (c = CR)).
    + intros [->|Hin]%elem_of_cons; [by left|].
      apply IH in Hin as [->|Hin]; [by left| |].
      * right. apply list_elem_of_further.
        destruct (startsWith [LF] s); [|done].
        by eapply (subseteq_drop 1 s).
      * destruct (startsWith [LF] s); [|lia]. rewrite length_drop. lia.
    + intros [->|Hin]%elem_of_cons; [right; apply list_elem_of_here|].
      apply IH in Hin as [->|Hin]; [by left|right; by apply list_elem_of_further|lia].
Qed.

Lemma replaceCRLForCR_no_dollar (s : str) :
  "$"%char ∉ s → "$"%char ∉ replaceCRLForCR s.
Proof.
  intros Hs Hin. apply (replaceCRLForCR_elem (length s)) in Hin as [?|?]; done.
Qed.

(** The search fails exactly when the normalised old text is no substring
    of the normalised content; the escaped pattern always compiles. *)
Lemma transform_NoOccurrences (decoded oldText newText : str) :
  transform decoded oldText newText = NoOccurrences
  ↔ includes (replaceCRLForCR oldText) (replaceCRLForCR decoded) = false.
Proof.
  unfold transform. rewrite compileLiteral_escapeRegExp. unfold test.
  destruct (includes _ _); simpl; split; done.
Qed.

Lemma transform_not_SyntaxError (decoded oldText newText : str) :
  transform decoded oldText newText ≠ SyntaxError.
Proof.
  unfold transform. rewrite compileLiteral_escapeRegExp.
  by destruct (negb _).
Qed.

(** With a new text that holds no dollar sign, every match is replaced
    by the new text itself, and the count is the number of matches, which
    is at least one. *)
Lemma transform_literal (decoded oldText newText : str) :
  "$"%char ∉ newText →
  includes (replaceCRLForCR oldText) (replaceCRLForCR decoded) = true →
  transform decoded oldText newText =
    Replaced
      (replaceLF (if includes CRLF decoded then CRLF else [LF])
         (literalReplaceAll (replaceCRLForCR oldText) (replaceCRLForCR newText) 0
            (replaceCRLForCR decoded)))
      (matchCount (replaceCRLForCR oldText) (replaceCRLForCR decoded))
  ∧ (1 <= matchCount (replaceCRLForCR oldText) (replaceCRLForCR decoded))%nat.
Proof.
  intros Hnew Hinc. unfold transform. rewrite compileLiteral_escapeRegExp.
  unfold test. rewrite Hinc. simpl. split.
  - unfold replaceAll. rewrite replaceFrom_literal; [done|].
    by apply replaceCRLForCR_no_dollar.
  - destruct (matchCount _ _) eqn:E; [|lia].
    apply matchCount_zero in E. unfold test in E. congruence.
Qed.

(** The example of the specification. *)
Example replace_foo_bar :
  transform (lit "foo.foo.foo") (lit "foo") (lit "bar")
    = Replaced (lit "bar.bar.bar") 3
  ∧ transform (lit "abc") (lit "foo") (lit "bar") = NoOccurrences.
Proof. split; reflexivity. Qed.

(** Characters of the old text that are regular expression operators match
    themselves only, and a match can span a line break. *)
Example replace_metacharacters :
  transform (lit "a(b)*c a(b)*c abbc") (lit "(b)*") (lit "-")
    = Replaced (lit "a-c a-c abbc") 2
  ∧ transform (lit "a" ++ CRLF ++ lit "b") (lit "a" ++ [LF] ++ lit "b") (lit "x")
    = Replaced (lit "x") 1.
Proof. split; reflexivity. Qed.

(** C3. The replacement is not literal for a new text that holds a
    dollar pattern.  On the content "foo", old text "foo" and new text "$&" the
    code reports one replacement and leaves the content as it was, because
    the built-in [replace] reads "$&" as the matched text; the literal
    replacement gives "$&".  Likewise "$$" is written as one dollar sign. *)
Theorem replace_expands_dollar_patterns :
  transform (lit "foo") (lit "foo") (lit "$&") = Replaced (lit "foo") 1
  ∧ literalReplaceAll (lit "foo") (lit "$&") 0 (lit "foo") = lit "$&"
  ∧ transform (lit "a.b") (lit ".") (lit "$$") = Replaced (lit "a$b") 1
  ∧ literalReplaceAll (lit ".") (lit "$$") 0 (lit "a.b") = lit "a$$b".
Proof. repeat split; reflexivity. Qed.

End ReplaceTextFacts.

(** ** Properties of the file tools *)

Module FileToolsFacts.
Import Collaborators JsFacts RangeReplaceFacts Protocol.

(** Unfolding of the state operations down to functions on the world. *)
Ltac run :=
  repeat progress
    (unfold tryCatch, bind, ret, throw, deferCacheUpdate, handleFileSystemError,
       writeFileSimple, readFile, fileExists, getFileContent, createDirectory,
       updateCache, invalidate, getFiles, getCache, setFiles, setCache,
       setTimeout, log, openTab, writeOptions;
     cbn [files cache timers logs editorTabs checkExists mustExist skipCacheUpdate
          andb negb fst snd]).

(** The record of a world is determined by its fields. *)
Lemma world_eta (w : World) :
  {| files := files w; cache := cache w; timers := timers w;
     logs := logs w; editorTabs := editorTabs w |} = w.
Proof. by destruct w. Qed.

(** *** The deferred cache update *)

(** The callback of the outer timer starts the cache update and schedules
    the opening of the file: both join the waiting tasks, and nothing
    else changes. *)
Lemma runTimer_callback (env : Env) (tool absolutePath newContent : str) (w : World) :
  runTimer env (DeferredCacheUpdate tool absolutePath newContent) w
  = (Ok tt,
     {| files := files w; cache := cache w;
        timers := timers w ++ [PendingCacheUpdate absolutePath newContent;
                               DeferredOpenInEditor tool absolutePath];
        logs := logs w; editorTabs := editorTabs w |}).
Proof. unfold runTimer. run. by rewrite <- app_assoc. Qed.

(** The started update never throws when it settles.  When it succeeds
    the entry of the path holds the written text; when it fails the entry
    of the path is removed and the error goes to the log.  The store is
    not touched. *)
Lemma runTimer_settlement (env : Env) (absolutePath newContent : str) (w : World) :
  ∃ w',
    runTimer env (PendingCacheUpdate absolutePath newContent) w = (Ok tt, w')
    ∧ files w' = files w
    ∧ timers w' = timers w
    ∧ editorTabs w' = editorTabs w
    ∧ match updateCacheError env absolutePath newContent with
      | None => cache w' = <[absolutePath := newContent]> (cache w) ∧ logs w' = logs w
      | Some e =>
          cache w' = delete absolutePath (cache w)
          ∧ cache w' !! absolutePath = None
          ∧ ∃ entry, logs w' = logs w ++ [entry] ∧ level entry = error
                     ∧ detail entry = Some e
      end.
Proof.
  unfold runTimer. run.
  destruct (updateCacheError env absolutePath newContent) as [e|]; cbn.
  - eexists. split; [reflexivity|]. cbn. split_and!; try done.
    + apply lookup_delete_eq.
    + eexists. split; [reflexivity|done].
  - eexists. split; [reflexivity|]. cbn. done.
Qed.

(** *** The five writing tools follow the protocol *)

Ltac split_cases :=
  repeat match goal with
         | |- context [files ?w !! ?p] => destruct (files w !! p) eqn:?; cbn
         | |- context [createDirectoryError ?e ?p] =>
             destruct (createDirectoryError e p) eqn:?; cbn
         | |- context [RangeReplace.transform ?a ?b ?c ?d ?e] =>
             destruct (RangeReplace.transform a b c d e) eqn:?; cbn
         | |- context [ReplaceText.transform ?a ?b ?c] =>
             destruct (ReplaceText.transform a b c) eqn:?; cbn
         | |- context [writeError ?e ?p ?t] => destruct (writeError e p t) eqn:?; cbn
         end.

Ltac protocol :=
  intros w;
  unfold rewritePlan, createPlan, replaceAtPositionPlan, appendPlan,
    replaceSpecificTextPlan, accepted, afterWrite;
  run; split_cases;
  first [ congruence | reflexivity | (eexists _, _; split_and!; reflexivity) ].

Lemma RewriteFileContent_protocol (env : Env) (absolutePath : str)
    (args : RewriteFileContentTool.Args) :
  writeThenDefer env (lit "rewrite_file_content") absolutePath
    (rewritePlan env absolutePath args)
    (RewriteFileContentTool.execute env absolutePath args).
Proof. unfold RewriteFileContentTool.execute. protocol. Qed.

Lemma CreateNewFileWithText_protocol (env : Env) (absolutePath : str)
    (args : CreateNewFileWithTextTool.Args) :
  writeThenDefer env (lit "create_new_file_with_text") absolutePath
    (createPlan env absolutePath args)
    (CreateNewFileWithTextTool.execute env absolutePath args).
Proof. unfold CreateNewFileWithTextTool.execute. protocol. Qed.

Lemma ReplaceFileContentAtPosition_protocol (env : Env) (absolutePath : str)
    (args : ReplaceFileContentAtPositionTool.Args) :
  writeThenDefer env (lit "replace_file_content_at_position") absolutePath
    (replaceAtPositionPlan env absolutePath args)
    (ReplaceFileContentAtPositionTool.execute env absolutePath args).
Proof. unfold ReplaceFileContentAtPositionTool.execute. protocol. Qed.

Lemma AppendFileContent_protocol (env : Env) (absolutePath : str)
    (args : AppendFileContentTool.Args) :
  writeThenDefer env (lit "append_file_content") absolutePath
    (appendPlan env absolutePath args)
    (AppendFileContentTool.execute env absolutePath args).
Proof. unfold AppendFileContentTool.execute. protocol. Qed.

Lemma ReplaceSpecificText_protocol (env : Env) (absolutePath : str)
    (args : ReplaceSpecificTextTool.Args) :
  writeThenDefer env (lit "replace_specific_text") absolutePath
    (replaceSpecificTextPlan env absolutePath args)
    (ReplaceSpecificTextTool.execute env absolutePath args).
Proof. unfold ReplaceSpecificTextTool.execute. protocol. Qed.

(** C1. Each of the five writing tools returns an envelope and never
    throws.  Whenever the tool has a content to write and the store
    accepts it (the given text; the text the range replace or the
    replace-all computes; the text of the file followed by the adapted
    content), the tool returns its success envelope, and at that moment
    the store holds that content under the path, the cache has not been
    touched, nothing is logged, and the callback of the cache update for
    that path and content has joined the waiting tasks.  In every other
    case the tool returns a failure envelope, and nothing was written
    and nothing is deferred.  The callback, in its later turn, only
    starts the update and schedules the opening of the file.  The update,
    when it settles, never throws and leaves the store alone: a failed
    update removes the cache entry of that path and logs the error, a
    successful one stores the written content. *)
Theorem write_before_response_cache_after (env : Env) (absolutePath : str) :
  (∀ args, writeThenDefer env (lit "rewrite_file_content") absolutePath
             (rewritePlan env absolutePath args)
             (RewriteFileContentTool.execute env absolutePath args))
  ∧ (∀ args, writeThenDefer env (lit "create_new_file_with_text") absolutePath
               (createPlan env absolutePath args)
               (CreateNewFileWithTextTool.execute env absolutePath args))
  ∧ (∀ args, writeThenDefer env (lit "replace_file_content_at_position") absolutePath
               (replaceAtPositionPlan env absolutePath args)
               (ReplaceFileContentAtPositionTool.execute env absolutePath args))
  ∧ (∀ args, writeThenDefer env (lit "append_file_content") absolutePath
               (appendPlan env absolutePath args)
               (AppendFileContentTool.execute env absolutePath args))
  ∧ (∀ args, writeThenDefer env (lit "replace_specific_text") absolutePath
               (replaceSpecificTextPlan env absolutePath args)
               (ReplaceSpecificTextTool.execute env absolutePath args))
  ∧ (∀ (tool newContent : str) (w : World),
       runTimer env (DeferredCacheUpdate tool absolutePath newContent) w
       = (Ok tt,
          {| files := files w; cache := cache w;
             timers := timers w ++ [PendingCacheUpdate absolutePath newContent;
                                    DeferredOpenInEditor tool absolutePath];
             logs := logs w; editorTabs := editorTabs w |}))
  ∧ (∀ (newContent : str) (w : World), ∃ w',
       runTimer env (PendingCacheUpdate absolutePath newContent) w = (Ok tt, w')
       ∧ files w' = files w
       ∧ timers w' = timers w
       ∧ match updateCacheError env absolutePath newContent with
         | None => cache w' = <[absolutePath := newContent]> (cache w)
         | Some e =>
             cache w' = delete absolutePath (cache w)
             ∧ cache w' !! absolutePath = None
             ∧ ∃ entry, logs w' = logs w ++ [entry] ∧ level entry = error
                        ∧ detail entry = Some e
         end).
Proof.
  split_and!.
  - apply RewriteFileContent_protocol.
  - apply CreateNewFileWithText_protocol.
  - apply ReplaceFileContentAtPosition_protocol.
  - apply AppendFileContent_protocol.
  - apply ReplaceSpecificText_protocol.
  - intros tool newContent w. apply runTimer_callback.
  - intros newContent w.
    destruct (runTimer_settlement env absolutePath newContent w)
      as (w' & Hrun & Hfiles & Htimers & _ & Hcache).
    exists w'. split_and!; [done|done|done|].
    destruct (updateCacheError env absolutePath newContent); [done|].
    by destruct Hcache.
Qed.

(** A rewrite in the sample world, with a cache whose update fails: the
    success envelope comes with the new text in the store, and the update
    that settles later removes the entry of the path. *)
Lemma write_before_response_cache_after_witness :
  RewriteFileContentTool.execute Samples.envBrokenCache Samples.path
    {| RewriteFileContentTool.text := lit "new" |} (Samples.world (lit "old"))
  = (Ok (success Samples.envBrokenCache
           (VObject [(lit "pathInProject", VString Samples.path);
                     (lit "size", VNumber 3)])),
     afterWrite (lit "rewrite_file_content") Samples.path (lit "new")
       (Samples.world (lit "old")))
  ∧ ∃ w',
      runTimer Samples.envBrokenCache (PendingCacheUpdate Samples.path (lit "new"))
        (afterWrite (lit "rewrite_file_content") Samples.path (lit "new")
           (Samples.world (lit "old"))) = (Ok tt, w')
      ∧ files w' !! Samples.path = Some (lit "new")
      ∧ cache w' !! Samples.path = None.
Proof.
  destruct (write_before_response_cache_after Samples.envBrokenCache Samples.path)
    as (Hrewrite & _ & _ & _ & _ & _ & Hsettle).
  split.
  - exact (Hrewrite {| RewriteFileContentTool.text := lit "new" |}
             (Samples.world (lit "old"))).
  - destruct (Hsettle (lit "new")
                (afterWrite (lit "rewrite_file_content") Samples.path (lit "new")
                   (Samples.world (lit "old"))))
      as (w' & Hrun & Hfiles & _ & _ & Hgone & _).
    exists w'. split; [exact Hrun|]. split; [|exact Hgone].
    rewrite Hfiles. reflexivity.
Defined.

(** A run with a cache whose update fails: the rewrite is in the store
    when the success envelope is returned, and the stale cache entry of
    the path is still there; it is there after the turn of the callback
    too, and gone once the update has settled. *)
Example rewrite_then_failed_cache_update :
  let w :=
    {| files := {[ Samples.path := lit "old" ]};
       cache := {[ Samples.path := lit "old" ]};
       timers := []; logs := []; editorTabs := [] |} in
  let '(r, w1) :=
    RewriteFileContentTool.execute Samples.envBrokenCache Samples.path
      {| RewriteFileContentTool.text := lit "new" |} w in
  (isError <$> (match r with Ok resp => Some resp | Throw _ => None end)) = Some (Some false)
  ∧ files w1 !! Samples.path = Some (lit "new")
  ∧ cache w1 !! Samples.path = Some (lit "old")
  ∧ match runTasks Samples.envBrokenCache [0%nat] w1 with
    | Some w2 =>
        cache w2 !! Samples.path = Some (lit "old")
        ∧ match runTasks Samples.envBrokenCache [0%nat] w2 with
          | Some w3 =>
              files w3 !! Samples.path = Some (lit "new")
              ∧ cache w3 !! Samples.path = None
          | None => False
          end
    | None => False
    end.
Proof. vm_compute. repeat split. Qed.

(** A run that answers with a success and writes nothing does not follow
    the protocol. *)
Example protocol_excludes_no_write :
  ¬ writeThenDefer Samples.env (lit "rewrite_file_content") Samples.path
      (rewritePlan Samples.env Samples.path {| RewriteFileContentTool.text := lit "new" |})
      (ret (success Samples.env (VScalar (VString (lit "ok"))))).
Proof.
  intros Hstub. specialize (Hstub (Samples.world (lit "old"))).
  vm_compute in Hstub. discriminate Hstub.
Qed.

(** *** AppendFileContentTool *)

(** The adapted content has the lines of the content, with the line
    ending of the existing text and no other. *)
Lemma adaptLineEndings_spec (existingContent newContent : str) :
  adaptLineEndings existingContent newContent
  = join (RangeReplace.originalLineEnding existingContent)
      (splitLF (replaceCRLForCR newContent))
  ∧ Forall (λ l, (CR ∉ l) ∧ (LF ∉ l)) (splitLF (replaceCRLForCR newContent))
  ∧ replaceCRLForCR (adaptLineEndings existingContent newContent)
    = replaceCRLForCR newContent
  ∧ (includes CRLF existingContent = true →
     bareLF false (adaptLineEndings existingContent newContent) = false
     ∧ bareCR (adaptLineEndings existingContent newContent) = false)
  ∧ (includes CRLF existingContent = false →
     CR ∉ adaptLineEndings existingContent newContent).
Proof.
  pose proof (replaceCRLForCR_noCR newContent) as HnoCR.
  unfold adaptLineEndings, RangeReplace.originalLineEnding.
  split_and!.
  - by rewrite join_splitLF_replaceLF.
  - apply Forall_forall. intros l Hl. split.
    + intros Hin. apply HnoCR.
      rewrite <- (join_splitLF (replaceCRLForCR newContent)).
      clear HnoCR. induction (splitLF (replaceCRLForCR newContent)) as [|h t IH].
      * by apply elem_of_nil in Hl.
      * apply elem_of_cons in Hl as [->|Hl].
        -- destruct t; [done|]. cbn [join]. apply elem_of_app. by left.
        -- destruct t as [|h' t']; [by apply elem_of_nil in Hl|].
           change (join [LF] (h :: h' :: t')) with (h ++ [LF] ++ join [LF] (h' :: t')).
           rewrite !elem_of_app. right. right. by apply IH.
    + exact (proj1 (Forall_forall _ _) (splitLF_noLF _) l Hl).
  - destruct (includes CRLF existingContent).
    + by apply replaceCRLForCR_replaceLF_CRLF.
    + rewrite replaceLF_LF. by apply replaceCRLForCR_id.
  - intros ->. split; [apply bareLF_replaceLF_CRLF|by apply bareCR_replaceLF_CRLF].
  - intros ->. by rewrite replaceLF_LF.
Qed.

(** C9. For every existing file and every content to append, the tool
    returns an envelope; the text the store holds for the path afterwards
    starts with the existing text, character by character, and no other
    path changes.  When the store accepts the write the envelope is a
    success, and then the stored text is the existing text followed by
    the adapted content.  The adapted content is made of the lines of the
    content to append (none of which holds a CR or an LF), joined with
    the line ending of the existing text, CRLF when that text has a CRLF
    and LF otherwise: normalised, it is the normalised content; for a
    file with CRLF, every LF of it follows a CR and every CR of it is
    followed by an LF; for a file without CRLF it holds no CR. *)
Theorem append_keeps_existing (env : Env) (absolutePath : str)
    (args : AppendFileContentTool.Args) (w : World) (existingContent : str) :
  files w !! absolutePath = Some existingContent →
  ∃ resp w' written appended,
    AppendFileContentTool.execute env absolutePath args w = (Ok resp, w')
    ∧ files w' !! absolutePath = Some written
    ∧ take (length existingContent) written = existingContent
    ∧ (∀ other, other ≠ absolutePath → files w' !! other = files w !! other)
    ∧ (isError resp = Some false → written = existingContent ++ appended)
    ∧ (writeError env absolutePath (existingContent ++ appended) = None →
       isError resp = Some false)
    ∧ appended
      = join (if includes CRLF existingContent then CRLF else [LF])
          (splitLF (replaceCRLForCR (AppendFileContentTool.content args)))
    ∧ Forall (λ l, (CR ∉ l) ∧ (LF ∉ l))
        (splitLF (replaceCRLForCR (AppendFileContentTool.content args)))
    ∧ replaceCRLForCR appended = replaceCRLForCR (AppendFileContentTool.content args)
    ∧ (includes CRLF existingContent = true →
       bareLF false appended = false ∧ bareCR appended = false)
    ∧ (includes CRLF existingContent = false → CR ∉ appended).
Proof.
  intros Hfile.
  destruct (adaptLineEndings_spec existingContent (AppendFileContentTool.content args))
    as (Hjoin & Hlines & Hnorm & Hcrlf & Hlf).
  unfold AppendFileContentTool.execute. run.
  do 2 (rewrite ?Hfile; cbn).
  destruct (writeError env absolutePath _) as [e|] eqn:Hw; cbn.
  - eexists _, _, existingContent, _. split; [reflexivity|]. cbn.
    split_and!; [done|by rewrite take_ge|done|done| |exact Hjoin|done|done|done|done].
    intros Hw'. rewrite Hw' in Hw. done.
  - eexists _, _, _, _. split; [reflexivity|]. cbn.
    split_and!;
      [apply lookup_insert_eq|by rewrite take_app_length| |done|done|exact Hjoin
      |done|done|done|done].
    intros other Hne. by rewrite lookup_insert_ne.
Qed.

(** Content with LF line endings appended to a file with CRLF line
    endings. *)
Lemma append_keeps_existing_witness :
  ∃ resp w' written appended,
    AppendFileContentTool.execute Samples.env Samples.path
      {| AppendFileContentTool.content := lit "x" ++ [LF] ++ lit "y" |}
      (Samples.world (lit "a" ++ CRLF ++ lit "b"))
      = (Ok resp, w')
    ∧ files w' !! Samples.path = Some written
    ∧ written = lit "a" ++ CRLF ++ lit "b" ++ lit "x" ++ CRLF ++ lit "y"
    ∧ appended = lit "x" ++ CRLF ++ lit "y"
    ∧ isError resp = Some false
    ∧ bareLF false appended = false.
Proof.
  destruct (append_keeps_existing Samples.env Samples.path
              {| AppendFileContentTool.content := lit "x" ++ [LF] ++ lit "y" |}
              (Samples.world (lit "a" ++ CRLF ++ lit "b")) (lit "a" ++ CRLF ++ lit "b"))
    as (resp & w' & written & appended & Hrun & Hfiles & _ & _ & Hwritten & Hok
        & Happended & _ & _ & Hbare & _).
  - reflexivity.
  - exists resp, w', written, appended.
    assert (appended = lit "x" ++ CRLF ++ lit "y") as Heq by exact Happended.
    assert (isError resp = Some false) as Hsuccess by (apply Hok; reflexivity).
    split; [exact Hrun|]. split; [exact Hfiles|].
    split; [rewrite (Hwritten Hsuccess), Heq; reflexivity|].
    split; [exact Heq|]. split; [exact Hsuccess|].
    apply Hbare. reflexivity.
Defined.

(** The same append on a file without CRLF, with content that has CRLF
    and CR line endings. *)
Example append_to_LF_file :
  match AppendFileContentTool.execute Samples.env Samples.path
          {| AppendFileContentTool.content := lit "x" ++ CRLF ++ lit "y" ++ [CR] ++ lit "z" |}
          (Samples.world (lit "a" ++ [LF] ++ lit "b")) with
  | (Ok resp, w') =>
      isError resp = Some false
      ∧ files w' !! Samples.path
        = Some (lit "a" ++ [LF] ++ lit "b" ++ lit "x" ++ [LF] ++ lit "y" ++ [LF] ++ lit "z")
  | _ => False
  end.
Proof. vm_compute. split; reflexivity. Qed.

(** *** ReplaceFileContentAtPositionTool *)

(** C5. When the file can be read and [startLine < 1], or [endLine] is
    greater than the number of lines of the LF-normalised text, or
    [startLine > endLine], the tool returns the failure envelope with the
    message "Invalid line numbers" and the world is what it was: nothing
    is written, nothing is deferred. *)
Theorem invalid_range_rejected (env : Env) (absolutePath : str)
    (args : ReplaceFileContentAtPositionTool.Args) (w : World) (currentContent : str) :
  files w !! absolutePath = Some currentContent →
  ReplaceFileContentAtPositionTool.startLine args < 1
  ∨ ReplaceFileContentAtPositionTool.endLine args
      > Z.of_nat (length (splitLF (replaceCRLF currentContent)))
  ∨ ReplaceFileContentAtPositionTool.startLine args
      > ReplaceFileContentAtPositionTool.endLine args →
  ∃ resp,
    ReplaceFileContentAtPositionTool.execute env absolutePath args w = (Ok resp, w)
    ∧ resp = failure (lit "Invalid line numbers")
    ∧ isError resp = Some true.
Proof.
  intros Hfile Hbad. eexists. split; [|split; reflexivity].
  unfold ReplaceFileContentAtPositionTool.execute. run.
  rewrite Hfile. cbn. rewrite transform_invalid by done. done.
Qed.

Lemma invalid_range_rejected_witness :
  ∃ resp,
    ReplaceFileContentAtPositionTool.execute Samples.env Samples.path
      {| ReplaceFileContentAtPositionTool.startLine := 0;
         ReplaceFileContentAtPositionTool.endLine := 1;
         ReplaceFileContentAtPositionTool.content := lit "x";
         ReplaceFileContentAtPositionTool.offset := None |}
      (Samples.world (lit "abc"))
    = (Ok resp, Samples.world (lit "abc"))
    ∧ resp = failure (lit "Invalid line numbers")
    ∧ isError resp = Some true.
Proof.
  apply (invalid_range_rejected Samples.env Samples.path _ _ (lit "abc")).
  - reflexivity.
  - left. cbn. lia.
Defined.

(** *** GetFileTextByPathTool *)

Lemma effectiveMaxCharacters_spec (maxCharacters : option JsNumber) :
  (∀ q, maxCharacters = Some (Finite q) → (0 < q)%Q →
        GetFileTextByPathTool.effectiveMaxCharacters maxCharacters = q)
  ∧ ((¬ ∃ q, maxCharacters = Some (Finite q) ∧ (0 < q)%Q) →
     GetFileTextByPathTool.effectiveMaxCharacters maxCharacters
     = inject_Z maxFileReadCharacters)
  ∧ (0 < GetFileTextByPathTool.effectiveMaxCharacters maxCharacters)%Q.
Proof.
  unfold GetFileTextByPathTool.effectiveMaxCharacters, maxFileReadCharacters.
  split_and!.
  - intros q -> Hq. apply greater_true in Hq. by rewrite Hq.
  - intros Hno. destruct maxCharacters as [[q| |]|]; try done.
    destruct (greater q 0) eqn:E; [|done]. exfalso. apply Hno.
    exists q. split; [done|]. by apply greater_true.
  - destruct maxCharacters as [[q| |]|]; try done.
    destruct (greater q 0) eqn:E; [|done]. by apply greater_true.
Qed.

(** The read of the three characters "abc" with [maxCharacters] 2.5: the
    text is longer than the limit, the limit is reported as 2.5, and the
    two characters "ab" are returned; there is no text of 2.5
    characters. *)
Lemma read_cut_below_fractional_limit :
  ∃ resp w' sc,
    GetFileTextByPathTool.execute Samples.env Samples.path
      {| GetFileTextByPathTool.encoding := None;
         GetFileTextByPathTool.maxCharacters := Some (Finite (5 # 2)) |}
      (Samples.world (lit "abc")) = (Ok resp, w')
    ∧ GetFileTextByPathTool.effectiveMaxCharacters (Some (Finite (5 # 2))) = 5 # 2
    ∧ (5 # 2 < inject_Z (Z.of_nat (length (lit "abc"))))%Q
    ∧ content resp = [{| type := text_t; text := Some (lit "ab") |}]
    ∧ isError resp = Some false
    ∧ structuredContent resp = Some sc
    ∧ field (lit "truncated") sc = Some (VBoolean true)
    ∧ field (lit "maxCharacters") sc = Some (VNumber (5 # 2))
    ∧ field (lit "length") sc = Some (VNumber 2)
    ∧ ¬ (inject_Z (Z.of_nat (length (lit "ab"))) == 5 # 2)%Q.
Proof.
  eexists _, _, _. split; [vm_compute; reflexivity|].
  split_and!; try reflexivity. intros Heq. vm_compute in Heq. discriminate Heq.
Qed.

(** C10. When the encoding is accepted and the read of the file gives
    the text [fullText], the tool returns a success envelope.  The limit
    is the [maxCharacters] argument when that is a finite number greater
    than 0, and 100000 otherwise; it is reported as [maxCharacters].  A
    text longer than the limit is cut to its first [floor limit]
    characters, which are the first [limit] characters when the limit is
    a whole number, and reported as truncated; any other text is returned
    whole and reported as not truncated.  In both cases the structured
    content gives the length of the returned text as [length] and the
    length of the full text as [totalLength]. *)
Theorem read_truncates_at_limit (env : Env) (absolutePath : str)
    (args : GetFileTextByPathTool.Args) (w w1 : World) (fullText : str) :
  GetFileTextByPathTool.unsupportedEncoding (GetFileTextByPathTool.encoding args) = false →
  getFileContent absolutePath true w = (Ok fullText, w1) →
  ∃ resp w' returned truncated sc limit,
    GetFileTextByPathTool.execute env absolutePath args w = (Ok resp, w')
    ∧ limit = GetFileTextByPathTool.effectiveMaxCharacters
                (GetFileTextByPathTool.maxCharacters args)
    ∧ (∀ q, GetFileTextByPathTool.maxCharacters args = Some (Finite q) → (0 < q)%Q →
            limit = q)
    ∧ ((¬ ∃ q, GetFileTextByPathTool.maxCharacters args = Some (Finite q) ∧ (0 < q)%Q) →
       limit = inject_Z 100000)
    ∧ content resp = [{| type := text_t; text := Some returned |}]
    ∧ isError resp = Some false
    ∧ structuredContent resp = Some sc
    ∧ ((limit < inject_Z (Z.of_nat (length fullText)))%Q →
       returned = take (Z.to_nat (Qfloor limit)) fullText ∧ truncated = true
       ∧ Z.of_nat (length returned) = Qfloor limit
       ∧ (∀ z : Z, (limit == inject_Z z)%Q →
                   returned = take (Z.to_nat z) fullText
                   ∧ Z.of_nat (length returned) = z))
    ∧ ((inject_Z (Z.of_nat (length fullText)) <= limit)%Q →
       returned = fullText ∧ truncated = false)
    ∧ field (lit "content") sc = Some (VString returned)
    ∧ field (lit "truncated") sc = Some (VBoolean truncated)
    ∧ field (lit "length") sc = Some (VNumber (inject_Z (Z.of_nat (length returned))))
    ∧ field (lit "totalLength") sc
      = Some (VNumber (inject_Z (Z.of_nat (length fullText))))
    ∧ field (lit "maxCharacters") sc = Some (VNumber limit).
Proof.
  intros Henc Hread.
  destruct (effectiveMaxCharacters_spec (GetFileTextByPathTool.maxCharacters args))
    as (Hgiven & Hdefault & Hpos).
  set (limit := GetFileTextByPathTool.effectiveMaxCharacters
                  (GetFileTextByPathTool.maxCharacters args)) in *.
  assert (Qeq_bool limit 0 = false) as Hnz.
  { destruct (Qeq_bool limit 0) eqn:E; [|done].
    apply Qeq_bool_iff in E. exfalso. apply (Qlt_not_eq _ _ Hpos). by symmetry. }
  assert (0 ≤ Qfloor limit) as Hfloor.
  { change 0 with (Qfloor 0). apply Qfloor_resp_le. by apply Qlt_le_weak. }
  unfold GetFileTextByPathTool.execute. rewrite Henc.
  unfold tryCatch at 1. unfold bind at 1. rewrite Hread.
  fold limit. rewrite Hnz. cbn [negb andb].
  unfold bind, log, ret. cbn [fst snd].
  eexists _, _, _, _, _, limit. split; [reflexivity|].
  cbn [content isError structuredContent].
  split_and!; try reflexivity; try done.
  - intros Hlong. rewrite (proj2 (greater_true _ _) Hlong).
    rewrite slice0_take, toIntegerOrInfinity_floor by by apply Qlt_le_weak.
    assert (Qfloor limit ≤ Z.of_nat (length fullText)) as Hle.
    { rewrite <- (Qfloor_Z (Z.of_nat (length fullText))).
      apply Qfloor_resp_le. by apply Qlt_le_weak. }
    assert (Z.of_nat (length (take (Z.to_nat (Qfloor limit)) fullText)) = Qfloor limit)
      as Hlen by (rewrite length_take; lia).
    split_and!; [done|done|done|].
    intros z Hz. rewrite (Qfloor_comp _ _ Hz), Qfloor_Z in Hlen |- *. done.
  - intros Hshort. rewrite (proj2 (greater_false _ _) Hshort). done.
Qed.

Lemma read_truncates_at_limit_witness :
  ∃ resp w' returned truncated sc limit,
    GetFileTextByPathTool.execute Samples.env Samples.path
      {| GetFileTextByPathTool.encoding := None;
         GetFileTextByPathTool.maxCharacters := Some (Finite (7 # 2)) |}
      (Samples.world (lit "hello")) = (Ok resp, w')
    ∧ limit = 7 # 2
    ∧ content resp = [{| type := text_t; text := Some returned |}]
    ∧ isError resp = Some false
    ∧ structuredContent resp = Some sc
    ∧ returned = lit "hel"
    ∧ truncated = true
    ∧ field (lit "content") sc = Some (VString returned)
    ∧ field (lit "truncated") sc = Some (VBoolean truncated)
    ∧ field (lit "length") sc = Some (VNumber (inject_Z (Z.of_nat (length returned))))
    ∧ field (lit "totalLength") sc = Some (VNumber 5)
    ∧ field (lit "maxCharacters") sc = Some (VNumber limit).
Proof.
  destruct (read_truncates_at_limit Samples.env Samples.path
              {| GetFileTextByPathTool.encoding := None;
                 GetFileTextByPathTool.maxCharacters := Some (Finite (7 # 2)) |}
              (Samples.world (lit "hello"))
              {| files := {[ Samples.path := lit "hello" ]};
                 cache := {[ Samples.path := lit "hello" ]};
                 timers := []; logs := []; editorTabs := [] |}
              (lit "hello"))
    as (resp & w' & returned & truncated & sc & limit & Hrun & Hlimit & _ & _ & Hcontent
        & Herr & Hsc & Hlong & _ & Hfc & Hft & Hfl & Hftl & Hfm).
  - reflexivity.
  - vm_compute. reflexivity.
  - assert (limit = 7 # 2) as Hl by exact Hlimit.
    destruct Hlong as (Hret & Htr & _).
    { rewrite Hl. reflexivity. }
    exists resp, w', returned, truncated, sc, limit.
    split; [exact Hrun|]. split; [exact Hl|]. split; [exact Hcontent|].
    split; [exact Herr|]. split; [exact Hsc|].
    split; [rewrite Hret, Hl; reflexivity|]. split; [exact Htr|].
    split; [exact Hfc|]. split; [exact Hft|]. split; [exact Hfl|].
    split; [exact Hftl|exact Hfm].
Defined.

(** The read of a five character file with a limit of three. *)
Example read_hello_limit_3 :
  match GetFileTextByPathTool.execute Samples.env Samples.path
          {| GetFileTextByPathTool.encoding := Some (lit "UTF-8");
             GetFileTextByPathTool.maxCharacters := Some (Finite 3) |}
          (Samples.world (lit "hello")) with
  | (Ok resp, _) =>
      content resp = [{| type := text_t; text := Some (lit "hel") |}]
      ∧ (structuredContent resp ≫= field (lit "truncated")) = Some (VBoolean true)
      ∧ (structuredContent resp ≫= field (lit "length")) = Some (VNumber 3)
      ∧ (structuredContent resp ≫= field (lit "totalLength")) = Some (VNumber 5)
      ∧ (structuredContent resp ≫= field (lit "maxCharacters")) = Some (VNumber 3)
  | _ => False
  end.
Proof. vm_compute. repeat split. Qed.

(** A limit between 0 and 1 cuts every text that is not empty to the
    empty text. *)
Example read_hello_limit_half :
  match GetFileTextByPathTool.execute Samples.env Samples.path
          {| GetFileTextByPathTool.encoding := None;
             GetFileTextByPathTool.maxCharacters := Some (Finite (1 # 2)) |}
          (Samples.world (lit "hello")) with
  | (Ok resp, _) =>
      content resp = [{| type := text_t; text := Some [] |}]
      ∧ (structuredContent resp ≫= field (lit "truncated")) = Some (VBoolean true)
  | _ => False
  end.
Proof. vm_compute. repeat split. Qed.

End FileToolsFacts.

(** ** Properties of the request handler *)

Module RequestHandlerFacts.
Import Collaborators RequestHandler.

Ltac run :=
  repeat progress
    (unfold handleToolExecution, executeToolDirect, handleServerError, sendResponse,
       sendJsonResponse, callHandle, lift, tryCatch, bind, ret, throw, log;
     cbn [world res handled response statusCode fst snd]).

(** The two cases of the slow-request test. *)
Ltac slow_cases :=
  try match goal with
      | |- context [greater ?a ?b] => destruct (greater a b); cbn
      end.

Section WithHandler.
Variable env : Env.
Variable toolManager : gmap str McpTool.
Variable interceptorChain : InterceptorChain.

(** Every call of [handleToolExecution] returns normally and sends
    exactly one reply. *)
Lemma handleToolExecution_replies (toolName : str) (params : JsValue)
    (method path : str) (r : Request) :
  ∃ r' status reply,
    handleToolExecution env toolManager interceptorChain toolName params method path r
      = (Ok tt, r')
    ∧ res r' = res r ++ [(status, reply)].
Proof.
  run. unfold getToolByName.
  destruct (toolManager !! toolName) as [tool|]; cbn; [|by eexists _, _, _].
  destruct (processBeforeRequest interceptorChain _ (world r)) as [[[ctx|]|e] w1];
    cbn; [| by eexists _, _, _ | by eexists _, _, _].
  destruct (cachedResponse ctx) as [cached|]; cbn; [by eexists _, _, _|].
  destruct (handle tool params _) as [[result|e] w2]; cbn; [|by eexists _, _, _].
  destruct (processAfterResponse interceptorChain ctx _ w2) as [[rc|e] w3]; cbn;
    slow_cases; by eexists _, _, _.
Qed.

(** C4. A call of [handleToolExecution] returns normally.  When the
    tool is registered and the before-phase returns null, no handler is
    called and the one reply is the failure envelope "Request cancelled
    by interceptor" with status 200.  Whenever a handler is called, the
    tool is registered, the before-phase returned a context, that
    context carries no cached response, and the handler called is the
    one of the tool, once, with the parameters of the request. *)
Theorem cancellation_skips_handler (toolName : str) (params : JsValue)
    (method path : str) (r : Request) :
  ∃ r',
    handleToolExecution env toolManager interceptorChain toolName params method path r
      = (Ok tt, r')
    ∧ (∀ tool w1,
         toolManager !! toolName = Some tool →
         processBeforeRequest interceptorChain
           (initialContext toolName params method path) (world r) = (Ok None, w1) →
         handled r' = handled r
         ∧ res r' = res r ++ [(200, failure (lit "Request cancelled by interceptor"))]
         ∧ isError (failure (lit "Request cancelled by interceptor")) = Some true)
    ∧ (handled r' ≠ handled r →
       ∃ tool ctx w1,
         toolManager !! toolName = Some tool
         ∧ processBeforeRequest interceptorChain
             (initialContext toolName params method path) (world r)
           = (Ok (Some ctx), w1)
         ∧ cachedResponse ctx = None
         ∧ handled r' = handled r ++ [(name tool, params)]).
Proof.
  run. unfold getToolByName, initialContext.
  destruct (toolManager !! toolName) as [tool|] eqn:Htool; cbn.
  2:{ eexists. split; [reflexivity|]. cbn. split; [done|]. done. }
  destruct (processBeforeRequest interceptorChain _ (world r))
    as [[[ctx|]|e] w1] eqn:Hbefore; cbn.
  - destruct (cachedResponse ctx) as [cached|] eqn:Hcached; cbn.
    { eexists. split; [reflexivity|]. cbn. split; [done|]. done. }
    destruct (handle tool params _) as [[result|e] w2]; cbn.
    + destruct (processAfterResponse interceptorChain ctx _ w2) as [[rc|e] w3]; cbn;
        slow_cases;
        (eexists; split; [reflexivity|]; cbn; split; [done|];
         intros _; by eexists tool, ctx, w1).
    + eexists. split; [reflexivity|]. cbn. split; [done|].
      intros _. by eexists tool, ctx, w1.
  - eexists. split; [reflexivity|]. cbn. split; [|done].
    intros tool' w1' [= <-] [= <-]. done.
  - eexists. split; [reflexivity|]. cbn. split; [done|]. done.
Qed.

(** C7. Both entry points return normally on every call, whatever the
    handler and the interceptors do.  [executeToolDirect] returns the
    failure envelope "Unknown tool: ..." for a name that is not
    registered, and for a handler that throws the failure envelope with
    the message of the error (or "Unknown error" for a thrown value
    that is no Error).  [handleToolExecution] sends exactly one reply;
    for a name that is not registered it is the failure envelope
    "Unknown tool: ..." with status 404, and for a handler that throws
    it is the failure envelope of [handleServerError]. *)
Theorem handler_errors_become_failure_envelopes (toolName : str) (args : JsValue)
    (method path : str) (r : Request) :
  (∃ resp r',
     executeToolDirect toolManager toolName args r = (Ok resp, r')
     ∧ (toolManager !! toolName = None →
        resp = failure (lit "Unknown tool: " ++ toolName) ∧ isError resp = Some true)
     ∧ (∀ tool e w',
          toolManager !! toolName = Some tool →
          handle tool args (worldAtCall toolName (world r)) = (Throw e, w') →
          resp = failure (match e with
                          | ErrorObject m => m
                          | ThrownValue _ => lit "Unknown error"
                          end)
          ∧ isError resp = Some true))
  ∧ (∃ r' status reply,
       handleToolExecution env toolManager interceptorChain toolName args method path r
         = (Ok tt, r')
       ∧ res r' = res r ++ [(status, reply)]
       ∧ (toolManager !! toolName = None →
          status = 404 ∧ reply = failure (lit "Unknown tool: " ++ toolName)
          ∧ isError reply = Some true)
       ∧ (∀ tool ctx w1 e w2,
            toolManager !! toolName = Some tool →
            processBeforeRequest interceptorChain
              (initialContext toolName args method path) (world r)
            = (Ok (Some ctx), w1) →
            cachedResponse ctx = None →
            handle tool args (worldAtCall toolName w1) = (Throw e, w2) →
            status = serverErrorStatus env
            ∧ reply = failure (serverErrorMessage env e
                                 (lit "Error executing tool " ++ toolName))
            ∧ isError reply = Some true)).
Proof.
  split.
  - run. unfold getToolByName, worldAtCall.
    destruct (toolManager !! toolName) as [tool|] eqn:Htool; cbn.
    2:{ eexists _, _. split; [reflexivity|]. split; [done|]. done. }
    run. destruct (handle tool args _) as [[result|e] w2] eqn:Hh; cbn.
    + eexists _, _. split; [reflexivity|]. split; [done|].
      intros tool' e w' [= <-]. unfold log in Hh. cbn in Hh. rewrite Hh. done.
    + eexists _, _. split; [reflexivity|]. split; [done|].
      intros tool' e' w' [= <-]. unfold log in Hh. cbn in Hh. rewrite Hh.
      intros [= <- <-]. done.
  - run. unfold getToolByName, initialContext, worldAtCall, log. cbn [snd].
    destruct (toolManager !! toolName) as [tool|] eqn:Htool; cbn.
    2:{ eexists _, _, _. split; [reflexivity|]. cbn. split; [done|]. done. }
    destruct (processBeforeRequest interceptorChain _ (world r))
      as [[[ctx|]|e] w1] eqn:Hbefore; cbn.
    + destruct (cachedResponse ctx) as [cached|] eqn:Hcached; cbn.
      { eexists _, _, _. split; [reflexivity|]. cbn. split; [done|].
        split; [done|]. intros ? ? ? ? ? [= <-] [= <- <-]. congruence. }
      destruct (handle tool args _) as [[result|e] w2] eqn:Hh; cbn.
      * destruct (processAfterResponse interceptorChain ctx _ w2) as [[rc|e] w3]; cbn;
          slow_cases;
          (eexists _, _, _; split; [reflexivity|]; cbn; split; [done|];
           split; [done|]; intros ? ? ? ? ? [= <-] [= <- <-] _; rewrite Hh; done).
      * eexists _, _, _. split; [reflexivity|]. cbn. split; [done|].
        split; [done|]. intros ? ? ? ? ? [= <-] [= <- <-] _. rewrite Hh.
        intros [= <- <-]. done.
    + eexists _, _, _. split; [reflexivity|]. cbn. split; [done|].
      split; [done|]. intros ? ? ? ? ? _ [=].
    + eexists _, _, _. split; [reflexivity|]. cbn. split; [done|].
      split; [done|]. intros ? ? ? ? ? _ [=].
Qed.

End WithHandler.

(** [executeToolDirect] runs no interceptor phase.  With a chain whose
    before-phase returns null for the call, the direct call of the tool
    still runs the handler and returns its success envelope. *)
Lemma direct_call_ignores_cancellation :
  processBeforeRequest Samples.cancelChain
    (initialContext (lit "echo") (VScalar (VString [])) (lit "POST") (lit "/mcp/echo"))
    (world Samples.request) = (Ok None, world Samples.request)
  ∧ ∃ r',
      executeToolDirect Samples.toolManager (lit "echo") (VScalar (VString []))
        Samples.request
      = (Ok (success Samples.env (VScalar (VString (lit "ok")))), r')
      ∧ handled r' = [(lit "echo", VScalar (VString []))]
      ∧ handled r' ≠ handled Samples.request
      ∧ isError (success Samples.env (VScalar (VString (lit "ok")))) = Some false.
Proof.
  split; [reflexivity|]. eexists. split; [vm_compute; reflexivity|].
  split_and!; [reflexivity|discriminate|reflexivity].
Qed.

(** The cancellation case on the sample registry. *)
Lemma cancellation_skips_handler_witness :
  ∃ r',
    handleToolExecution Samples.env Samples.toolManager Samples.cancelChain
      (lit "echo") (VScalar (VString [])) (lit "POST") (lit "/mcp/echo") Samples.request
      = (Ok tt, r')
    ∧ handled r' = handled Samples.request
    ∧ res r' = res Samples.request
                 ++ [(200, failure (lit "Request cancelled by interceptor"))].
Proof.
  destruct (cancellation_skips_handler Samples.env Samples.toolManager Samples.cancelChain
              (lit "echo") (VScalar (VString [])) (lit "POST") (lit "/mcp/echo")
              Samples.request) as (r' & Hrun & Hcancel & _).
  exists r'. split; [exact Hrun|].
  destruct (Hcancel Samples.echo (world Samples.request)) as (Hh & Hr & _).
  - vm_compute. reflexivity.
  - reflexivity.
  - split; [exact Hh|exact Hr].
Defined.

(** The throwing handler on the sample registry, through both entry
    points. *)
Lemma handler_errors_become_failure_envelopes_witness :
  (∃ resp r',
     executeToolDirect Samples.toolManager (lit "broken") (VScalar (VString []))
       Samples.request = (Ok resp, r')
     ∧ resp = failure (lit "boom") ∧ isError resp = Some true)
  ∧ (∃ r' status reply,
       handleToolExecution Samples.env Samples.toolManager Samples.passChain
         (lit "broken") (VScalar (VString [])) (lit "POST") (lit "/mcp/broken")
         Samples.request = (Ok tt, r')
       ∧ res r' = res Samples.request ++ [(status, reply)]
       ∧ status = 500 ∧ isError reply = Some true).
Proof.
  destruct (handler_errors_become_failure_envelopes Samples.env Samples.toolManager
              Samples.passChain (lit "broken") (VScalar (VString [])) (lit "POST")
              (lit "/mcp/broken") Samples.request)
    as [(resp & r1 & Hrun1 & _ & Hthrow1) (r2 & status & reply & Hrun2 & Hres & _ & Hthrow2)].
  split.
  - exists resp, r1. split; [exact Hrun1|].
    apply (Hthrow1 Samples.broken (ErrorObject (lit "boom"))
             (worldAtCall (lit "broken") (world Samples.request))).
    + vm_compute. reflexivity.
    + reflexivity.
  - exists r2, status, reply. split; [exact Hrun2|]. split; [exact Hres|].
    destruct (Hthrow2 Samples.broken
                (initialContext (lit "broken") (VScalar (VString [])) (lit "POST")
                   (lit "/mcp/broken"))
                (world Samples.request) (ErrorObject (lit "boom"))
                (worldAtCall (lit "broken") (world Samples.request)))
      as (Hs & _ & He).
    + vm_compute. reflexivity.
    + reflexivity.
    + reflexivity.
    + reflexivity.
    + split; [exact Hs|exact He].
Defined.

(** Runs on the sample registry: a cancelled call, a call that goes
    through, a handler that throws, and a name that is not registered. *)
Example cancelled_call :
  match handleToolExecution Samples.env Samples.toolManager Samples.cancelChain
          (lit "echo") (VScalar (VString [])) (lit "POST") (lit "/mcp/echo")
          Samples.request with
  | (Ok _, r') =>
      handled r' = []
      ∧ res r' = [(200, failure (lit "Request cancelled by interceptor"))]
  | _ => False
  end.
Proof. vm_compute. split; reflexivity. Qed.

Example passed_call :
  match handleToolExecution Samples.env Samples.toolManager Samples.passChain
          (lit "echo") (VScalar (VString [])) (lit "POST") (lit "/mcp/echo")
          Samples.request with
  | (Ok _, r') =>
      handled r' = [(lit "echo", VScalar (VString []))]
      ∧ res r' = [(200, success Samples.env (VScalar (VString (lit "ok"))))]
  | _ => False
  end.
Proof. vm_compute. split; reflexivity. Qed.

Example throwing_handler :
  match handleToolExecution Samples.env Samples.toolManager Samples.passChain
          (lit "broken") (VScalar (VString [])) (lit "POST") (lit "/mcp/broken")
          Samples.request with
  | (Ok _, r') => res r' = [(500, failure (lit "Error executing tool broken"))]
  | _ => False
  end
  ∧ fst (executeToolDirect Samples.toolManager (lit "broken") (VScalar (VString []))
           Samples.request) = Ok (failure (lit "boom"))
  ∧ fst (executeToolDirect Samples.toolManager (lit "nothing") (VScalar (VString []))
           Samples.request) = Ok (failure (lit "Unknown tool: nothing")).
Proof. vm_compute. repeat split; reflexivity. Qed.

End RequestHandlerFacts.

(** ** Further properties of range replace *)

Module RangeReplaceMore.
Import RangeReplace JsFacts RangeReplaceFacts.

(** *** Joining with CRLF what was split *)

Lemma join_cons_cons (sep : str) (c : ascii) (h : str) (t : list str) :
  join sep ((c :: h) :: t) = c :: join sep (h :: t).
Proof. by destruct t. Qed.

Lemma bareLF_flag (b1 b2 : bool) (s : str) :
  startsWith [LF] s = false → bareLF b1 s = bareLF b2 s.
Proof.
  destruct s as [|d s]; [done|]. simpl.
  destruct (decide (LF = d)) as [<-|Hd]; [done|]. intros _.
  rewrite (bool_decide_eq_false_2 (d = LF)) by congruence. done.
Qed.

Lemma join_CRLF_splitLF_aux (n : nat) (t : str) :
  (length t <= n)%nat → bareLF false t = false →
  join CRLF (splitLF (replaceCRLF t)) = t.
Proof.
  revert t. induction n as [|n IH]; intros t Hlen Hbare.
  - destruct t; [done|simpl in Hlen; lia].
  - destruct t as [|c s]; [done|]. simpl in Hlen.
    rewrite replaceCRLF_unfold.
    destruct (startsWith CRLF (c :: s)) eqn:Hstart.
    + apply startsWith_prefix in Hstart as [rest Hrest].
      injection Hrest as -> ->. change (drop 1 (LF :: rest)) with rest.
      change (splitLF (LF :: replaceCRLF rest)) with ([] :: splitLF (replaceCRLF rest)).
      pose proof (splitLF_length (replaceCRLF rest)) as Hne.
      destruct (splitLF (replaceCRLF rest)) as [|h tl] eqn:E; [simpl in Hne; lia|].
      change (join CRLF ([] :: h :: tl)) with (CR :: LF :: join CRLF (h :: tl)).
      rewrite <- E, IH; [done|simpl in Hlen; lia|]. exact Hbare.
    + simpl in Hbare. apply orb_false_elim in Hbare as [Hc Hrest].
      rewrite andb_true_r in Hc. apply bool_decide_eq_false in Hc.
      simpl. rewrite decide_False by done.
      pose proof (splitLF_length (replaceCRLF s)) as Hne.
      destruct (splitLF (replaceCRLF s)) as [|h tl] eqn:E; [simpl in Hne; lia|].
      rewrite join_cons_cons, <- E, IH; [done|lia|].
      rewrite <- Hrest. apply bareLF_flag.
      destruct s as [|d s]; [done|]. simpl in Hstart |- *.
      destruct (decide (LF = d)) as [<-|]; [|done].
      destruct (decide (CR = c)) as [<-|Hc']; [done|].
      rewrite bool_decide_eq_false_2 in Hrest by congruence.
      simpl in Hrest. done.
Qed.

(** A text in which every LF follows a CR is given back by normalising,
    splitting and joining with CRLF. *)
Lemma join_CRLF_splitLF (t : str) :
  bareLF false t = false → join CRLF (splitLF (replaceCRLF t)) = t.
Proof. by apply (join_CRLF_splitLF_aux (length t)). Qed.


(** *** The validation *)

Lemma lineFeeds_cons (c : ascii) (s : str) :
  lineFeeds (c :: s) = if decide (c = LF) then S (lineFeeds s) else lineFeeds s.
Proof.
  unfold lineFeeds. rewrite filter_cons. by destruct (decide (c = LF)).
Qed.

(** A text has one line more than it has LF characters. *)
Lemma splitLF_lineFeeds (s : str) : length (splitLF s) = S (lineFeeds s).
Proof.
  induction s as [|c s IH]; [done|].
  rewrite lineFeeds_cons. simpl. destruct (decide (c = LF)) as [->|Hc].
  - simpl. by rewrite IH.
  - rewrite <- IH. pose proof (splitLF_length s) as Hne.
    by destruct (splitLF s).
Qed.

Lemma lineFeeds_replaceCRLF_aux (n : nat) (s : str) :
  (length s <= n)%nat → lineFeeds (replaceCRLF s) = lineFeeds s.
Proof.
  revert s. induction n as [|n IH]; intros s Hlen.
  - destruct s; [done|simpl in Hlen; lia].
  - destruct s as [|c s]; [done|]. simpl in Hlen.
    rewrite replaceCRLF_unfold.
    destruct (startsWith CRLF (c :: s)) eqn:Hstart.
    + apply startsWith_prefix in Hstart as [rest Hrest].
      injection Hrest as -> ->. change (drop 1 (LF :: rest)) with rest.
      rewrite !lineFeeds_cons. rewrite (decide_False (P := CR = LF)) by done.
      rewrite decide_True by done. rewrite IH; [done|simpl in Hlen; lia].
    + rewrite !lineFeeds_cons. rewrite IH by lia. done.
Qed.

(** Normalising CRLF to LF keeps the number of LF characters. *)
Lemma lineFeeds_replaceCRLF (s : str) : lineFeeds (replaceCRLF s) = lineFeeds s.
Proof. by apply (lineFeeds_replaceCRLF_aux (length s)). Qed.

(** X1. The range is rejected as invalid exactly when [startLine < 1],
    or [endLine] is greater than the number of lines of the normalised
    text, or [startLine > endLine]; the replacement and the offset play
    no role in the test.  The number of lines is the number of LF
    characters of the file plus one: a CRLF counts once, a CR alone ends
    no line, and a file that ends with a line break has an empty last
    line. *)
Theorem range_validation_exact (currentContent : str) (startLine endLine : Z)
    (content : str) (offset : Z) :
  (transform currentContent startLine endLine content offset = InvalidLineNumbers
   ↔ startLine < 1
     ∨ endLine > Z.of_nat (length (splitLF (replaceCRLF currentContent)))
     ∨ startLine > endLine)
  ∧ length (splitLF (replaceCRLF currentContent)) = S (lineFeeds currentContent)
  ∧ (transform currentContent startLine endLine content offset = InvalidLineNumbers
     ↔ startLine < 1
       ∨ endLine > Z.of_nat (lineFeeds currentContent) + 1
       ∨ startLine > endLine).
Proof.
  assert (length (splitLF (replaceCRLF currentContent)) = S (lineFeeds currentContent))
    as Hcount by (by rewrite splitLF_lineFeeds, lineFeeds_replaceCRLF).
  assert (transform currentContent startLine endLine content offset = InvalidLineNumbers
          ↔ startLine < 1
            ∨ endLine > Z.of_nat (length (splitLF (replaceCRLF currentContent)))
            ∨ startLine > endLine) as Hiff.
  { destruct (decide (startLine < 1
                      ∨ endLine
                        > Z.of_nat (length (splitLF (replaceCRLF currentContent)))
                      ∨ startLine > endLine)) as [Hbad|Hgood].
    - by rewrite transform_invalid.
    - destruct (transform_valid currentContent startLine endLine content offset)
        as [newContent ->]; [lia|lia|].
      split; [discriminate|done]. }
  split; [exact Hiff|]. split; [exact Hcount|].
  rewrite Hiff, Hcount. lia.
Qed.

(** A file of two lines that ends with a line break has three lines. *)
Example range_validation_trailing_line_break :
  transform (lit "a" ++ CRLF ++ lit "b" ++ [LF]) 3 3 (lit "c") 0
    = NewContent (lit "a" ++ CRLF ++ lit "b" ++ CRLF ++ lit "c")
  ∧ transform (lit "a" ++ CRLF ++ lit "b" ++ [LF]) 4 4 (lit "c") 0 = InvalidLineNumbers
  ∧ transform (lit "a" ++ [CR] ++ lit "b") 2 2 (lit "c") 0 = InvalidLineNumbers.
Proof. repeat split. Qed.

(** X2. The empty file has one empty line: the range 1 to 1 is the only
    valid one, and it gives the normalised replacement whatever the
    offset is. *)
Theorem empty_file_one_line (startLine endLine : Z) (content : str) (offset : Z) :
  transform [] 1 1 content offset = NewContent (replaceCRLF content)
  ∧ (¬ (startLine = 1 ∧ endLine = 1) →
     transform [] startLine endLine content offset = InvalidLineNumbers).
Proof.
  split.
  - rewrite (transform_single [] 1 content offset []); [|lia|done].
    cbn [Z.sub Z.to_nat Pos.pred_double Z.pos_sub].
    rewrite take_nil, drop_nil, app_nil_r. done.
  - intros Hne. apply transform_invalid.
    change (length (splitLF (replaceCRLF []))) with 1%nat. lia.
Qed.

(** *** The multi-line branch *)

(** X3. For a valid range of more than one line the result is made of
    the lines before the range, the lines of the normalised replacement
    and the lines after the range, joined with the detected line ending.
    The offset plays no role. *)
Theorem multi_line_replace_lines (currentContent : str) (startLine endLine : Z)
    (content : str) (offset : Z) :
  1 ≤ startLine → startLine < endLine →
  endLine ≤ Z.of_nat (length (splitLF (replaceCRLF currentContent))) →
  transform currentContent startLine endLine content offset
    = NewContent
        (join (originalLineEnding currentContent)
           (take (Z.to_nat (startLine - 1)) (splitLF (replaceCRLF currentContent))
              ++ splitLF (replaceCRLF content)
              ++ drop (Z.to_nat endLine) (splitLF (replaceCRLF currentContent))))
  ∧ ∀ offset', transform currentContent startLine endLine content offset'
               = transform currentContent startLine endLine content offset.
Proof.
  intros H1 H2 H3.
  assert (∀ o, transform currentContent startLine endLine content o
               = NewContent
                   (join (originalLineEnding currentContent)
                      (take (Z.to_nat (startLine - 1))
                         (splitLF (replaceCRLF currentContent))
                         ++ splitLF (replaceCRLF content)
                         ++ drop (Z.to_nat endLine)
                              (splitLF (replaceCRLF currentContent))))) as Hall.
  { intros o. unfold transform.
    rewrite decide_False by lia. rewrite decide_False by lia.
    unfold splice. rewrite decide_False by lia.
    f_equal. f_equal. f_equal; [f_equal; lia|]. f_equal. f_equal. lia. }
  split; [apply Hall|]. intros offset'. by rewrite !Hall.
Qed.

Lemma multi_line_replace_lines_witness :
  transform (lit "a" ++ [LF] ++ lit "b" ++ [LF] ++ lit "c") 1 2 (lit "x") 7
    = NewContent
        (join (originalLineEnding (lit "a" ++ [LF] ++ lit "b" ++ [LF] ++ lit "c"))
           (take (Z.to_nat (1 - 1))
              (splitLF (replaceCRLF (lit "a" ++ [LF] ++ lit "b" ++ [LF] ++ lit "c")))
              ++ splitLF (replaceCRLF (lit "x"))
              ++ drop (Z.to_nat 2)
                   (splitLF (replaceCRLF (lit "a" ++ [LF] ++ lit "b" ++ [LF] ++ lit "c")))))
  ∧ ∀ offset', transform (lit "a" ++ [LF] ++ lit "b" ++ [LF] ++ lit "c") 1 2 (lit "x") offset'
               = transform (lit "a" ++ [LF] ++ lit "b" ++ [LF] ++ lit "c") 1 2 (lit "x") 7.
Proof.
  apply (multi_line_replace_lines (lit "a" ++ [LF] ++ lit "b" ++ [LF] ++ lit "c")
           1 2 (lit "x") 7).
  - lia.
  - lia.
  - change (2 ≤ 3). lia.
Defined.

(** X4. In a file with CRLF line endings the multi-line branch writes
    CRLF line endings only: in the result every LF follows a CR, also
    when the replacement is given with LF or mixed line endings. *)
Theorem multi_line_replace_no_bare_LF (currentContent : str) (startLine endLine : Z)
    (content : str) (offset : Z) :
  1 ≤ startLine → startLine < endLine →
  endLine ≤ Z.of_nat (length (splitLF (replaceCRLF currentContent))) →
  includes CRLF currentContent = true →
  ∃ newContent,
    transform currentContent startLine endLine content offset = NewContent newContent
    ∧ bareLF false newContent = false.
Proof.
  intros H1 H2 H3 Hcrlf.
  destruct (multi_line_keeps_line_ending currentContent startLine endLine content offset)
    as (ls & Heq & _ & Hbare); [done..|].
  eexists. split; [exact Heq|]. apply Hbare.
  unfold originalLineEnding. by rewrite Hcrlf.
Qed.

Lemma multi_line_replace_no_bare_LF_witness :
  ∃ newContent,
    transform (lit "a" ++ CRLF ++ lit "b" ++ CRLF ++ lit "c") 2 3
      (lit "x" ++ [LF] ++ lit "y") 0 = NewContent newContent
    ∧ bareLF false newContent = false.
Proof.
  apply (multi_line_replace_no_bare_LF (lit "a" ++ CRLF ++ lit "b" ++ CRLF ++ lit "c")
           2 3 (lit "x" ++ [LF] ++ lit "y") 0).
  - lia.
  - lia.
  - change (3 ≤ 3). lia.
  - reflexivity.
Defined.

(** *** Edits that keep the rest of the file *)

(** X5. Replacing a line by its own content at offset 0 gives a text
    with the same lines.  In a file with one kind of line ending (no CRLF
    at all, or no LF without a CR before it) it gives the file back,
    character by character.  In a file that has a CRLF the result is the
    file with every line ending rewritten to CRLF: no LF without a CR
    before it is left, so a file with both kinds of line ending is
    changed. *)
Theorem replace_line_by_itself (currentContent : str) (n : Z) (line : str) :
  1 ≤ n →
  splitLF (replaceCRLF currentContent) !! Z.to_nat (n - 1) = Some line →
  ∃ newContent,
    transform currentContent n n line 0 = NewContent newContent
    ∧ replaceCRLF newContent = replaceCRLF currentContent
    ∧ (includes CRLF currentContent = false ∨ bareLF false currentContent = false →
       newContent = currentContent)
    ∧ (includes CRLF currentContent = true →
       newContent = replaceLF CRLF (replaceCRLF currentContent)
       ∧ bareLF false newContent = false)
    ∧ (includes CRLF currentContent = true → bareLF false currentContent = true →
       newContent ≠ currentContent).
Proof.
  intros Hn Hline.
  assert (LF ∉ line) as Hl
    by exact (Forall_lookup_1 _ _ _ _ (splitLF_noLF _) Hline).
  rewrite (transform_single currentContent n line 0 line Hn Hline).
  rewrite replaceCRLF_noLF by done.
  change (Z.to_nat 0) with 0%nat. rewrite take_0, Z.add_0_l, Nat2Z.id.
  cbn [app]. rewrite drop_all, app_nil_r.
  rewrite list_insert_id by done.
  eexists. split; [reflexivity|].
  assert (includes CRLF currentContent = true →
          join (originalLineEnding currentContent) (splitLF (replaceCRLF currentContent))
          = replaceLF CRLF (replaceCRLF currentContent)) as Hcrlf.
  { intros E. unfold originalLineEnding. rewrite E. apply join_splitLF_replaceLF. }
  assert (includes CRLF currentContent = false →
          join (originalLineEnding currentContent) (splitLF (replaceCRLF currentContent))
          = currentContent) as Hlf.
  { intros E. unfold originalLineEnding. rewrite E.
    rewrite replaceCRLF_id by done. apply join_splitLF. }
  split_and!.
  - destruct (includes CRLF currentContent) eqn:E.
    + rewrite Hcrlf by done. apply replaceCRLF_replaceLF_CRLF.
    + by rewrite Hlf.
  - intros Hstyle. destruct (includes CRLF currentContent) eqn:E.
    + destruct Hstyle as [?|Hbare]; [done|].
      unfold originalLineEnding. rewrite E. by apply join_CRLF_splitLF.
    + by apply Hlf.
  - intros E. rewrite Hcrlf by done. split; [done|]. apply bareLF_replaceLF_CRLF.
  - intros E Hbare. rewrite Hcrlf by done. intros Heq.
    rewrite <- Heq, bareLF_replaceLF_CRLF in Hbare. discriminate Hbare.
Qed.

(** A file with both kinds of line ending: line 1 replaced by itself
    rewrites the LF after line 2 to CRLF. *)
Lemma replace_line_by_itself_witness :
  ∃ newContent,
    transform (lit "a" ++ CRLF ++ lit "b" ++ [LF] ++ lit "c") 1 1 (lit "a") 0
      = NewContent newContent
    ∧ newContent = lit "a" ++ CRLF ++ lit "b" ++ CRLF ++ lit "c"
    ∧ bareLF false newContent = false
    ∧ newContent ≠ lit "a" ++ CRLF ++ lit "b" ++ [LF] ++ lit "c".
Proof.
  destruct (replace_line_by_itself (lit "a" ++ CRLF ++ lit "b" ++ [LF] ++ lit "c")
              1 (lit "a")) as (newContent & Hrun & _ & _ & Hcrlf & Hne).
  - lia.
  - reflexivity.
  - exists newContent. destruct Hcrlf as [Heq Hbare]; [reflexivity|].
    split; [exact Hrun|]. split; [exact Heq|]. split; [exact Hbare|].
    apply Hne; reflexivity.
Defined.

(** A file with CRLF line endings only is given back as it is. *)
Example replace_line_by_itself_same :
  transform (lit "a" ++ CRLF ++ lit "b" ++ CRLF ++ lit "c") 2 2 (lit "b") 0
    = NewContent (lit "a" ++ CRLF ++ lit "b" ++ CRLF ++ lit "c").
Proof. reflexivity. Qed.

Lemma spliced_endsWithCR (line r : str) (offset : Z) :
  CR ∉ r →
  endsWithCR (take (Z.to_nat offset) line ++ r
                ++ drop (Z.to_nat (offset + Z.of_nat (length r))) line) = true →
  endsWithCR line = true.
Proof.
  intros Hr. unfold endsWithCR. rewrite !bool_decide_eq_true.
  set (b := Z.to_nat (offset + Z.of_nat (length r))).
  destruct (decide (b < length line)%nat) as [Hlt|Hge].
  - rewrite app_assoc, last_app, last_drop_lt by done.
    destruct (last line) eqn:E; [done|].
    apply last_None in E. subst. simpl in Hlt. lia.
  - rewrite drop_ge by lia. rewrite app_nil_r.
    destruct r as [|c r].
    + rewrite app_nil_r. rewrite take_ge; [done|]. subst b. simpl in Hge. lia.
    + rewrite last_app. destruct (last (c :: r)) as [x|] eqn:E.
      * intros [= ->]. apply last_Some in E as [r' E].
        exfalso. apply Hr. rewrite E. apply elem_of_app. right. apply list_elem_of_here.
      * by apply last_None in E.
Qed.

(** X6. A single-line replacement whose text holds no CR and no LF
    changes that line only: read again, the result has the same line
    ending and the same lines as before, but for line [n]; this holds for
    every offset. *)
Theorem single_line_replace_changes_one_line (currentContent : str) (n : Z)
    (content : str) (offset : Z) (line : str) :
  1 ≤ n →
  splitLF (replaceCRLF currentContent) !! Z.to_nat (n - 1) = Some line →
  CR ∉ content → LF ∉ content →
  ∃ once newLine,
    transform currentContent n n content offset = NewContent once
    ∧ originalLineEnding once = originalLineEnding currentContent
    ∧ splitLF (replaceCRLF once)
      = <[Z.to_nat (n - 1) := newLine]> (splitLF (replaceCRLF currentContent)).
Proof.
  intros Hn Hline HCR HLF.
  pose proof (transform_single currentContent n content offset line Hn Hline) as H1.
  rewrite (replaceCRLF_noLF content) in H1 by done.
  set (newLine := take (Z.to_nat offset) line ++ content
                    ++ drop (Z.to_nat (offset + Z.of_nat (length content))) line) in *.
  assert (LF ∉ line) as Hl
    by exact (Forall_lookup_1 _ _ _ _ (splitLF_noLF _) Hline).
  assert (LF ∉ newLine) as Hnl.
  { unfold newLine. rewrite !elem_of_app. intros [H|[H|H]]; [|done|].
    - apply Hl. by eapply (subseteq_take _ line).
    - apply Hl. by eapply (subseteq_drop _ line). }
  eexists _, newLine. split; [exact H1|].
  apply reread_lines.
  - apply length_insert.
  - apply Forall_insert; [apply splitLF_noLF|done].
  - intros Hno.
    apply (joinNoCRLF_insert _ _ line newLine); [done| | |].
    + by apply includes_CRLF_noLF.
    + by apply spliced_endsWithCR.
    + rewrite replaceCRLF_id by done.
      rewrite <- (join_splitLF currentContent), includes_CRLF_join_LF in Hno.
      by apply negb_false_iff in Hno.
Qed.

Lemma single_line_replace_changes_one_line_witness :
  ∃ once newLine,
    transform (lit "a" ++ [LF] ++ lit "bcd" ++ [LF] ++ lit "e") 2 2 (lit "XY") (-1)
      = NewContent once
    ∧ originalLineEnding once
      = originalLineEnding (lit "a" ++ [LF] ++ lit "bcd" ++ [LF] ++ lit "e")
    ∧ splitLF (replaceCRLF once)
      = <[Z.to_nat (2 - 1) := newLine]>
          (splitLF (replaceCRLF (lit "a" ++ [LF] ++ lit "bcd" ++ [LF] ++ lit "e"))).
Proof.
  apply (single_line_replace_changes_one_line
           (lit "a" ++ [LF] ++ lit "bcd" ++ [LF] ++ lit "e") 2 (lit "XY") (-1) (lit "bcd")).
  - lia.
  - reflexivity.
  - by vm_compute; intros H; repeat (apply elem_of_cons in H as [H|H]; [discriminate H|]);
      apply elem_of_nil in H.
  - by vm_compute; intros H; repeat (apply elem_of_cons in H as [H|H]; [discriminate H|]);
      apply elem_of_nil in H.
Defined.

End RangeReplaceMore.

(** ** Further properties of the literal replace-all *)

Module ReplaceTextMore.
Import ReplaceText JsFacts ReplaceTextFacts.

(** *** The escaped pattern *)

Lemma escapeRegExp_length (s : str) :
  (length s <= length (escapeRegExp s) <= 2 * length s)%nat.
Proof.
  induction s as [|c s IH]; simpl; [lia|].
  destruct (isSyntaxChar c); simpl; lia.
Qed.

Lemma escapeRegExp_plain (s : str) :
  Forall (λ c, isSyntaxChar c = false) s → escapeRegExp s = s.
Proof.
  induction 1 as [|c s Hc Hs IH]; [done|]. simpl. by rewrite Hc, IH.
Qed.

(** X7. [escapeRegExp] makes a pattern that stands for the given text
    itself: compiled, the escaped text is the text, character by character,
    whatever operators the text holds.  A text without syntax characters
    is not changed, and no text grows to more than twice its length. *)
Theorem escapeRegExp_is_literal (s : str) :
  compileLiteral (escapeRegExp s) = Some s
  ∧ (Forall (λ c, isSyntaxChar c = false) s → escapeRegExp s = s)
  ∧ (length s <= length (escapeRegExp s) <= 2 * length s)%nat.
Proof.
  split_and!.
  - apply compileLiteral_escapeRegExp.
  - apply escapeRegExp_plain.
  - apply escapeRegExp_length.
  - apply escapeRegExp_length.
Qed.

(** X8. The replacement fails with "no occurrences" exactly when the
    normalised old text is not a part of the normalised content; the
    pattern built from the old text always compiles. *)
Theorem not_found_exactly (decoded oldText newText : str) :
  (transform decoded oldText newText = NoOccurrences
   ↔ ¬ ∃ before after,
         replaceCRLForCR decoded = before ++ replaceCRLForCR oldText ++ after)
  ∧ transform decoded oldText newText ≠ SyntaxError.
Proof.
  split; [|apply transform_not_SyntaxError].
  rewrite transform_NoOccurrences, <- includes_substring.
  by destruct (includes _ _).
Qed.

(** *** The matches, from left to right *)

Lemma scan_length_pos (p : str) (skip pos pos' : nat) (s : str) :
  length (scan p skip pos s) = length (scan p skip pos' s).
Proof.
  revert skip pos pos'. induction s as [|c s IH]; intros skip pos pos'.
  - simpl. destruct skip; [|done]. by destruct (startsWith p []).
  - simpl. destruct skip as [|k]; [|apply IH].
    destruct (startsWith p (c :: s)); simpl; [f_equal|]; apply IH.
Qed.

Lemma scan_skip_length (p x rest : str) (pos : nat) :
  rest ≠ [] ∨ p ≠ [] →
  length (scan p (length x) pos (x ++ rest)) = length (scan p 0 0 rest).
Proof.
  intros Hne. revert pos. induction x as [|c x IH]; intros pos.
  - simpl. apply scan_length_pos.
  - simpl. destruct x as [|d x].
    + simpl. destruct rest as [|e rest].
      * destruct Hne as [?|Hp]; [done|]. simpl. by destruct p.
      * apply scan_length_pos.
    + apply IH.
Qed.

Lemma replaceFrom_skip (p new whole x rest : str) (pos : nat) :
  rest ≠ [] ∨ p ≠ [] → "$"%char ∉ new →
  replaceFrom p new whole (length x) pos (x ++ rest)
    = literalReplaceAll p new 0 rest.
Proof.
  intros Hne Hnew. rewrite replaceFrom_literal by done.
  induction x as [|c x IH]; [done|].
  simpl. destruct x as [|d x]; [|apply IH].
  simpl. destruct rest as [|e rest]; [|done].
  destruct Hne as [?|Hp]; [done|]. simpl. by destruct p.
Qed.

Lemma replaceFrom_no_match (p new whole : str) (pos : nat) (s : str) :
  includes p s = false → replaceFrom p new whole 0 pos s = s.
Proof.
  revert pos. induction s as [|c s IH]; intros pos.
  - simpl. rewrite orb_false_r. by intros ->.
  - change (includes p (c :: s)) with (startsWith p (c :: s) || includes p s).
    intros [H1 H2]%orb_false_elim. simpl. simpl in H1. rewrite H1.
    by rewrite IH.
Qed.

Lemma literalReplaceAll_match (p new : str) (c : ascii) (s : str) :
  p ≠ [] → startsWith p (c :: s) = true →
  literalReplaceAll p new 0 (c :: s)
    = new ++ literalReplaceAll p new (length p - 1) s.
Proof.
  intros Hp Hs. cbn [literalReplaceAll]. rewrite Hs.
  by rewrite decide_False.
Qed.

Lemma literalReplaceAll_no_match (p new : str) (c : ascii) (s : str) :
  startsWith p (c :: s) = false →
  literalReplaceAll p new 0 (c :: s) = c :: literalReplaceAll p new 0 s.
Proof. intros Hs. cbn [literalReplaceAll]. by rewrite Hs. Qed.

Lemma scan_match (p : str) (pos : nat) (c : ascii) (s : str) :
  startsWith p (c :: s) = true →
  scan p 0 pos (c :: s) = pos :: scan p (length p - 1) (S pos) s.
Proof. intros Hs. cbn [scan]. by rewrite Hs. Qed.

Lemma scan_no_match (p : str) (pos : nat) (c : ascii) (s : str) :
  startsWith p (c :: s) = false →
  scan p 0 pos (c :: s) = scan p 0 (S pos) s.
Proof. intros Hs. cbn [scan]. by rewrite Hs. Qed.

(** X9. How the replacement goes through the content, for a non-empty
    old text [p] and a new text without a dollar sign.  A content that
    does not include [p] is left as it is, with no match counted.  In a
    content whose first occurrence of [p] starts after the part [a], the
    part [a] is kept, the occurrence is replaced by the new text, and the
    replacement goes on in the rest of the content after that
    occurrence: matches are taken from left to right and do not overlap,
    and each counts once. *)
Theorem replaceAll_left_to_right (p new a b : str) :
  p ≠ [] → "$"%char ∉ new →
  (∀ i, (i < length a)%nat → startsWith p (drop i (a ++ p ++ b)) = false) →
  replaceAll p new (a ++ p ++ b) = a ++ new ++ replaceAll p new b
  ∧ matchCount p (a ++ p ++ b) = S (matchCount p b)
  ∧ (∀ s, includes p s = false → replaceAll p new s = s ∧ matchCount p s = 0%nat).
Proof.
  intros Hp Hnew Hfirst. split_and!.
  - unfold replaceAll. rewrite !replaceFrom_literal by done.
    induction a as [|x a IH].
    + destruct p as [|c p'] eqn:Ep; [done|]. rewrite <- Ep in *.
      assert (startsWith p (c :: (p' ++ b)) = true) as Hs.
      { apply startsWith_prefix. exists b. by rewrite Ep. }
      assert (p ++ b = c :: (p' ++ b)) as Hpb by by rewrite Ep.
      cbn [app]. rewrite Hpb, literalReplaceAll_match by done.
      f_equal.
      assert (length p - 1 = length p')%nat as -> by (rewrite Ep; simpl; lia).
      rewrite <- (replaceFrom_literal p new [] (length p') 0) by done.
      rewrite replaceFrom_skip; [done|by right|done].
    + change ((x :: a) ++ p ++ b) with (x :: (a ++ p ++ b)).
      pose proof (Hfirst 0%nat ltac:(simpl; lia)) as H0.
      change (drop 0 ((x :: a) ++ p ++ b)) with (x :: (a ++ p ++ b)) in H0.
      rewrite literalReplaceAll_no_match by done.
      cbn [app]. f_equal. apply IH.
      intros i Hi. apply (Hfirst (S i)). simpl. lia.
  - unfold matchCount, matchIndices.
    enough (∀ pos, length (scan p 0 pos (a ++ p ++ b)) = S (length (scan p 0 0 b)))
      as Hall by apply Hall.
    induction a as [|x a IH]; intros pos.
    + destruct p as [|c p'] eqn:Ep; [done|]. rewrite <- Ep in *.
      assert (startsWith p (c :: (p' ++ b)) = true) as Hs.
      { apply startsWith_prefix. exists b. by rewrite Ep. }
      assert (p ++ b = c :: (p' ++ b)) as Hpb by by rewrite Ep.
      cbn [app]. rewrite Hpb, scan_match by done.
      cbn [length]. f_equal.
      assert (length p - 1 = length p')%nat as -> by (rewrite Ep; simpl; lia).
      rewrite scan_skip_length by (by right). apply scan_length_pos.
    + change ((x :: a) ++ p ++ b) with (x :: (a ++ p ++ b)).
      pose proof (Hfirst 0%nat ltac:(simpl; lia)) as H0.
      change (drop 0 ((x :: a) ++ p ++ b)) with (x :: (a ++ p ++ b)) in H0.
      rewrite scan_no_match by done. apply IH.
      intros i Hi. apply (Hfirst (S i)). simpl. lia.
  - intros s Hs. split.
    + by apply replaceFrom_no_match.
    + by apply matchCount_zero.
Qed.

Lemma replaceAll_left_to_right_witness :
  replaceAll (lit "aa") (lit "b") (lit "x" ++ lit "aa" ++ lit "a")
    = lit "x" ++ lit "b" ++ replaceAll (lit "aa") (lit "b") (lit "a")
  ∧ matchCount (lit "aa") (lit "x" ++ lit "aa" ++ lit "a")
    = S (matchCount (lit "aa") (lit "a"))
  ∧ (∀ s, includes (lit "aa") s = false →
          replaceAll (lit "aa") (lit "b") s = s ∧ matchCount (lit "aa") s = 0%nat).
Proof.
  apply (replaceAll_left_to_right (lit "aa") (lit "b") (lit "x") (lit "a")).
  - discriminate.
  - by vm_compute; intros H; repeat (apply elem_of_cons in H as [H|H]; [discriminate H|]);
      apply elem_of_nil in H.
  - intros i Hi. change (length (lit "x")) with 1%nat in Hi.
    assert (i = 0%nat) as -> by lia. reflexivity.
Defined.


(** *** The empty old text *)

Lemma scan_empty_length (pos : nat) (s : str) :
  length (scan [] 0 pos s) = S (length s).
Proof.
  revert pos. induction s as [|c s IH]; intros pos; [done|].
  cbn [scan startsWith length Nat.sub]. by rewrite IH.
Qed.

Lemma literalReplaceAll_empty (new s : str) :
  literalReplaceAll [] new 0 s = new ++ flat_map (λ c, c :: new) s.
Proof.
  induction s as [|c s IH]; [by rewrite app_nil_r|].
  cbn [literalReplaceAll startsWith length Nat.sub flat_map].
  rewrite decide_True by done. by rewrite IH.
Qed.

(** X10. An empty old text is found at every position of the content,
    also at its end: the replacement never fails with "no occurrences",
    the count is the length of the normalised content plus one, and a new
    text without a dollar sign is put before every character and at the
    end. *)
Theorem empty_old_text_matches_everywhere (decoded newText : str) :
  (∃ finalContent,
     transform decoded [] newText
       = Replaced finalContent (S (length (replaceCRLForCR decoded))))
  ∧ ("$"%char ∉ newText →
     transform decoded [] newText
       = Replaced
           (replaceLF (if includes CRLF decoded then CRLF else [LF])
              (replaceCRLForCR newText
                 ++ flat_map (λ c, c :: replaceCRLForCR newText)
                      (replaceCRLForCR decoded)))
           (S (length (replaceCRLForCR decoded)))).
Proof.
  assert (∀ s : str, test [] s = true) as Htest by (intros [|? ?]; done).
  split.
  - unfold transform. cbn [replaceCRLForCR escapeRegExp compileLiteral].
    rewrite Htest. cbn [negb]. eexists. f_equal.
    unfold matchCount, matchIndices. apply scan_empty_length.
  - intros Hnew. unfold transform. cbn [replaceCRLForCR escapeRegExp compileLiteral].
    rewrite Htest. cbn [negb]. f_equal.
    + unfold replaceAll.
      rewrite replaceFrom_literal by by apply replaceCRLForCR_no_dollar.
      by rewrite literalReplaceAll_empty.
    + unfold matchCount, matchIndices. apply scan_empty_length.
Qed.

Lemma empty_old_text_matches_everywhere_witness :
  transform (lit "abc") [] (lit "X") = Replaced (lit "XaXbXcX") 4.
Proof.
  destruct (empty_old_text_matches_everywhere (lit "abc") (lit "X")) as [_ H].
  rewrite H; [reflexivity|].
  by vm_compute; intros H'; repeat (apply elem_of_cons in H' as [H'|H']; [discriminate H'|]);
    apply elem_of_nil in H'.
Defined.

(** *** The line endings of the result *)

Lemma getSubstitution_noCR_aux (n : nat) (matched before after replacement : str) :
  (length replacement <= n)%nat →
  CR ∉ matched → CR ∉ before → CR ∉ after → CR ∉ replacement →
  CR ∉ getSubstitution matched before after replacement.
Proof.
  intros Hlen Hm Hb Ha. revert replacement Hlen.
  induction n as [|n IH]; intros r Hlen Hr.
  - destruct r; [apply not_elem_of_nil|simpl in Hlen; lia].
  - destruct r as [|c r]; [apply not_elem_of_nil|].
    apply not_elem_of_cons in Hr as [Hc Hr]. simpl in Hlen.
    cbn [getSubstitution].
    destruct (decide (c = "$"%char)).
    + destruct r as [|d r]; [by apply not_elem_of_cons|].
      pose proof Hr as Hr'. apply not_elem_of_cons in Hr' as [Hd Hr'].
      simpl in Hlen.
      assert (CR ∉ getSubstitution matched before after r)
        by (apply IH; [lia|done]).
      repeat case_decide.
      * by apply not_elem_of_cons.
      * by apply not_elem_of_app.
      * by apply not_elem_of_app.
      * by apply not_elem_of_app.
      * apply not_elem_of_cons. split; [done|]. apply IH; [simpl; lia|done].
    + apply not_elem_of_cons. split; [done|]. apply IH; [lia|done].
Qed.

Lemma replaceFrom_noCR (p replacement whole : str) (skip pos : nat) (s : str) :
  CR ∉ whole → CR ∉ s → CR ∉ replacement →
  CR ∉ replaceFrom p replacement whole skip pos s.
Proof.
  intros Hw Hs Hr. revert skip pos.
  assert (∀ (pos : nat) (s' : str), CR ∉ s' →
            CR ∉ getSubstitution (take (length p) s') (take pos whole)
                   (drop (pos + length p) whole) replacement) as Hsub.
  { intros pos s' Hs'. apply (getSubstitution_noCR_aux (length replacement)); [done| | | |done].
    - intros H. apply Hs'. by eapply (subseteq_take _ s').
    - intros H. apply Hw. by eapply (subseteq_take _ whole).
    - intros H. apply Hw. by eapply (subseteq_drop _ whole). }
  induction s as [|c s IH]; intros skip pos.
  - cbn [replaceFrom]. destruct skip; [|apply not_elem_of_nil].
    destruct (startsWith p []); [by apply Hsub|apply not_elem_of_nil].
  - pose proof Hs as Hs'. apply not_elem_of_cons in Hs' as [Hc Hs'].
    cbn [replaceFrom]. destruct skip as [|k]; [|by apply IH].
    destruct (startsWith p (c :: s)).
    + rewrite !not_elem_of_app. split_and!.
      * by apply Hsub.
      * destruct (decide (p = [])); [|apply not_elem_of_nil].
        apply not_elem_of_cons. split; [done|apply not_elem_of_nil].
      * by apply IH.
    + apply not_elem_of_cons. split; [done|by apply IH].
Qed.

(** X11. What the replacement writes has one kind of line ending,
    whatever the content, the old and the new text are.  When the file
    held a CRLF, every LF of the result follows a CR; when it held none,
    the result holds no CR at all. *)
Theorem replaced_content_line_endings (decoded oldText newText finalContent : str)
    (replacementCount : nat) :
  transform decoded oldText newText = Replaced finalContent replacementCount →
  (includes CRLF decoded = true → bareLF false finalContent = false)
  ∧ (includes CRLF decoded = false → CR ∉ finalContent).
Proof.
  unfold transform. rewrite compileLiteral_escapeRegExp.
  destruct (negb (test _ _)); [done|]. intros [= <- _].
  split; intros ->.
  - apply bareLF_replaceLF_CRLF.
  - rewrite replaceLF_LF. unfold replaceAll.
    apply replaceFrom_noCR; apply replaceCRLForCR_noCR.
Qed.

Lemma replaced_content_line_endings_witness :
  (includes CRLF (lit "a" ++ CRLF ++ lit "b" ++ [CR] ++ lit "c") = true →
   bareLF false (lit "x" ++ CRLF ++ CRLF ++ lit "y" ++ CRLF ++ lit "c") = false)
  ∧ (includes CRLF (lit "a" ++ CRLF ++ lit "b" ++ [CR] ++ lit "c") = false →
     CR ∉ lit "x" ++ CRLF ++ CRLF ++ lit "y" ++ CRLF ++ lit "c").
Proof.
  apply (replaced_content_line_endings (lit "a" ++ CRLF ++ lit "b" ++ [CR] ++ lit "c")
           (lit "a" ++ [LF] ++ lit "b") (lit "x" ++ [LF] ++ [CR] ++ lit "y") _ 1).
  reflexivity.
Defined.

End ReplaceTextMore.

(** ** Further properties of the file tools *)

Module FileToolsMore.
Import Collaborators JsFacts Protocol EventLoop FileToolsFacts.

(** *** GetFileTextByPathTool *)

(** X12. An encoding name other than utf-8 or utf8, in any letter case,
    is refused before the file is read: the tool returns the failure
    envelope and the world is what it was, also when the file does not
    exist.  No encoding, or the empty name, is accepted. *)
Theorem unsupported_encoding_rejected (env : Env) (absolutePath : str)
    (args : GetFileTextByPathTool.Args) (w : World) (e : str) :
  GetFileTextByPathTool.encoding args = Some e →
  e ≠ [] →
  GetFileTextByPathTool.toLowerCase e ≠ lit "utf-8" →
  GetFileTextByPathTool.toLowerCase e ≠ lit "utf8" →
  GetFileTextByPathTool.execute env absolutePath args w
    = (Ok (failure
             (lit "Only 'utf-8' encoding is currently supported for get_file_text_by_path")),
       w)
  ∧ GetFileTextByPathTool.unsupportedEncoding None = false
  ∧ GetFileTextByPathTool.unsupportedEncoding (Some []) = false.
Proof.
  intros He Hne H1 H2. split; [|done].
  unfold GetFileTextByPathTool.execute, GetFileTextByPathTool.unsupportedEncoding.
  rewrite He. destruct e as [|c e]; [done|].
  rewrite !bool_decide_eq_false_2 by done. done.
Qed.

Lemma unsupported_encoding_rejected_witness :
  GetFileTextByPathTool.execute Samples.env (lit "/w/missing.txt")
    {| GetFileTextByPathTool.encoding := Some (lit "Latin1");
       GetFileTextByPathTool.maxCharacters := None |} (Samples.world (lit "abc"))
    = (Ok (failure
             (lit "Only 'utf-8' encoding is currently supported for get_file_text_by_path")),
       Samples.world (lit "abc"))
  ∧ GetFileTextByPathTool.unsupportedEncoding None = false
  ∧ GetFileTextByPathTool.unsupportedEncoding (Some []) = false.
Proof.
  apply (unsupported_encoding_rejected Samples.env (lit "/w/missing.txt") _ _ (lit "Latin1")).
  - reflexivity.
  - discriminate.
  - vm_compute. discriminate.
  - vm_compute. discriminate.
Defined.

(** *** AppendFileContentTool *)

(** X13. Appending to a path that is not in the store gives the failure
    envelope "File does not exist"; nothing is created, nothing is
    deferred and nothing is logged. *)
Theorem append_to_missing_file (env : Env) (absolutePath : str)
    (args : AppendFileContentTool.Args) (w : World) :
  files w !! absolutePath = None →
  AppendFileContentTool.execute env absolutePath args w
    = (Ok (failure (lit "File does not exist")), w).
Proof.
  intros Hnone. unfold AppendFileContentTool.execute. run.
  rewrite Hnone. done.
Qed.

Lemma append_to_missing_file_witness :
  AppendFileContentTool.execute Samples.env (lit "/w/missing.txt")
    {| AppendFileContentTool.content := lit "more" |} (Samples.world (lit "abc"))
    = (Ok (failure (lit "File does not exist")), Samples.world (lit "abc")).
Proof.
  apply (append_to_missing_file Samples.env (lit "/w/missing.txt")).
  vm_compute. reflexivity.
Defined.

(** *** ReplaceSpecificTextTool *)

(** X14. The failures of the literal replacement carry one of two fixed
    messages and never the text of the error.  "no occurrences found"
    means that the file was read and the old text is not in it;
    "replacement failed" means that the file could not be read or the
    result could not be written. *)
Theorem replace_specific_text_failures (env : Env) (absolutePath : str)
    (args : ReplaceSpecificTextTool.Args) (w : World) :
  ∃ resp w',
    ReplaceSpecificTextTool.execute env absolutePath args w = (Ok resp, w')
    ∧ (isError resp = Some true →
       (resp = failure (lit "no occurrences found")
        ∧ ∃ decoded,
            files w !! absolutePath = Some decoded
            ∧ ReplaceText.transform decoded (ReplaceSpecificTextTool.oldText args)
                (ReplaceSpecificTextTool.newText args) = ReplaceText.NoOccurrences)
       ∨ (resp = failure (lit "replacement failed")
          ∧ (files w !! absolutePath = None
             ∨ ∃ decoded finalContent count err,
                 files w !! absolutePath = Some decoded
                 ∧ ReplaceText.transform decoded (ReplaceSpecificTextTool.oldText args)
                     (ReplaceSpecificTextTool.newText args)
                   = ReplaceText.Replaced finalContent count
                 ∧ writeError env absolutePath finalContent = Some err))).
Proof.
  unfold ReplaceSpecificTextTool.execute. run.
  destruct (files w !! absolutePath) as [decoded|] eqn:Hfile; cbn.
  2:{ eexists _, _. split; [reflexivity|]. intros _. right. split; [done|]. by left. }
  destruct (ReplaceText.transform decoded _ _) as [| |finalContent count] eqn:Ht; cbn.
  - eexists _, _. split; [reflexivity|]. intros _. left. split; [done|]. eauto.
  - by apply ReplaceTextFacts.transform_not_SyntaxError in Ht.
  - rewrite Hfile. cbn.
    destruct (writeError env absolutePath finalContent) as [err|] eqn:Hw; cbn.
    + eexists _, _. split; [reflexivity|]. intros _. right. split; [done|].
      right. eauto 10.
    + eexists _, _. split; [reflexivity|]. cbn. discriminate.
Qed.

(** The two failures on the sample world: the old text is not in the
    file, and the file is not in the store. *)
Example replace_specific_text_failure_messages :
  fst (ReplaceSpecificTextTool.execute Samples.env Samples.path
         {| ReplaceSpecificTextTool.oldText := lit "foo";
            ReplaceSpecificTextTool.newText := lit "bar" |} (Samples.world (lit "abc")))
    = Ok (failure (lit "no occurrences found"))
  ∧ fst (ReplaceSpecificTextTool.execute Samples.env (lit "/w/missing.txt")
           {| ReplaceSpecificTextTool.oldText := lit "foo";
              ReplaceSpecificTextTool.newText := lit "bar" |} (Samples.world (lit "abc")))
    = Ok (failure (lit "replacement failed")).
Proof. split; vm_compute; reflexivity. Qed.

(** *** The waiting tasks of the writing tools *)

Lemma writeThenDefer_settles (env : Env) (tool absolutePath : str)
    (plan : World → option (str * JsValue)) (execute : M Response) :
  writeThenDefer env tool absolutePath plan execute →
  settles env tool absolutePath execute.
Proof.
  intros Hp w w1 resp Hq Hrun Hok.
  specialize (Hp w). destruct (plan w) as [[newContent data]|].
  2:{ destruct Hp as (resp' & w' & Hrun' & Herr & _).
      rewrite Hrun in Hrun'. injection Hrun' as <- <-.
      rewrite Hok in Herr. discriminate Herr. }
  rewrite Hrun in Hp. injection Hp as -> ->.
  exists newContent.
  unfold afterWrite, runTask. cbn [timers files cache logs editorTabs].
  rewrite Hq. cbn [app lookup list_lookup delete list_delete].
  rewrite runTimer_callback. cbn [timers files cache logs editorTabs app].
  eexists _, _. split_and!; try reflexivity.
  - apply lookup_insert_eq.
  - intros order [-> | ->]; unfold settledCache;
      destruct (updateCacheError env absolutePath newContent) eqn:Hupdate;
      cbn [runTasks]; unfold runTask;
      cbn [timers files cache logs editorTabs lookup list_lookup delete list_delete];
      unfold runTimer; run; repeat (rewrite ?Hupdate; cbn);
      (eexists; split_and!; reflexivity).
Qed.

(** X15. After a success of any of the five writing tools, with no other
    task waiting and no request coming in between: the turn of the
    callback changes neither the store nor the cache and leaves two
    waiting tasks, the started cache update and the opening of the file.
    These run in either order and never throw; when the file is opened
    first, the cache still holds what it held before the write.  Once
    both have run no task waits, the store is as the tool left it, the
    cache entry of the written path is the written content, or is removed
    when the update failed, and the file is open in an editor tab under
    the name of the tool. *)
Theorem deferred_update_settles (env : Env) (absolutePath : str) :
  (∀ args, settles env (lit "rewrite_file_content") absolutePath
             (RewriteFileContentTool.execute env absolutePath args))
  ∧ (∀ args, settles env (lit "create_new_file_with_text") absolutePath
               (CreateNewFileWithTextTool.execute env absolutePath args))
  ∧ (∀ args, settles env (lit "replace_file_content_at_position") absolutePath
               (ReplaceFileContentAtPositionTool.execute env absolutePath args))
  ∧ (∀ args, settles env (lit "append_file_content") absolutePath
               (AppendFileContentTool.execute env absolutePath args))
  ∧ (∀ args, settles env (lit "replace_specific_text") absolutePath
               (ReplaceSpecificTextTool.execute env absolutePath args)).
Proof.
  split_and!; intros args; eapply writeThenDefer_settles.
  - apply RewriteFileContent_protocol.
  - apply CreateNewFileWithText_protocol.
  - apply ReplaceFileContentAtPosition_protocol.
  - apply AppendFileContent_protocol.
  - apply ReplaceSpecificText_protocol.
Qed.

(** An append in the sample world whose file is opened before the cache
    update settles. *)
Lemma deferred_update_settles_witness :
  ∃ (newContent : str) (w1 w2 w3 w4 : World),
    files w1 !! Samples.path = Some newContent
    ∧ timers w1 = [DeferredCacheUpdate (lit "append_file_content") Samples.path newContent]
    ∧ runTask Samples.env 0 w1 = Some (Ok tt, w2)
    ∧ cache w2 = ∅
    ∧ runTask Samples.env 1 w2 = Some (Ok tt, w3)
    ∧ cache w3 = ∅
    ∧ runTasks Samples.env [1; 0]%nat w2 = Some w4
    ∧ timers w4 = []
    ∧ cache w4 = {[ Samples.path := newContent ]}
    ∧ editorTabs w4 = [(Samples.path, lit "append_file_content")].
Proof.
  destruct (deferred_update_settles Samples.env Samples.path) as (_ & _ & _ & Happend & _).
  destruct (Happend {| AppendFileContentTool.content := lit "more" |}
              (Samples.world (lit "abc"))
              (snd (AppendFileContentTool.execute Samples.env Samples.path
                      {| AppendFileContentTool.content := lit "more" |}
                      (Samples.world (lit "abc"))))
              (success Samples.env
                 (VObject [(lit "pathInProject", VString Samples.path);
                           (lit "size", VNumber 7)])))
    as (newContent & w2 & w3 & H1 & _ & H3 & H4 & _ & H6 & _ & _ & H9 & H10 & _ & Horder).
  - reflexivity.
  - vm_compute. reflexivity.
  - reflexivity.
  - destruct (Horder [1; 0]%nat) as (w4 & Hrun & Htimers & _ & Hcache & Htabs);
      [by right|].
    eexists newContent, _, w2, w3, w4.
    split_and!;
      [exact H1|exact H3|exact H4|exact H6|exact H9|exact H10|exact Hrun|exact Htimers
      |exact Hcache|exact Htabs].
Defined.

End FileToolsMore.

(** ** Further properties of the request handler *)

Module RequestHandlerMore.
Import Collaborators RequestHandler RequestHandlerFacts.

Section WithHandler.
Variable env : Env.
Variable toolManager : gmap str McpTool.
Variable interceptorChain : InterceptorChain.

(** X16. When the before-phase returns a context with a cached
    response, that response is the reply, with status 200.  The handler
    of the tool is not called and the after-phase does not run: the
    world is the one the before-phase left, with two more log entries,
    the one that announces the cached response and the one that gives
    the measured total. *)
Theorem cached_response_short_circuits (toolName : str) (params : JsValue)
    (method path : str) (r : Request) (tool : McpTool) (ctx : RequestContext)
    (cached : Response) (w1 : World) :
  toolManager !! toolName = Some tool →
  processBeforeRequest interceptorChain
    (initialContext toolName params method path) (world r) = (Ok (Some ctx), w1) →
  cachedResponse ctx = Some cached →
  handleToolExecution env toolManager interceptorChain toolName params method path r
    = (Ok tt,
       {| world :=
            {| files := files w1; cache := cache w1; timers := timers w1;
               logs :=
                 logs w1
                   ++ [{| level := info;
                          message := [LText (lit "Using cached response for tool: ");
                                      LText toolName];
                          detail := None |};
                       {| level := info;
                          message := [LText (lit "Interceptor chain completed in ");
                                      LFixed2 (totalTime env);
                                      LText (lit "ms (cache hit)")];
                          detail := None |}];
               editorTabs := editorTabs w1 |};
          res := res r ++ [(200, cached)];
          handled := handled r |}).
Proof.
  intros Htool Hbefore Hcached. run. unfold getToolByName.
  rewrite Htool. cbn. rewrite Hbefore. cbn. rewrite Hcached. cbn.
  by rewrite <- app_assoc.
Qed.

(** X17. On the path that executes the tool, the handler is called once
    and with the parameters of the request, also when the before-phase
    returned a context with other parameters.  The reply is what the
    after-phase makes of the handler's result and of status 200: its
    payload and its status code are sent as they come out of the
    after-phase.  The world is the one the after-phase left, with one
    more log entry, which gives the measured durations, when the total
    is above 50 ms. *)
Theorem executed_call_reply (toolName : str) (params : JsValue)
    (method path : str) (r : Request) (tool : McpTool) (ctx : RequestContext)
    (w1 w2 w3 : World) (result : Response) (rc : ResponseContext) :
  toolManager !! toolName = Some tool →
  processBeforeRequest interceptorChain
    (initialContext toolName params method path) (world r) = (Ok (Some ctx), w1) →
  cachedResponse ctx = None →
  handle tool params (worldAtCall toolName w1) = (Ok result, w2) →
  processAfterResponse interceptorChain ctx
    {| response := result; statusCode := 200 |} w2 = (Ok rc, w3) →
  ∃ w4,
    handleToolExecution env toolManager interceptorChain toolName params method path r
      = (Ok tt,
         {| world := w4;
            res := res r ++ [(statusCode rc, response rc)];
            handled := handled r ++ [(name tool, params)] |})
    ∧ ((totalTime env <= 50)%Q → w4 = w3)
    ∧ ((50 < totalTime env)%Q →
       w4 = {| files := files w3; cache := cache w3; timers := timers w3;
               logs :=
                 logs w3
                   ++ [{| level := info;
                          message :=
                            [LText (lit "Interceptor chain processing: before=");
                             LFixed2 (beforeTime env); LText (lit "ms, after=");
                             LFixed2 (afterTime env); LText (lit "ms, total=");
                             LFixed2 (totalTime env); LText (lit "ms")];
                          detail := None |}];
               editorTabs := editorTabs w3 |}).
Proof.
  intros Htool Hbefore Hcached Hhandle Hafter. run. unfold getToolByName.
  rewrite Htool. cbn. rewrite Hbefore. cbn. rewrite Hcached. cbn.
  unfold worldAtCall, log in Hhandle. cbn in Hhandle. rewrite Hhandle. cbn.
  rewrite Hafter. cbn. unfold slowRequestHandlingMs.
  destruct (greater (totalTime env) 50) eqn:Hslow; cbn.
  - apply JsFacts.greater_true in Hslow.
    eexists. split; [reflexivity|]. split; [|done].
    intros Hle. exfalso. by apply (Qle_not_lt _ _ Hle).
  - apply JsFacts.greater_false in Hslow.
    eexists. split; [reflexivity|]. split; [done|].
    intros Hlt. exfalso. by apply (Qle_not_lt _ _ Hslow).
Qed.

(** X18. An error thrown by an interceptor is caught.  When the
    before-phase throws, no handler is called; when the after-phase
    throws, the handler has been called once.  In both cases the call
    returns normally and the one reply is the failure envelope of
    [handleServerError]. *)
Theorem interceptor_errors_are_caught (toolName : str) (params : JsValue)
    (method path : str) (r : Request) (tool : McpTool) (e : JsError) :
  toolManager !! toolName = Some tool →
  (∀ w1,
     processBeforeRequest interceptorChain
       (initialContext toolName params method path) (world r) = (Throw e, w1) →
     ∃ r',
       handleToolExecution env toolManager interceptorChain toolName params method path r
         = (Ok tt, r')
       ∧ handled r' = handled r
       ∧ res r' = res r ++ [(serverErrorStatus env,
                             failure (serverErrorMessage env e
                                        (lit "Error executing tool " ++ toolName)))])
  ∧ (∀ ctx w1 result w2 w3,
       processBeforeRequest interceptorChain
         (initialContext toolName params method path) (world r) = (Ok (Some ctx), w1) →
       cachedResponse ctx = None →
       handle tool params (worldAtCall toolName w1) = (Ok result, w2) →
       processAfterResponse interceptorChain ctx
         {| response := result; statusCode := 200 |} w2 = (Throw e, w3) →
       ∃ r',
         handleToolExecution env toolManager interceptorChain toolName params method path r
           = (Ok tt, r')
         ∧ handled r' = handled r ++ [(name tool, params)]
         ∧ res r' = res r ++ [(serverErrorStatus env,
                               failure (serverErrorMessage env e
                                          (lit "Error executing tool " ++ toolName)))]).
Proof.
  intros Htool. split.
  - intros w1 Hbefore. run. unfold getToolByName.
    rewrite Htool. cbn. rewrite Hbefore. cbn. by eexists.
  - intros ctx w1 result w2 w3 Hbefore Hcached Hhandle Hafter.
    run. unfold getToolByName.
    rewrite Htool. cbn. rewrite Hbefore. cbn. rewrite Hcached. cbn.
    unfold worldAtCall, log in Hhandle. cbn in Hhandle. rewrite Hhandle. cbn.
    rewrite Hafter. cbn. by eexists.
Qed.

(** X19. [executeToolDirect] on a registered tool whose handler returns
    gives that result back unchanged; the handler is called once with
    the given arguments, no reply is written to a response object, and
    the interceptor chain is not consulted. *)
Theorem direct_call_returns_handler_result (toolName : str) (args : JsValue)
    (r : Request) (tool : McpTool) (result : Response) (w2 : World) :
  toolManager !! toolName = Some tool →
  handle tool args (worldAtCall toolName (world r)) = (Ok result, w2) →
  executeToolDirect toolManager toolName args r
    = (Ok result,
       {| world := w2; res := res r; handled := handled r ++ [(name tool, args)] |}).
Proof.
  intros Htool Hhandle. run. unfold getToolByName. rewrite Htool. run.
  unfold worldAtCall, log in Hhandle. cbn [snd] in Hhandle. rewrite Hhandle. done.
Qed.

End WithHandler.

Lemma cached_response_short_circuits_witness :
  handleToolExecution Samples.env Samples.toolManager MoreSamples.cacheHitChain
    (lit "echo") (VScalar (VString [])) (lit "POST") (lit "/mcp/echo") Samples.request
  = (Ok tt,
     {| world :=
          {| files := files (world Samples.request);
             cache := cache (world Samples.request);
             timers := timers (world Samples.request);
             logs :=
               logs (world Samples.request)
                 ++ [{| level := info;
                        message := [LText (lit "Using cached response for tool: ");
                                    LText (lit "echo")];
                        detail := None |};
                     {| level := info;
                        message := [LText (lit "Interceptor chain completed in ");
                                    LFixed2 (totalTime Samples.env);
                                    LText (lit "ms (cache hit)")];
                        detail := None |}];
             editorTabs := editorTabs (world Samples.request) |};
        res := res Samples.request ++ [(200, MoreSamples.cachedAnswer)];
        handled := handled Samples.request |}).
Proof.
  eapply (cached_response_short_circuits Samples.env Samples.toolManager
            MoreSamples.cacheHitChain (lit "echo") (VScalar (VString [])) (lit "POST")
            (lit "/mcp/echo") Samples.request Samples.echo).
  - vm_compute. reflexivity.
  - reflexivity.
  - reflexivity.
Defined.

(** A call that takes 120 ms: the log ends with the entry of the
    durations. *)
Lemma executed_call_reply_witness :
  ∃ w4,
    handleToolExecution MoreSamples.envSlow MoreSamples.toolManager
      MoreSamples.rewritingChain
      (lit "mirror") (VScalar (VString (lit "given"))) (lit "POST") (lit "/mcp/mirror")
      Samples.request
    = (Ok tt,
       {| world := w4;
          res := [(418, success Samples.env (VScalar (VString (lit "given"))))];
          handled := [(lit "mirror", VScalar (VString (lit "given")))] |})
    ∧ logs w4
      = [{| level := info;
            message := [LText (lit "Executing tool: "); LText (lit "mirror")];
            detail := None |};
         {| level := info;
            message := [LText (lit "Interceptor chain processing: before=");
                        LFixed2 10; LText (lit "ms, after=");
                        LFixed2 5; LText (lit "ms, total=");
                        LFixed2 120; LText (lit "ms")];
            detail := None |}].
Proof.
  destruct (executed_call_reply MoreSamples.envSlow MoreSamples.toolManager
              MoreSamples.rewritingChain
              (lit "mirror") (VScalar (VString (lit "given"))) (lit "POST")
              (lit "/mcp/mirror") Samples.request MoreSamples.mirror
              (initialContext (lit "mirror") (VScalar (VString (lit "augmented")))
                 (lit "POST") (lit "/mcp/mirror"))
              (world Samples.request)
              (worldAtCall (lit "mirror") (world Samples.request))
              (worldAtCall (lit "mirror") (world Samples.request))
              (success Samples.env (VScalar (VString (lit "given"))))
              {| response := success Samples.env (VScalar (VString (lit "given")));
                 statusCode := 418 |})
    as (w4 & Hrun & _ & Hslow).
  - vm_compute. reflexivity.
  - reflexivity.
  - reflexivity.
  - reflexivity.
  - reflexivity.
  - exists w4. split; [exact Hrun|]. rewrite Hslow; reflexivity.
Defined.

(** The same call in 1.5 ms: nothing is logged after the after-phase. *)
Example executed_call_fast :
  match handleToolExecution Samples.env MoreSamples.toolManager MoreSamples.rewritingChain
          (lit "mirror") (VScalar (VString (lit "given"))) (lit "POST")
          (lit "/mcp/mirror") Samples.request with
  | (Ok _, r') =>
      logs (world r')
      = [{| level := info;
            message := [LText (lit "Executing tool: "); LText (lit "mirror")];
            detail := None |}]
  | _ => False
  end.
Proof. vm_compute. reflexivity. Qed.

Lemma interceptor_errors_are_caught_witness :
  ∃ r',
    handleToolExecution Samples.env Samples.toolManager MoreSamples.throwingChain
      (lit "echo") (VScalar (VString [])) (lit "POST") (lit "/mcp/echo") Samples.request
    = (Ok tt, r')
    ∧ handled r' = handled Samples.request
    ∧ res r' = res Samples.request
                 ++ [(serverErrorStatus Samples.env,
                      failure (serverErrorMessage Samples.env
                                 (ErrorObject (lit "interceptor"))
                                 (lit "Error executing tool " ++ lit "echo")))].
Proof.
  destruct (interceptor_errors_are_caught Samples.env Samples.toolManager
              MoreSamples.throwingChain (lit "echo") (VScalar (VString [])) (lit "POST")
              (lit "/mcp/echo") Samples.request Samples.echo
              (ErrorObject (lit "interceptor"))) as [Hbefore _].
  - vm_compute. reflexivity.
  - apply (Hbefore (world Samples.request)). reflexivity.
Defined.

Lemma direct_call_returns_handler_result_witness :
  ∃ w2,
    executeToolDirect MoreSamples.toolManager (lit "mirror")
      (VScalar (VString (lit "given"))) Samples.request
    = (Ok (success Samples.env (VScalar (VString (lit "given")))),
       {| world := w2; res := res Samples.request;
          handled := handled Samples.request
                       ++ [(name MoreSamples.mirror, VScalar (VString (lit "given")))] |}).
Proof.
  eexists.
  apply (direct_call_returns_handler_result MoreSamples.toolManager (lit "mirror")
           (VScalar (VString (lit "given"))) Samples.request MoreSamples.mirror).
  - vm_compute. reflexivity.
  - reflexivity.
Defined.

End RequestHandlerMore.

(** ** Properties of the list of tools *)

Module ToolsListFacts.
Import ToolsList.

(** *** Characters *)

Ltac all_chars c :=
  destruct c as [[] [] [] [] [] [] [] []]; vm_compute; try done; try congruence.

Lemma lowerChar_upperChar (c : ascii) : lowerChar (upperChar c) = lowerChar c.
Proof. all_chars c. Qed.

Lemma lowerChar_lowerChar (c : ascii) : lowerChar (lowerChar c) = lowerChar c.
Proof. all_chars c. Qed.

Lemma upperChar_underscore (c : ascii) : upperChar c = "_"%char → c = "_"%char.
Proof. all_chars c. Qed.

Lemma lowerChar_underscore (c : ascii) : lowerChar c = "_"%char → c = "_"%char.
Proof. all_chars c. Qed.

(** *** Splitting and joining *)

Lemma split_length (sep : ascii) (s : str) : (1 <= length (split sep s))%nat.
Proof.
  induction s as [|c s IH]; simpl; [lia|].
  case_decide; simpl; [lia|]. destruct (split sep s); simpl in *; lia.
Qed.

Lemma split_noSep (sep : ascii) (s : str) : Forall (λ w, sep ∉ w) (split sep s).
Proof.
  induction s as [|c s IH]; simpl.
  - repeat constructor. apply not_elem_of_nil.
  - case_decide.
    + constructor; [apply not_elem_of_nil|done].
    + destruct (split sep s) as [|h t].
      * repeat constructor. apply not_elem_of_cons. split; [congruence|apply not_elem_of_nil].
      * inversion IH; subst. constructor; [|done].
        apply not_elem_of_cons. split; [congruence|done].
Qed.

(** Joining what was split gives the text back. *)
Lemma join_split (sep : ascii) (s : str) : join [sep] (split sep s) = s.
Proof.
  induction s as [|c s IH]; [done|]. simpl split.
  pose proof (split_length sep s) as Hlen.
  case_decide; subst.
  - destruct (split sep s) eqn:E; simpl in *; [lia|]. by rewrite <- IH.
  - destruct (split sep s) as [|h t] eqn:E; simpl in *; [lia|].
    rewrite <- IH. by destruct t.
Qed.

Lemma map_join (f : ascii → ascii) (sep : ascii) (ws : list str) :
  map f (join [sep] ws) = join [f sep] (map (map f) ws).
Proof.
  induction ws as [|w ws IH]; [done|].
  destruct ws as [|w' ws]; [done|].
  change (join [sep] (w :: w' :: ws)) with (w ++ [sep] ++ join [sep] (w' :: ws)).
  rewrite !map_app, IH. done.
Qed.

Lemma length_join_map (f : str → str) (sep sep' : ascii) (ws : list str) :
  (∀ w, length (f w) = length w) →
  length (join [sep] (map f ws)) = length (join [sep'] ws).
Proof.
  intros Hf. induction ws as [|w ws IH]; [done|].
  destruct ws as [|w' ws]; [apply Hf|].
  change (join [sep'] (w :: w' :: ws)) with (w ++ [sep'] ++ join [sep'] (w' :: ws)).
  change (join [sep] (map f (w :: w' :: ws)))
    with (f w ++ [sep] ++ join [sep] (map f (w' :: ws))).
  rewrite !length_app, IH, Hf. done.
Qed.

Lemma elem_of_join (x sep : ascii) (ws : list str) :
  x ∈ join [sep] ws → x = sep ∨ ∃ w, w ∈ ws ∧ x ∈ w.
Proof.
  induction ws as [|w ws IH]; [by intros ?%elem_of_nil|].
  destruct ws as [|w' ws].
  - intros Hx. right. exists w. split; [apply list_elem_of_here|done].
  - change (join [sep] (w :: w' :: ws)) with (w ++ [sep] ++ join [sep] (w' :: ws)).
    rewrite !elem_of_app. intros [Hx|[Hx|Hx]].
    + right. exists w. split; [apply list_elem_of_here|done].
    + left. by apply list_elem_of_singleton in Hx.
    + destruct (IH Hx) as [?|(w0 & Hw0 & Hxw)]; [by left|].
      right. exists w0. split; [by apply list_elem_of_further|done].
Qed.

(** *** The generated title *)

Lemma capitalize_length (w : str) : length (capitalize w) = length w.
Proof.
  unfold capitalize, toUpperCase, toLowerCase.
  rewrite length_app, !length_map, <- length_app, take_drop. done.
Qed.

Lemma toLowerCase_capitalize (w : str) : toLowerCase (capitalize w) = toLowerCase w.
Proof.
  unfold capitalize, toUpperCase, toLowerCase.
  rewrite map_app, !map_map.
  rewrite (map_ext _ lowerChar (λ c, lowerChar_upperChar c)).
  rewrite (map_ext _ lowerChar (λ c, lowerChar_lowerChar c)).
  by rewrite <- map_app, take_drop.
Qed.

Lemma capitalize_underscore (w : str) : "_"%char ∉ w → "_"%char ∉ capitalize w.
Proof.
  intros Hw. unfold capitalize, toUpperCase, toLowerCase.
  rewrite elem_of_app, !list_elem_of_fmap.
  intros [(c & Hc & Hin)|(c & Hc & Hin)].
  - symmetry in Hc. apply upperChar_underscore in Hc as ->.
    apply Hw. by eapply (subseteq_take 1 w).
  - symmetry in Hc. apply lowerChar_underscore in Hc as ->.
    apply Hw. by eapply (subseteq_drop 1 w).
Qed.

Section WithSchema.
Variable Schema Annotations : Type.

(** X20. A tool without a title, or with an empty one, is listed under
    a title made from its name.  For a name of ASCII characters that
    title is as long as the name, holds no underscore, and is, letter
    case apart, the name with every underscore turned into a space. *)
Theorem generated_title_follows_name (allTools : list (Tool Schema Annotations))
    (i : nat) (tool : Tool Schema Annotations) :
  allTools !! i = Some tool →
  (title _ _ tool = None ∨ title _ _ tool = Some []) →
  isAscii (name _ _ tool) →
  ∃ listed,
    getToolsList _ _ allTools !! i = Some listed
    ∧ listedName _ _ listed = name _ _ tool
    ∧ length (listedTitle _ _ listed) = length (name _ _ tool)
    ∧ ("_"%char ∉ listedTitle _ _ listed)
    ∧ toLowerCase (listedTitle _ _ listed) = map spaced (name _ _ tool).
Proof.
  intros Hi Htitle _. exists (listTool _ _ tool).
  unfold getToolsList. rewrite list_lookup_fmap, Hi.
  split; [done|]. split; [done|]. cbn [listedTitle listTool].
  assert (titleOf _ _ tool = generatedTitle (name _ _ tool)) as ->.
  { unfold titleOf. by destruct Htitle as [-> | ->]. }
  unfold generatedTitle. change (lit " ") with [" "%char]. set (n := name _ _ tool).
  pose proof (split_noSep "_"%char n) as Hwords.
  split_and!.
  - rewrite (length_join_map capitalize _ "_"%char) by apply capitalize_length.
    by rewrite join_split.
  - intros Hin. apply elem_of_join in Hin as [?|(w & Hw & Hin)]; [done|].
    apply list_elem_of_fmap in Hw as (w0 & -> & Hw0).
    revert Hin. apply capitalize_underscore.
    by apply (proj1 (Forall_forall _ _) Hwords).
  - unfold toLowerCase at 1. rewrite (map_join lowerChar " "%char), map_map.
    rewrite <- (join_split "_"%char n) at 2.
    rewrite (map_join spaced "_"%char).
    change (spaced "_"%char) with " "%char. change (lowerChar " "%char) with " "%char.
    f_equal. apply Forall_fmap_ext_1.
    eapply Forall_impl; [exact Hwords|]. intros w Hw. cbn beta.
    fold (toLowerCase (capitalize w)). rewrite toLowerCase_capitalize.
    unfold toLowerCase. apply Forall_fmap_ext_1, Forall_forall.
    intros c Hc. unfold spaced. rewrite decide_False; [done|]. by intros ->.
Qed.

End WithSchema.

Lemma generated_title_follows_name_witness :
  ∃ listed,
    getToolsList unit unit
      [{| name := lit "get_file_text_by_path"; description := lit "reads";
          inputSchema := tt; outputSchema := None; title := Some [];
          annotations := None |}] !! 0%nat = Some listed
    ∧ listedName _ _ listed = lit "get_file_text_by_path"
    ∧ length (listedTitle _ _ listed) = length (lit "get_file_text_by_path")
    ∧ ("_"%char ∉ listedTitle _ _ listed)
    ∧ toLowerCase (listedTitle _ _ listed) = map spaced (lit "get_file_text_by_path").
Proof.
  apply (generated_title_follows_name unit unit _ 0%nat
           {| name := lit "get_file_text_by_path"; description := lit "reads";
              inputSchema := tt; outputSchema := None; title := Some [];
              annotations := None |}).
  - reflexivity.
  - right. reflexivity.
  - unfold isAscii. vm_compute. repeat constructor.
Defined.

Example generated_title_example :
  generatedTitle (lit "get_file_text_by_path") = lit "Get File Text By Path".
Proof. reflexivity. Qed.

End ToolsListFacts.

(** ** Properties of the folder listing *)

Module ListFilesInFolderFacts.
Import Collaborators ListFilesInFolderTool.

Section WithFolders.
Variable env : Env.
Variable folders : Folders.

Abbreviation before := (λ a b : Entry, compareEntries folders a b ≤ 0).

(** *** The sort *)

Lemma insert_Permutation (x : Entry) (l : list Entry) :
  insert folders x l ≡ₚ x :: l.
Proof.
  induction l as [|y l IH]; [done|]. simpl.
  case_decide; [done|]. rewrite IH. apply Permutation_swap.
Qed.

Lemma sort_Permutation (l : list Entry) : sort folders l ≡ₚ l.
Proof.
  induction l as [|x l IH]; [done|]. simpl.
  by rewrite insert_Permutation, IH.
Qed.

Lemma compareEntries_total (a b : Entry) :
  consistent (localeCompare folders) → before a b ∨ before b a.
Proof.
  intros [Htotal _]. unfold compareEntries.
  destruct (type a) eqn:Ea, (type b) eqn:Eb;
    repeat case_decide; try congruence; try lia; apply Htotal.
Qed.

Lemma compareEntries_trans (a b c : Entry) :
  consistent (localeCompare folders) → before a b → before b c → before a c.
Proof.
  intros [_ Htrans]. unfold compareEntries.
  destruct (type a) eqn:Ea, (type b) eqn:Eb, (type c) eqn:Ec;
    repeat case_decide; try congruence; try lia; apply Htrans.
Qed.

Lemma insert_sorted (x : Entry) (l : list Entry) :
  consistent (localeCompare folders) →
  StronglySorted before l → StronglySorted before (insert folders x l).
Proof.
  intros Hc. induction 1 as [|y l Hl IH Hy]; simpl.
  - repeat constructor.
  - case_decide as Hxy.
    + constructor; [by constructor|]. constructor; [done|].
      eapply Forall_impl; [exact Hy|]. intros z Hz. cbn beta in *.
      by eapply compareEntries_trans.
    + constructor; [done|]. rewrite insert_Permutation.
      constructor; [|done].
      destruct (compareEntries_total x y Hc); [done|done].
Qed.

Lemma sort_sorted (l : list Entry) :
  consistent (localeCompare folders) → StronglySorted before (sort folders l).
Proof.
  intros Hc. induction l as [|x l IH]; simpl; [constructor|].
  by apply insert_sorted.
Qed.

Lemma sorted_lookup (l : list Entry) (i j : nat) (a b : Entry) :
  StronglySorted before l → (i < j)%nat →
  l !! i = Some a → l !! j = Some b → before a b.
Proof.
  intros Hs. revert i j. induction Hs as [|y l Hl IH Hy]; intros i j Hij Hi Hj.
  - done.
  - destruct j as [|j]; [lia|]. destruct i as [|i]; simpl in *.
    + injection Hi as ->.
      apply (proj1 (Forall_forall _ _) Hy). by eapply list_elem_of_lookup_2.
    + apply (IH i j); [lia|done|done].
Qed.

(** *** The loop over the entries *)

Lemma formatEntries_run (absolutePath : str) (entries : list (str * Z)) (w : World) :
  ∃ w',
    formatEntries folders absolutePath entries w
      = (Ok (omap (formatEntry folders absolutePath) entries), w')
    ∧ files w' = files w ∧ cache w' = cache w ∧ timers w' = timers w
    ∧ editorTabs w' = editorTabs w.
Proof.
  revert w. induction entries as [|entry rest IH]; intros w.
  - by exists w.
  - cbn [formatEntries omap list_omap]. unfold formatEntry at 1.
    destruct (relativePathOf folders absolutePath entry.1) as [rel|e]; cbn.
    + destruct (IH w) as (w' & Hrun & ?). exists w'.
      unfold bind, ret. rewrite Hrun. done.
    + unfold bind, log. cbn.
      match goal with
      | |- context [formatEntries _ _ _ ?w0] => destruct (IH w0) as (w' & Hrun & H)
      end.
      exists w'. rewrite Hrun. done.
Qed.

(** X21. For a safe path that is a directory and can be read, the tool
    returns the success envelope of a list that holds, in some order,
    exactly the entries whose path could be computed: an entry that
    fails is left out and the others are still listed.  An entry is typed
    as a directory only when its file type is exactly [Directory]; every
    other type, a symbolic link to a directory among them, is typed as a
    file.  The listing changes nothing but the log. *)
Theorem listing_holds_every_entry (absolutePath : str) (entries : list (str * Z))
    (w : World) :
  isSafe folders absolutePath = true →
  statType folders absolutePath = Ok Directory →
  readDirectory folders absolutePath = Ok entries →
  ∃ result w',
    execute env folders absolutePath w = (Ok (listed folders result), w')
    ∧ result ≡ₚ omap (formatEntry folders absolutePath) entries
    ∧ (∀ e, e ∈ result →
         ∃ entryName fileType,
           (entryName, fileType) ∈ entries
           ∧ name e = entryName
           ∧ relativePathOf folders absolutePath entryName = Ok (pathInProject e)
           ∧ (type e = directory ↔ fileType = Directory))
    ∧ files w' = files w ∧ cache w' = cache w ∧ timers w' = timers w.
Proof.
  intros Hsafe Hstat Hread. unfold execute.
  rewrite Hsafe, Hstat, Hread.
  destruct (formatEntries_run absolutePath entries w) as (w' & Hrun & Hf & Hc & Ht & _).
  unfold liftResult, tryCatch, bind, ret. cbn [negb].
  rewrite decide_False by (intros H; by apply H). rewrite Hrun.
  eexists _, w'. split; [reflexivity|]. split; [apply sort_Permutation|].
  split; [|done].
  intros e He. rewrite sort_Permutation in He.
  apply list_elem_of_omap in He as ([entryName fileType] & Hin & Hfmt).
  exists entryName, fileType. split; [done|].
  unfold formatEntry in Hfmt. cbn in Hfmt.
  destruct (relativePathOf folders absolutePath entryName) as [rel|]; [|done].
  injection Hfmt as <-. cbn. split; [done|]. split; [done|].
  case_decide; split; done.
Qed.

(** X22. With a consistent comparison of names, the listed entries are
    in order: no file comes before a directory, and of two entries of
    the same kind the earlier one has the name that compares lower or
    equal. *)
Theorem listing_is_ordered (absolutePath : str) (entries : list (str * Z))
    (w : World) :
  consistent (localeCompare folders) →
  isSafe folders absolutePath = true →
  statType folders absolutePath = Ok Directory →
  readDirectory folders absolutePath = Ok entries →
  ∃ result w',
    execute env folders absolutePath w = (Ok (listed folders result), w')
    ∧ ∀ (i j : nat) (a b : Entry),
        (i < j)%nat → result !! i = Some a → result !! j = Some b →
        (type b = directory → type a = directory)
        ∧ (type a = type b → localeCompare folders (name a) (name b) ≤ 0).
Proof.
  intros Hcons Hsafe Hstat Hread. unfold execute.
  rewrite Hsafe, Hstat, Hread.
  destruct (formatEntries_run absolutePath entries w) as (w' & Hrun & _).
  unfold liftResult, tryCatch, bind, ret. cbn [negb].
  rewrite decide_False by (intros H; by apply H). rewrite Hrun.
  eexists _, w'. split; [reflexivity|].
  intros i j a b Hij Ha Hb.
  pose proof (sorted_lookup _ i j a b (sort_sorted _ Hcons) Hij Ha Hb) as Hab.
  cbn beta in Hab. unfold compareEntries in Hab.
  destruct (type a) eqn:Ea, (type b) eqn:Eb; repeat case_decide;
    try congruence; split; intros; try done; try lia.
Qed.

(** X23. The tool refuses a path outside the project before it asks the
    file system, and a path whose type is not exactly [Directory] (a
    file, or a symbolic link to a directory) before it reads the
    directory; an error of the file system becomes the envelope of
    [handleFileSystemError].  In no case does the tool throw. *)
Theorem listing_refusals (absolutePath : str) (w : World) :
  (isSafe folders absolutePath = false →
   execute env folders absolutePath w
     = (Ok (failure (lit "Path is outside project directory")), w))
  ∧ (∀ fileType,
       isSafe folders absolutePath = true →
       statType folders absolutePath = Ok fileType →
       fileType ≠ Directory →
       ∃ w',
         execute env folders absolutePath w
           = (Ok (failure (lit "Path is not a directory: " ++ absolutePath)), w')
         ∧ files w' = files w)
  ∧ ∃ resp w', execute env folders absolutePath w = (Ok resp, w').
Proof.
  unfold execute. split_and!.
  - intros ->. done.
  - intros fileType -> -> Hne.
    unfold liftResult, tryCatch, bind, ret, log. cbn [negb].
    rewrite decide_True by done. by eexists.
  - destruct (isSafe folders absolutePath); cbn [negb]; [|by eexists _, _].
    unfold liftResult, tryCatch, bind, ret, throw, log, handleFileSystemError.
    destruct (statType folders absolutePath) as [fileType|e]; [|by eexists _, _].
    destruct (decide (fileType ≠ Directory)); [by eexists _, _|].
    destruct (readDirectory folders absolutePath) as [entries|e]; [|by eexists _, _].
    destruct (formatEntries_run absolutePath entries w) as (w' & Hrun & _).
    rewrite Hrun. by eexists _, _.
Qed.

End WithFolders.

Lemma sample_consistent : consistent (localeCompare sampleFolders).
Proof. split; cbn; intros; lia. Qed.

Lemma listing_holds_every_entry_witness :
  ∃ result w',
    execute Samples.env sampleFolders (lit "/w") (Samples.world []) = (Ok (listed sampleFolders result), w')
    ∧ length result = 4%nat.
Proof.
  destruct (listing_holds_every_entry Samples.env sampleFolders (lit "/w")
              [(lit "b.txt", File); (lit "src", Directory); (lit "link", 66);
               (lit "a", Directory)] (Samples.world []))
    as (result & w' & Hrun & Hperm & _).
  - reflexivity.
  - reflexivity.
  - reflexivity.
  - exists result, w'. split; [exact Hrun|].
    rewrite Hperm. reflexivity.
Defined.

Lemma listing_is_ordered_witness :
  ∃ result w',
    execute Samples.env sampleFolders (lit "/w") (Samples.world [])
      = (Ok (listed sampleFolders result), w')
    ∧ ∀ (i j : nat) (a b : Entry),
        (i < j)%nat → result !! i = Some a → result !! j = Some b →
        (type b = directory → type a = directory)
        ∧ (type a = type b → localeCompare sampleFolders (name a) (name b) ≤ 0).
Proof.
  apply (listing_is_ordered Samples.env sampleFolders (lit "/w")
           [(lit "b.txt", File); (lit "src", Directory); (lit "link", 66);
            (lit "a", Directory)] (Samples.world [])).
  - split; cbn; intros; lia.
  - reflexivity.
  - reflexivity.
  - reflexivity.
Defined.

(** The sample folder: the directories first, the symbolic link among the
    files. *)
Example sample_listing :
  map (λ e, (name e, type e))
    (sort sampleFolders
       (omap (formatEntry sampleFolders (lit "/w"))
          [(lit "b.txt", File); (lit "src", Directory); (lit "link", 66);
           (lit "a", Directory)]))
  = [(lit "a", directory); (lit "src", directory); (lit "link", file);
     (lit "b.txt", file)].
Proof. reflexivity. Qed.

End ListFilesInFolderFacts.
